(** * Trie router of hono: a shallow embedding of [src/router/trie-router/node.ts]
    and of the AWS Lambda event adapter, with the properties of the
    specification stated and settled against them.

    The trie is a graph of JavaScript objects that [search] mutates in
    place (the [#params] field of nodes, the [params] field of handler
    sets).  The embedding therefore keeps an explicit store of node
    objects, handler-set objects and parameter objects, addressed by
    natural numbers, and threads it through every operation.

    Scope of the model.  The objects that the router uses as maps
    ([#children], the method maps, the parameter objects) are created by
    [Object.create(null)] or hold, as far as the router reads them, only
    the properties that were assigned: they are finite maps from
    property names to values, and a name such as [__proto__] or
    [constructor], which an object literal inherits, is not treated
    apart.  A thrown error and a read through a reference that is
    not in the store are both the result [None].  Numbers are the
    registration counters only, and are natural numbers. *)

From stdpp Require Import gmap strings list fin_maps sorting.
From Stdlib Require Import Ascii.


(** ** JavaScript values found in parameter objects *)

(** A property of a parameter object holds a string or [undefined]. *)
Inductive JsVal : Type :=
  | undefined
  | Str (s : string).

Global Instance JsVal_eq_dec : EqDecision JsVal.
Proof. solve_decision. Defined.

(** Truthiness: [undefined] and the empty string are falsy. *)
Definition truthy (v : JsVal) : bool :=
  match v with
  | undefined => false
  | Str s => negb (String.eqb s "")
  end.

(** [a ?? b] *)
Definition nullish (a b : JsVal) : JsVal :=
  match a with
  | undefined => b
  | Str _ => a
  end.

(** Conversion of a value used as a property key. *)
Definition toKey (v : JsVal) : string :=
  match v with
  | undefined => "undefined"
  | Str s => s
  end.

(** [Record<string, string>], whose properties may have been assigned
    [undefined]. *)
Abbreviation Params := (gmap string JsVal).

(** [o[k]] *)
Definition prop (o : Params) (k : string) : JsVal := default undefined (o !! k).

(** [o?.[k]] for an object that may itself be [undefined]. *)
Definition optProp (o : option Params) (k : string) : JsVal :=
  match o with
  | Some o => prop o k
  | None => undefined
  end.

(** ** Patterns ([Pattern] of [utils/url]) *)

(** [RegExp | true] *)
Inductive Matcher : Type :=
  | MTrue
  | MRegExp (source : string).

(** [readonly [string, string, RegExp | true] | '*'] *)
Inductive Pattern : Type :=
  | PWild
  | PParam (key name : string) (matcher : Matcher).

Global Instance Matcher_eq_dec : EqDecision Matcher.
Proof. solve_decision. Defined.
Global Instance Pattern_eq_dec : EqDecision Pattern.
Proof. solve_decision. Defined.

(** [pattern[1]]: the parameter name; indexing the string ['*'] at 1 gives
    [undefined]. *)
Definition pattern_1 (p : Pattern) : JsVal :=
  match p with
  | PWild => undefined
  | PParam _ name _ => Str name
  end.

(** The regular-expression engine of the host: [regexp_new src] is the
    object that [new RegExp] makes for the constraint written [src],
    given by its method [test]; it is [None] when the constructor throws
    a [SyntaxError], the constraint being malformed. *)
Class RegExpEngine := regexp_new : string → option (string → bool).

(** [matcher.test(s)] for the object made from the constraint [src].  A
    pattern holds the object that [getPattern] made; the model keeps the
    source of the constraint and asks the engine for the object again.
    No pattern holds a constraint that the constructor refuses; [false]
    stands for that case. *)
Definition regexp_test {E : RegExpEngine} (src s : string) : bool :=
  match regexp_new src with
  | Some test => test s
  | None => false
  end.

Definition METHOD_NAME_ALL : string := "ALL".

(** ** Path tokenizer ([utils/url], not part of the sources at hand) *)

Definition slash : ascii := "/"%char.

Definition consHead (c : ascii) (l : list string) : list string :=
  match l with
  | [] => [String c ""]
  | hd :: tl => String c hd :: tl
  end.

(** [path.split('/')] *)
Fixpoint split (path : string) : list string :=
  match path with
  | EmptyString => [""]
  | String c rest =>
      if Ascii.eqb c slash then "" :: split rest else consHead c (split rest)
  end.

(** Modelled from the spec: [splitPath] of [utils/url] is missing; a
    segment is one [/]-delimited component of the path, the leading
    separator opens no segment, and a trailing separator leaves an empty
    last segment. *)
Definition splitPath (path : string) : list string :=
  match split path with
  | "" :: paths => paths
  | paths => paths
  end.

(** Splitting on the separators that stand outside a [{...}] constraint. *)
Fixpoint splitOutside (inBrace : bool) (path : string) : list string :=
  match path with
  | EmptyString => [""]
  | String c rest =>
      if Ascii.eqb c slash && negb inBrace then "" :: splitOutside false rest
      else
        let inBrace' :=
          if Ascii.eqb c "{"%char then true
          else if Ascii.eqb c "}"%char then false else inBrace in
        consHead c (splitOutside inBrace' rest)
  end.

(** Modelled from the spec: [splitRoutingPath] of [utils/url] is missing;
    it yields the segments of a route, where a regex constraint
    [:name{pattern}] stays one segment even when its source contains the
    path separator. *)
Definition splitRoutingPath (routePath : string) : list string :=
  match splitOutside false routePath with
  | "" :: paths => paths
  | paths => paths
  end.

(** The text before the first [c] and the text after it. *)
Fixpoint breakAt (c : ascii) (s : string) : option (string * string) :=
  match s with
  | EmptyString => None
  | String d rest =>
      if Ascii.eqb d c then Some ("", rest)
      else match breakAt c rest with
           | Some (a, b) => Some (String d a, b)
           | None => None
           end
  end.

Fixpoint hasChar (c : ascii) (s : string) : bool :=
  match s with
  | EmptyString => false
  | String d rest => Ascii.eqb d c || hasChar c rest
  end.

(** [s] without its last character, when that character is [c]. *)
Fixpoint stripLast (c : ascii) (s : string) : option string :=
  match s with
  | EmptyString => None
  | String d EmptyString => if Ascii.eqb d c then Some "" else None
  | String d rest =>
      match stripLast c rest with
      | Some r => Some (String d r)
      | None => None
      end
  end.

(** Modelled from the spec: the labels that [getPattern] of [utils/url],
    which is missing, takes for patterns; the route syntax is [*]
    (wildcard), [:name] (unconstrained parameter) and [:name{pattern}]
    (regex-constrained parameter); any other label is literal text.  The
    key of a pattern is its label. *)
Definition labelPattern (label : string) : option Pattern :=
  if String.eqb label "*" then Some PWild
  else
    match label with
    | String c rest =>
        if negb (Ascii.eqb c ":") then None
        else
          match breakAt "{" rest with
          | None =>
              if String.eqb rest "" || hasChar "}" rest then None
              else Some (PParam label rest MTrue)
          | Some (name, tail) =>
              match stripLast "}" tail with
              | Some source =>
                  if String.eqb name "" || hasChar "}" name || String.eqb source ""
                  then None
                  else Some (PParam label name (MRegExp source))
              | None => None
              end
          end
    | EmptyString => None
    end.

(** [parts.join('/')] *)
Definition join (parts : list string) : string := String.concat "/" parts.

(** The constraint of the label, if it has one, is one that [new RegExp]
    accepts. *)
Definition wellFormed {E : RegExpEngine} (label : string) : bool :=
  match labelPattern label with
  | Some (PParam _ _ (MRegExp source)) =>
      match regexp_new source with
      | Some _ => true
      | None => false
      end
  | _ => true
  end.

(** The constraints of the route are well formed. *)
Definition compiles {E : RegExpEngine} (routePath : string) : bool :=
  forallb wellFormed (splitRoutingPath routePath).

(** ** The object store *)

(** A reference to a parameter object: the module-level singleton
    [emptyParams], or an object created during a search. *)
Inductive pref : Type :=
  | emptyParams
  | pobj (a : nat).

Global Instance pref_eq_dec : EqDecision pref.
Proof. solve_decision. Defined.

Section Trie.
Context {T : Type}.
Context {E : RegExpEngine}.

(** [HandlerSet<T>], and [HandlerParamsSet<T>] once [search] has given
    it a [params] property ([hs_params], [None] while undefined). *)
Record HandlerSet : Type := mkHandlerSet {
  handler : T;
  possibleKeys : list JsVal;
  score : nat;
  hs_params : option nat;
}.

(** The fields of a [Node<T>]; children and handler sets are held by
    reference. *)
Record Node : Type := mkNode {
  methods : list (gmap string nat);
  children : gmap string nat;
  patterns : list Pattern;
  order : nat;
  params : pref;
}.

Record State : Type := mkState {
  nodes : list Node;
  hsets : list HandlerSet;
  pobjs : list Params;
}.

(** Computations on the store; [None] is a thrown error: the
    [TypeError] of a property read on [undefined], or the [SyntaxError]
    of a malformed constraint.  The store that a throw leaves behind is
    not kept. *)
Definition M (A : Type) : Type := State → option (A * State).

Global Instance M_ret : MRet M := λ A a σ, Some (a, σ).

Global Instance M_bind : MBind M := λ A B f m σ,
  match m σ with
  | Some (a, σ') => f a σ'
  | None => None
  end.

Definition throw {A} : M A := λ _, None.

(** *** Reading, writing and allocating objects *)

Definition getNode (a : nat) : M Node := λ σ,
  match nodes σ !! a with
  | Some n => Some (n, σ)
  | None => None
  end.

Definition setNode (a : nat) (n : Node) : M unit := λ σ,
  Some (tt, mkState (<[a := n]> (nodes σ)) (hsets σ) (pobjs σ)).

Definition allocNode (n : Node) : M nat := λ σ,
  Some (length (nodes σ), mkState (nodes σ ++ [n]) (hsets σ) (pobjs σ)).

Definition getHS (a : nat) : M HandlerSet := λ σ,
  match hsets σ !! a with
  | Some h => Some (h, σ)
  | None => None
  end.

Definition setHS (a : nat) (h : HandlerSet) : M unit := λ σ,
  Some (tt, mkState (nodes σ) (<[a := h]> (hsets σ)) (pobjs σ)).

Definition allocHS (h : HandlerSet) : M nat := λ σ,
  Some (length (hsets σ), mkState (nodes σ) (hsets σ ++ [h]) (pobjs σ)).

Definition getP (a : nat) : M Params := λ σ,
  match pobjs σ !! a with
  | Some o => Some (o, σ)
  | None => None
  end.

Definition setP (a : nat) (o : Params) : M unit := λ σ,
  Some (tt, mkState (nodes σ) (hsets σ) (<[a := o]> (pobjs σ))).

Definition allocP (o : Params) : M nat := λ σ,
  Some (length (pobjs σ), mkState (nodes σ) (hsets σ) (pobjs σ ++ [o])).

(** *** Field assignments *)

(** [node.#order = k] *)
Definition writeOrder (node k : nat) : M unit :=
  n ← getNode node;
  setNode node (mkNode (methods n) (children n) (patterns n) k (params n)).

(** [node.#children[p] = c] *)
Definition writeChild (node : nat) (p : string) (c : nat) : M unit :=
  n ← getNode node;
  setNode node
    (mkNode (methods n) (<[p := c]> (children n)) (patterns n) (order n)
            (params n)).

(** [node.#patterns.push(pattern)] *)
Definition pushPattern (node : nat) (pattern : Pattern) : M unit :=
  n ← getNode node;
  setNode node
    (mkNode (methods n) (children n) (patterns n ++ [pattern]) (order n)
            (params n)).

(** [node.#methods.push(m)] *)
Definition pushMethods (node : nat) (m : gmap string nat) : M unit :=
  n ← getNode node;
  setNode node
    (mkNode (methods n ++ [m]) (children n) (patterns n) (order n) (params n)).

(** [node.#params = r] *)
Definition writeParams (node : nat) (r : pref) : M unit :=
  n ← getNode node;
  setNode node (mkNode (methods n) (children n) (patterns n) (order n) r).

(** [handlerSet.params = o] *)
Definition writeHsParams (a o : nat) : M unit :=
  h ← getHS a;
  setHS a (mkHandlerSet (handler h) (possibleKeys h) (score h) (Some o)).

(** [params[name] = v] on the object at [a] *)
Definition writeProp (a : nat) (name : string) (v : JsVal) : M unit :=
  o ← getP a;
  setP a (<[name := v]> o).

(** The properties of the object behind a reference; [emptyParams] is
    created by [Object.create(null)] and never written. *)
Definition deref (r : pref) : M Params :=
  match r with
  | emptyParams => mret ∅
  | pobj a => getP a
  end.

Definition derefOpt (r : option pref) : M (option Params) :=
  match r with
  | None => mret None
  | Some r => o ← deref r; mret (Some o)
  end.

(** Using a child that may be [undefined] as an object. *)
Definition defined {A} (o : option A) : M A :=
  match o with
  | Some a => mret a
  | None => throw
  end.

(** [new Node()]: the constructor with no argument, as [insert] and the
    router call it. *)
Definition newNode : Node := mkNode [] ∅ [] 0 emptyParams.

(** ** [insert] *)

(** [a.indexOf(v)], [length a] standing for [-1]. *)
Fixpoint indexOf (v : JsVal) (a : list JsVal) : nat :=
  match a with
  | [] => 0
  | x :: a' => if bool_decide (x = v) then 0 else S (indexOf v a')
  end.

(** [a.filter((v, i, a) => a.indexOf(v) === i)] *)
Definition firstOccurrences (a : list JsVal) : list JsVal :=
  (List.filter (λ iv : nat * JsVal, Nat.eqb (indexOf iv.2 a) iv.1)
               (imap pair a)).*2.

(** Modelled from the spec: [getPattern] of [utils/url] is missing.  It
    gives the pattern of a label, [null] for literal text; it makes the
    [RegExp] of a constraint, so that a malformed constraint makes the
    registration throw (section 7: invalid pattern syntax fails fast at
    [insert] time). *)
Definition getPattern (label : string) : M (option Pattern) :=
  match labelPattern label with
  | Some (PParam key name (MRegExp source)) =>
      match regexp_new source with
      | Some _ => mret (Some (PParam key name (MRegExp source)))
      | None => throw
      end
  | pattern => mret pattern
  end.

(** The loop of [insert] over the parts of the route (lines 46-66). *)
Fixpoint insertParts (parts : list string) (curNode : nat)
    (possibleKeys : list JsVal) : M (nat * list JsVal) :=
  match parts with
  | [] => mret (curNode, possibleKeys)
  | p :: parts' =>
      n ← getNode curNode;
      match children n !! p with
      | Some c =>
          pattern ← getPattern p;
          let possibleKeys' :=
            match pattern with
            | Some pattern => possibleKeys ++ [pattern_1 pattern]
            | None => possibleKeys
            end in
          insertParts parts' c possibleKeys'
      | None =>
          c ← allocNode newNode;
          writeChild curNode p c;;
          pattern ← getPattern p;
          possibleKeys' ←
            match pattern with
            | Some pattern =>
                pushPattern curNode pattern;;
                mret (possibleKeys ++ [pattern_1 pattern])
            | None => mret possibleKeys
            end;
          insertParts parts' c possibleKeys'
      end
  end.

Definition insert (this : nat) (method path : string) (h : T) : M nat :=
  n ← getNode this;
  writeOrder this (S (order n));;
  '(curNode, possibleKeys) ← insertParts (splitRoutingPath path) this [];
  n ← getNode this;
  hs ← allocHS (mkHandlerSet h (firstOccurrences possibleKeys) (order n) None);
  pushMethods curNode {[ method := hs ]};;
  mret curNode.

(** ** [#getHandlerSets] *)

(** The loop over [possibleKeys] (lines 97-103); [processedSet] is the
    object of line 92 and [acc] the properties written so far to
    [handlerSet.params]. *)
Fixpoint resolveKeys (keys : list JsVal) (score : nat)
    (processedSet : gmap nat bool) (nodeParams : Params)
    (params : option Params) (acc : Params) : Params :=
  match keys with
  | [] => acc
  | key :: keys' =>
      let k := toKey key in
      let processed := default false (processedSet !! score) in
      let v :=
        if truthy (optProp params k) && negb processed
        then optProp params k
        else nullish (prop nodeParams k) (optProp params k) in
      resolveKeys keys' score (<[score := true]> processedSet)
                  nodeParams params (<[k := v]> acc)
  end.

(** [nodeParams !== emptyParams || (params && params !== emptyParams)] *)
Definition someParams (nodeParams : pref) (params : option pref) : bool :=
  negb (bool_decide (nodeParams = emptyParams))
  || match params with
     | Some r => negb (bool_decide (r = emptyParams))
     | None => false
     end.

(** [m[method] || m[METHOD_NAME_ALL]] *)
Definition methodEntry (m : gmap string nat) (method : string) : option nat :=
  match m !! method with
  | Some a => Some a
  | None => m !! METHOD_NAME_ALL
  end.

(** The loop over the method maps of the node (lines 89-106). *)
Fixpoint getHandlerSetsLoop (ms : list (gmap string nat)) (method : string)
    (nodeParams : pref) (params : option pref) : M (list nat) :=
  match ms with
  | [] => mret []
  | m :: ms' =>
      match methodEntry m method with
      | Some a =>
          handlerSet ← getHS a;
          o ← allocP ∅;
          writeHsParams a o;;
          (if someParams nodeParams params then
             np ← deref nodeParams;
             ps ← derefOpt params;
             setP o (resolveKeys (possibleKeys handlerSet) (score handlerSet)
                       ∅ np ps ∅)
           else mret tt);;
          rest ← getHandlerSetsLoop ms' method nodeParams params;
          mret (a :: rest)
      | None => getHandlerSetsLoop ms' method nodeParams params
      end
  end.

Definition getHandlerSets (node : nat) (method : string)
    (nodeParams : pref) (params : option pref) : M (list nat) :=
  n ← getNode node;
  getHandlerSetsLoop (methods n) method nodeParams params.

(** ** [search] *)

(** The literal child of one frontier node (lines 126-141). *)
Definition searchLiteral (node : nat) (method part : string) (isLast : bool)
    : M (list nat * list nat) :=
  n ← getNode node;
  match children n !! part with
  | Some nextNode =>
      writeParams nextNode (params n);;
      if isLast then
        nn ← getNode nextNode;
        hs1 ← match children nn !! "*" with
              | Some astNode =>
                  n ← getNode node;
                  getHandlerSets astNode method (params n) None
              | None => mret []
              end;
        n ← getNode node;
        hs2 ← getHandlerSets nextNode method (params n) None;
        mret (hs1 ++ hs2, [])
      else mret ([], [nextNode])
  | None => mret ([], [])
  end.

(** [r === emptyParams ? {} : { ...r }] *)
Definition copyParams (r : pref) : M nat :=
  match r with
  | emptyParams => allocP ∅
  | pobj a => o ← getP a; allocP o
  end.

(** [matcher instanceof RegExp && matcher.test(restPathString)] *)
Definition restMatch (matcher : Matcher) (restPathString : string) : bool :=
  match matcher with
  | MRegExp source => regexp_test source restPathString
  | MTrue => false
  end.

(** [matcher === true || matcher.test(part)] *)
Definition partMatch (matcher : Matcher) (part : string) : bool :=
  match matcher with
  | MTrue => true
  | MRegExp source => regexp_test source part
  end.

(** One turn of the loop over the patterns of a node (lines 144-187). *)
Definition searchPattern (node : nat) (method part restPathString : string)
    (isLast : bool) (pattern : Pattern) : M (list nat * list nat) :=
  n ← getNode node;
  params' ← copyParams (params n);
  match pattern with
  | PWild =>
      n ← getNode node;
      match children n !! "*" with
      | Some astNode =>
          hs ← getHandlerSets astNode method (params n) None;
          mret (hs, [astNode])
      | None => mret ([], [])
      end
  | PParam key name matcher =>
      if String.eqb part "" then mret ([], [])
      else
        n ← getNode node;
        let child := children n !! key in
        if restMatch matcher restPathString then
          writeProp params' name (Str restPathString);;
          child ← defined child;
          n ← getNode node;
          hs ← getHandlerSets child method (params n) (Some (pobj params'));
          mret (hs, [])
        else if partMatch matcher part then
          writeProp params' name (Str part);;
          if isLast then
            child ← defined child;
            n ← getNode node;
            hs1 ← getHandlerSets child method (pobj params') (Some (params n));
            c ← getNode child;
            hs2 ← match children c !! "*" with
                  | Some astNode =>
                      n ← getNode node;
                      getHandlerSets astNode method (pobj params')
                                     (Some (params n))
                  | None => mret []
                  end;
            mret (hs1 ++ hs2, [])
          else
            child ← defined child;
            writeParams child (pobj params');;
            mret ([], [child])
        else mret ([], [])
  end.

(** The loop over the patterns of a node (line 143). *)
Fixpoint searchPatterns (node : nat) (method part restPathString : string)
    (isLast : bool) (ps : list Pattern) : M (list nat * list nat) :=
  match ps with
  | [] => mret ([], [])
  | pattern :: ps' =>
      '(hs1, t1) ← searchPattern node method part restPathString isLast pattern;
      '(hs2, t2) ← searchPatterns node method part restPathString isLast ps';
      mret (hs1 ++ hs2, t1 ++ t2)
  end.

(** One frontier node against the current part (the body of the loop of
    line 124): the handler sets pushed and the nodes pushed to
    [tempNodes]. *)
Definition searchNode (node : nat) (method part restPathString : string)
    (isLast : bool) : M (list nat * list nat) :=
  '(hs1, t1) ← searchLiteral node method part isLast;
  n ← getNode node;
  '(hs2, t2) ← searchPatterns node method part restPathString isLast (patterns n);
  mret (hs1 ++ hs2, t1 ++ t2).

(** The loop over the frontier [curNodes] (line 124). *)
Fixpoint searchNodes (curNodes : list nat) (method part restPathString : string)
    (isLast : bool) : M (list nat * list nat) :=
  match curNodes with
  | [] => mret ([], [])
  | node :: curNodes' =>
      '(hs1, t1) ← searchNode node method part restPathString isLast;
      '(hs2, t2) ← searchNodes curNodes' method part restPathString isLast;
      mret (hs1 ++ hs2, t1 ++ t2)
  end.

(** The loop over the parts of the path (line 119); [parts] are the
    parts from index [i] on, so that [parts.slice(i)] is [parts]. *)
Fixpoint searchParts (parts : list string) (curNodes : list nat)
    (method : string) : M (list nat) :=
  match parts with
  | [] => mret []
  | part :: parts' =>
      let isLast := bool_decide (parts' = []) in
      '(hs1, tempNodes) ← searchNodes curNodes method part (join parts) isLast;
      hs2 ← searchParts parts' tempNodes method;
      mret (hs1 ++ hs2)
  end.

(** [handlerSets.sort((a, b) => a.score - b.score)], a stable sort. *)
Fixpoint insertByScore (x : nat * HandlerSet) (l : list (nat * HandlerSet))
    : list (nat * HandlerSet) :=
  match l with
  | [] => [x]
  | y :: l' =>
      if score x.2 <=? score y.2 then x :: y :: l' else y :: insertByScore x l'
  end.

Definition sortByScore (l : list (nat * HandlerSet)) : list (nat * HandlerSet) :=
  foldr insertByScore [] l.

(** Reading the handler sets behind a list of references. *)
Fixpoint readHandlerSets (refs : list nat) : M (list (nat * HandlerSet)) :=
  match refs with
  | [] => mret []
  | a :: refs' =>
      h ← getHS a;
      rest ← readHandlerSets refs';
      mret ((a, h) :: rest)
  end.

(** [search], up to the sort: the references to the handler sets in the
    order of the returned array. *)
Definition searchRefs (this : nat) (method path : string) : M (list nat) :=
  writeParams this emptyParams;;
  handlerSets ← searchParts (splitPath path) [this] method;
  hs ← readHandlerSets handlerSets;
  mret (if 1 <? length hs then (sortByScore hs).*1 else handlerSets).

(** [search]: each pair holds the handler and the reference found in the
    [params] property of its handler set when the array is mapped
    (line 200).  The source wraps the array in a one-element tuple; the
    model returns the array itself. *)
Definition search (this : nat) (method path : string)
    : M (list (T * option nat)) :=
  handlerSets ← searchRefs this method path;
  hs ← readHandlerSets handlerSets;
  mret ((λ ah : nat * HandlerSet, (handler ah.2, hs_params ah.2)) <$> hs).

(** The result as a reader sees it: each parameter object replaced by
    its properties. *)
Fixpoint view (σ : State) (res : list (T * option nat))
    : option (list (T * Params)) :=
  match res with
  | [] => Some []
  | (h, r) :: res' =>
      a ← r;
      o ← pobjs σ !! a;
      rest ← view σ res';
      Some ((h, o) :: rest)
  end.

(** The store of [new Node()]: the root at address 0. *)
Definition emptyTrie : State := mkState [newNode] [] [].

Definition root : nat := 0.

(** A route registration [(method, path, handler)]. *)
Definition Route : Type := string * string * T.

(** The store after registering the routes in order on the root. *)
Fixpoint insertAll (routes : list Route) (σ : State) : option State :=
  match routes with
  | [] => Some σ
  | (method, path, h) :: routes' =>
      match insert root method path h σ with
      | Some (_, σ') => insertAll routes' σ'
      | None => None
      end
  end.

(** Searching a store and viewing the result. *)
Definition searchView (σ : State) (method path : string)
    : option (list (T * Params)) :=
  match search root method path σ with
  | Some (res, σ') => view σ' res
  | None => None
  end.

End Trie.

Global Arguments HandlerSet : clear implicits.
Global Arguments State : clear implicits.
Global Arguments Route : clear implicits.

(** Registering [routes] on a fresh root, then searching. *)
Definition searchAfter {T} {E : RegExpEngine} (routes : list (Route T))
    (method path : string) : option (list (T * Params)) :=
  σ ← insertAll routes emptyTrie; searchView σ method path.

(** ** Stores of the scenarios

    Each is the store that the registrations of a scenario build, with
    the method maps left as parameters. *)

Module Scenario.

(** [/users/:id] registered twice. *)
Definition users {T} (mm1 mm2 : gmap string nat) (h1 h2 : T) : State T :=
  mkState
    [ mkNode [] {[ "users" := 1 ]} [] 2 emptyParams;
      mkNode [] {[ ":id" := 2 ]} [PParam ":id" "id" MTrue] 0 emptyParams;
      mkNode [mm1; mm2] ∅ [] 0 emptyParams ]
    [ mkHandlerSet h1 [Str "id"] 1 None; mkHandlerSet h2 [Str "id"] 2 None ]
    [].

(** [/files/*] registered, then [/files]. *)
Definition files {T} (mm1 mm2 : gmap string nat) (h1 h2 : T) : State T :=
  mkState
    [ mkNode [] {[ "files" := 1 ]} [] 2 emptyParams;
      mkNode [mm2] {[ "*" := 2 ]} [PWild] 0 emptyParams;
      mkNode [mm1] ∅ [] 0 emptyParams ]
    [ mkHandlerSet h1 [undefined] 1 None; mkHandlerSet h2 [] 2 None ]
    [].

(** [/files] registered, then [/files/*]. *)
Definition files' {T} (mm1 mm2 : gmap string nat) (h1 h2 : T) : State T :=
  mkState
    [ mkNode [] {[ "files" := 1 ]} [] 2 emptyParams;
      mkNode [mm1] {[ "*" := 2 ]} [PWild] 0 emptyParams;
      mkNode [mm2] ∅ [] 0 emptyParams ]
    [ mkHandlerSet h1 [] 1 None; mkHandlerSet h2 [undefined] 2 None ]
    [].



(** [/:x/b] registered: the store before a search, and the store after
    the search of [/v/b]. *)
Definition param {T} (mm : gmap string nat) (h : T) : State T :=
  mkState
    [ mkNode [] {[ ":x" := 1 ]} [PParam ":x" "x" MTrue] 1 emptyParams;
      mkNode [] {[ "b" := 2 ]} [] 0 emptyParams;
      mkNode [mm] ∅ [] 0 emptyParams ]
    [ mkHandlerSet h [Str "x"] 1 None ]
    [].

Definition param' {T} (mm : gmap string nat) (h : T) : State T :=
  mkState
    [ mkNode [] {[ ":x" := 1 ]} [PParam ":x" "x" MTrue] 1 emptyParams;
      mkNode [] {[ "b" := 2 ]} [] 0 (pobj 0);
      mkNode [mm] ∅ [] 0 (pobj 0) ]
    [ mkHandlerSet h [Str "x"] 1 (Some 1) ]
    [ {[ "x" := Str "v" ]}; {[ "x" := Str "v" ]} ].

(** [/:x] registered: the store before a search, and the store after
    the search of [/:x]. *)
Definition colon {T} (mm : gmap string nat) (h : T) : State T :=
  mkState
    [ mkNode [] {[ ":x" := 1 ]} [PParam ":x" "x" MTrue] 1 emptyParams;
      mkNode [mm] ∅ [] 0 emptyParams ]
    [ mkHandlerSet h [Str "x"] 1 None ]
    [].

Definition colon' {T} (mm : gmap string nat) (h : T) : State T :=
  mkState
    [ mkNode [] {[ ":x" := 1 ]} [PParam ":x" "x" MTrue] 1 emptyParams;
      mkNode [mm] ∅ [] 0 emptyParams ]
    [ mkHandlerSet h [Str "x"] 1 (Some 2) ]
    [ ∅; {[ "x" := Str ":x" ]}; {[ "x" := Str ":x" ]} ].

End Scenario.

(** ** A reference regex engine

    An engine for a fragment of the regex syntax (characters, escapes,
    [.], classes with ranges, and the quantifiers [*], [+], [?]), where
    a constraint has to match the whole text.  It instantiates
    [RegExpEngine] where a concrete engine is wanted. *)

Module MiniRegExp.

Inductive atom : Type :=
  | AChar (c : ascii)
  | AAny
  | AClass (ranges : list (ascii * ascii)).

Inductive token : Type :=
  | TAtom (a : atom)
  | TStar
  | TPlus
  | TOpt.

Inductive quant : Type := One | Opt | Star | Plus.

(** The tokens of a source; [cls] holds the ranges read so far while
    inside a class. *)
Fixpoint tokens (s : string) (cls : option (list (ascii * ascii)))
    : option (list token) :=
  match s, cls with
  | EmptyString, None => Some []
  | EmptyString, Some _ => None
  | String c rest, Some acc =>
      if Ascii.eqb c "]" then cons (TAtom (AClass acc)) <$> tokens rest None
      else if Ascii.eqb c "\" then
        match rest with
        | String d rest' => tokens rest' (Some (acc ++ [(d, d)]))
        | EmptyString => None
        end
      else
        match rest with
        | String "-" (String hi rest') =>
            if Ascii.eqb hi "]" then tokens rest (Some (acc ++ [(c, c)]))
            else tokens rest' (Some (acc ++ [(c, hi)]))
        | _ => tokens rest (Some (acc ++ [(c, c)]))
        end
  | String c rest, None =>
      if Ascii.eqb c "[" then tokens rest (Some [])
      else if Ascii.eqb c "\" then
        match rest with
        | String d rest' => cons (TAtom (AChar d)) <$> tokens rest' None
        | EmptyString => None
        end
      else if Ascii.eqb c "." then cons (TAtom AAny) <$> tokens rest None
      else if Ascii.eqb c "*" then cons TStar <$> tokens rest None
      else if Ascii.eqb c "+" then cons TPlus <$> tokens rest None
      else if Ascii.eqb c "?" then cons TOpt <$> tokens rest None
      else cons (TAtom (AChar c)) <$> tokens rest None
  end.

(** Atoms with the quantifier that follows them. *)
Fixpoint items (ts : list token) : option (list (atom * quant)) :=
  match ts with
  | [] => Some []
  | TAtom a :: TStar :: ts' => cons (a, Star) <$> items ts'
  | TAtom a :: TPlus :: ts' => cons (a, Plus) <$> items ts'
  | TAtom a :: TOpt :: ts' => cons (a, Opt) <$> items ts'
  | TAtom a :: ts' => cons (a, One) <$> items ts'
  | _ => None
  end.

Definition accepts (a : atom) (c : ascii) : bool :=
  match a with
  | AChar d => Ascii.eqb c d
  | AAny => true
  | AClass ranges =>
      existsb (λ r : ascii * ascii,
                 (nat_of_ascii r.1 <=? nat_of_ascii c)
                 && (nat_of_ascii c <=? nat_of_ascii r.2)) ranges
  end.

(** Does the sequence of items match the whole of [s]? *)
Fixpoint matches (its : list (atom * quant)) (s : string) : bool :=
  match its with
  | [] => String.eqb s ""
  | (a, q) :: its' =>
      let star :=
        fix star (s : string) : bool :=
          matches its' s
          || match s with
             | String c s' => accepts a c && star s'
             | EmptyString => false
             end in
      match q with
      | One =>
          match s with
          | String c s' => accepts a c && matches its' s'
          | EmptyString => false
          end
      | Opt =>
          matches its' s
          || match s with
             | String c s' => accepts a c && matches its' s'
             | EmptyString => false
             end
      | Star => star s
      | Plus =>
          match s with
          | String c s' => accepts a c && star s'
          | EmptyString => false
          end
      end
  end.

(** The constructor: it refuses a source outside the fragment. *)
Definition compile (source : string) : option (string → bool) :=
  matches <$> (tokens source None ≫= items).

Definition test (source s : string) : bool :=
  match tokens source None ≫= items with
  | Some its => matches its s
  | None => false
  end.

Definition engine : RegExpEngine := compile.

End MiniRegExp.

(** ** What a search leaves unchanged *)

Section Preserved.
Context {T : Type}.

(** Two node objects that differ at most in their [#params] field. *)
Definition sameNode (n n' : Node) : Prop :=
  methods n' = methods n ∧ children n' = children n ∧
  patterns n' = patterns n ∧ order n' = order n.

(** Two handler sets that differ at most in their [params] property. *)
Definition sameHS (h h' : HandlerSet T) : Prop :=
  handler h' = handler h ∧ possibleKeys h' = possibleKeys h ∧
  score h' = score h.

Definition sameStruct (σ σ' : State T) : Prop :=
  Forall2 sameNode (nodes σ) (nodes σ') ∧ Forall2 sameHS (hsets σ) (hsets σ').

(** [m] changes no node or handler set beyond these fields, and writes
    no parameter object below address [L]; [Q] holds of its result. *)
Definition keeps (L : nat) {A} (m : M (T:=T) A) (Q : A → Prop) : Prop :=
  ∀ σ a σ', L ≤ length (pobjs σ) → m σ = Some (a, σ') →
    Q a ∧ sameStruct σ σ' ∧ take L (pobjs σ') = take L (pobjs σ).

Definition any {A} : A → Prop := λ _, True.

(** A reference that [deref] can follow. *)
Definition validRef (σ : State T) (r : pref) : Prop :=
  match r with
  | emptyParams => True
  | pobj a => a < length (pobjs σ)
  end.

(** The record at [a] has a [params] property that refers to an object
    at address [L] or above. *)
Definition freshParams (L : nat) (σ : State T) (a : nat) : Prop :=
  ∃ h o, hsets σ !! a = Some h ∧ hs_params h = Some o ∧ L ≤ o.

End Preserved.

(** ** Resolution of parameter names *)

(** The resolution that the specification describes: every key is looked
    up in the map [branch] first, and in the map [node] only when
    [branch] has no binding for it. *)
Definition branchFirst (keys : list JsVal) (branch : option Params)
    (node : Params) : Params :=
  foldl (λ acc key,
           <[toKey key := nullish (optProp branch (toKey key))
                                  (prop node (toKey key))]> acc)
        ∅ keys.

(** The value that [#getHandlerSets] gives to a key: for the first key of
    the record, a non-empty binding of [params] has precedence; for every
    other key, [nodeParams] is consulted first. *)
Definition resolved (first : bool) (nodeParams : Params)
    (params : option Params) (k : string) : JsVal :=
  if truthy (optProp params k) && first then optProp params k
  else nullish (prop nodeParams k) (optProp params k).

(** ** The AWS Lambda adapter ([handle] and [streamHandle])

    The adapter is asynchronous code whose only effects of interest are
    the failures it lets through and what it writes to the response
    stream.  A computation that may throw, or a promise that may reject,
    is a value of [result]; the response stream is threaded as a value.
    The data translators [createRequest] and [createResult] of the event
    processors build plain data; they enter as the two methods of
    [EventProcessor], which may throw (the [Request] constructor, the
    readers of the response body). *)

Module Lambda.

Inductive result (Exn A : Type) : Type :=
  | Ok (a : A)
  | Throw (e : Exn).
Global Arguments Ok {Exn A} a.
Global Arguments Throw {Exn A} e.

(** A body stream read to its end: chunks, then the end of the stream or
    a failed read. *)
Inductive ReadStream (Exn : Type) : Type :=
  | Done
  | Chunk (value : string) (rest : ReadStream Exn)
  | Fail (e : Exn).
Global Arguments Done {Exn}.
Global Arguments Chunk {Exn} value rest.
Global Arguments Fail {Exn} e.

(** [Object.fromEntries(entries)]: an object with one property per name,
    which holds the value of the last entry under the name. *)
Definition fromEntries (entries : list (string * string)) : gmap string string :=
  foldl (λ o kv, <[kv.1 := kv.2]> o) ∅ entries.

(** [NodeJS.WritableStream], with the metadata that
    [awslambda.HttpResponseStream.from] attaches: the status code and
    the object of the headers. *)
Record Writable : Type := mkWritable {
  metadata : option (nat * gmap string string);
  written : list string;
  ended : bool;
}.

Definition write (s : Writable) (chunk : string) : Writable :=
  mkWritable (metadata s) (written s ++ [chunk]) (ended s).

Definition end_ (s : Writable) : Writable :=
  mkWritable (metadata s) (written s) true.

Definition HttpResponseStream_from (s : Writable)
    (httpResponseMetadata : nat * gmap string string) : Writable :=
  mkWritable (Some httpResponseMetadata) (written s) (ended s).

Section Adapter.
Context {Exn LambdaEvent LambdaContext RequestContext : Type}.
Context {Request APIGatewayProxyResult : Type}.

(** A [Response]: [headers] are the pairs that [res.headers.entries()]
    yields; [immutable] tells that the guard of [res.headers] is
    immutable, as it is for a response that [fetch] returned, so that
    [delete], [set] and [append] on it throw a [TypeError]. *)
Record Response : Type := mkResponse {
  status : nat;
  headers : list (string * string);
  immutable : bool;
  body : option (ReadStream Exn);
}.

(** The bindings passed to [app.fetch]. *)
Record Bindings : Type := mkBindings {
  event : LambdaEvent;
  requestContext : RequestContext;
  context : option LambdaContext;
}.

(** [app.fetch], awaited. *)
Definition Hono : Type := Request → Bindings → result Exn Response.

Record EventProcessor : Type := mkEventProcessor {
  createRequest : LambdaEvent → result Exn Request;
  createResult : LambdaEvent → Response → result Exn APIGatewayProxyResult;
}.

Variable isProxyEventV2 : LambdaEvent → bool.
Variable getRequestContext : LambdaEvent → RequestContext.
Variables v1Processor v2Processor : EventProcessor.

Definition getProcessor (event : LambdaEvent) : EventProcessor :=
  if isProxyEventV2 event then v2Processor else v1Processor.

(** [streamToNodeStream]: the outcome and the writer after it. *)
Fixpoint streamToNodeStream (reader : ReadStream Exn) (writer : Writable)
    : result Exn unit * Writable :=
  match reader with
  | Done => (Ok tt, end_ writer)
  | Chunk value rest => streamToNodeStream rest (write writer value)
  | Fail e => (Throw e, writer)
  end.

(** The [try] block of [streamHandle] (lines 117-139). *)
Definition streamHandleTry (app : Hono) (event : LambdaEvent)
    (responseStream : Writable) (context : LambdaContext)
    : result Exn unit * Writable :=
  match createRequest (getProcessor event) event with
  | Throw e => (Throw e, responseStream)
  | Ok req =>
      let requestContext := getRequestContext event in
      match app req (mkBindings event requestContext (Some context)) with
      | Throw e => (Throw e, responseStream)
      | Ok res =>
          let httpResponseMetadata := (status res, fromEntries (headers res)) in
          let responseStream :=
            HttpResponseStream_from responseStream httpResponseMetadata in
          match body res with
          | Some reader => streamToNodeStream reader responseStream
          | None => (Ok tt, write responseStream "")
          end
      end
  end.

(** [streamHandle]: [try], [catch] and [finally]. *)
Definition streamHandle (app : Hono) (event : LambdaEvent)
    (responseStream : Writable) (context : LambdaContext)
    : result Exn unit * Writable :=
  let '(outcome, responseStream) :=
    streamHandleTry app event responseStream context in
  let responseStream :=
    match outcome with
    | Ok _ => responseStream
    | Throw _ => write responseStream "Internal Server Error"
    end in
  (Ok tt, end_ responseStream).

(** [handle] *)
Definition handle (app : Hono) (event : LambdaEvent)
    (lambdaContext : option LambdaContext)
    : result Exn APIGatewayProxyResult :=
  let processor := getProcessor event in
  match createRequest processor event with
  | Throw e => Throw e
  | Ok req =>
      let requestContext := getRequestContext event in
      match app req (mkBindings event requestContext lambdaContext) with
      | Throw e => Throw e
      | Ok res => createResult processor event res
      end
  end.

End Adapter.

End Lambda.

(** ** Routes that match a path *)

Section Matching.
Context {T : Type} {E : RegExpEngine}.

(** Past the last part of the path, a route ends at the node reached or
    at its wildcard child. *)
Definition atEnd (rs : list string) : bool :=
  bool_decide (rs = []) || bool_decide (rs = ["*"]).

(** [matchFrom rs parts]: the segments [rs] of a route match the parts
    [parts] of a path, as [search] matches them (the specification words
    it otherwise, see [specMatchFrom]).  A literal segment matches the
    identical part; [*]
    matches any part, and a route that ends in [*] matches whatever
    follows; a constrained parameter whose regex accepts the joined rest
    of the path ends the route there; otherwise a parameter matches one
    non-empty part that its constraint accepts; and a route [prefix/*]
    also matches a path that ends at [prefix]. *)
Fixpoint matchFrom (rs parts : list string) {struct parts} : bool :=
  match parts, rs with
  | part :: parts', r :: rs' =>
      let next :=
        if bool_decide (parts' = []) then atEnd rs' else matchFrom rs' parts' in
      (String.eqb r part && next)
      || match labelPattern r with
         | Some PWild => bool_decide (rs' = []) || matchFrom rs' parts'
         | Some (PParam _ _ matcher) =>
             negb (String.eqb part "")
             && (if restMatch matcher (join parts) then bool_decide (rs' = [])
                 else partMatch matcher part && next)
         | None => false
         end
  | _, _ => false
  end.

(** A registration matches a request when its method is the requested
    one or the ALL-methods sentinel and its route matches the path. *)
Definition routeMatches (r : Route T) (method path : string) : bool :=
  (bool_decide (r.1.1 = method) || bool_decide (r.1.1 = METHOD_NAME_ALL))
  && matchFrom (splitRoutingPath r.1.2) (splitPath path).

(** ** The stores that registrations build *)

(** [kp] gives every node the keys on the way from the root to it; the
    handler set at address [x] belongs to the [x]-th registration. *)
Record Inv (routes : list (Route T)) (kp : list (list string))
    (σ : State T) : Prop := mkInv {
  inv_len : length kp = length (nodes σ);
  inv_root : kp !! root = Some [];
  inv_child : ∀ a n k c,
    nodes σ !! a = Some n → children n !! k = Some c →
    ∃ ka, kp !! a = Some ka ∧ kp !! c = Some (ka ++ [k]);
  inv_pattern : ∀ a n key name matcher,
    nodes σ !! a = Some n → PParam key name matcher ∈ patterns n →
    labelPattern key = Some (PParam key name matcher) ∧ is_Some (children n !! key);
  inv_method : ∀ a n mm k x,
    nodes σ !! a = Some n → mm ∈ methods n → mm !! k = Some x →
    ∃ path h, routes !! x = Some (k, path, h)
              ∧ kp !! a = Some (splitRoutingPath path);
  inv_hsets : ∀ x m path h,
    routes !! x = Some (m, path, h) →
    ∃ hs, hsets σ !! x = Some hs ∧ handler hs = h;
  inv_hsets_len : length (hsets σ) = length routes;
}.

(** Every node refers to a parameter object of the store. *)
Definition paramsValid (σ : State T) : Prop :=
  ∀ a n, nodes σ !! a = Some n → validRef σ (params n).

(** [m] returns from [σ], with a result and a store that satisfy [Q]. *)
Definition wp {A} (m : M (T:=T) A) (σ : State T) (Q : A → State T → Prop) : Prop :=
  match m σ with
  | Some (a, σ') => Q a σ'
  | None => False
  end.

End Matching.

(** ** Matching as the specification words it

    Sections 3 and 4.2 of the specification, to compare with
    [matchFrom]: a wildcard takes exactly one segment, which is not
    empty; an empty segment is skipped by every dynamic pattern and is
    matched by a literal only; handler records are collected at the
    nodes reached with the last segment of the path, and at the wildcard
    child of a literal that took the last segment; a constraint whose
    source contains the path separator is tested against the joined rest
    of the path and ends the route there, and any other constraint is
    tested against the current segment only. *)




Section SpecMatching.
Context {T : Type} {E : RegExpEngine}.



End SpecMatching.

Section Found.
Context {T : Type} {E : RegExpEngine}.
Variables (routes : list (Route T)) (kp : list (list string)) (method : string).

(** The handler set [x] is registered at node [a] for the method. *)
Definition servedAt (a x : nat) : Prop :=
  ∃ m path h,
    routes !! x = Some (m, path, h) ∧ (m = method ∨ m = METHOD_NAME_ALL)
    ∧ kp !! a = Some (splitRoutingPath path).

(** The handler set [x] belongs to a route for the method that passes
    through the keys [ka] and whose remaining segments match [parts]. *)
Definition foundFrom (ka parts : list string) (x : nat) : Prop :=
  ∃ m path h rs,
    routes !! x = Some (m, path, h) ∧ (m = method ∨ m = METHOD_NAME_ALL)
    ∧ splitRoutingPath path = ka ++ rs ∧ matchFrom rs parts = true.

(** The node [t] is a child of the node with keys [ka], under a key that
    matches [part] when more parts follow. *)
Definition advFrom (ka : list string) (part : string) (parts' : list string)
    (t : nat) : Prop :=
  ∃ r, kp !! t = Some (ka ++ [r])
       ∧ ∀ rs, matchFrom rs parts' = true
               → matchFrom (r :: rs) (part :: parts') = true.

End Found.

Section Serve.
Context {T : Type} {E : RegExpEngine}.

(** The store after serving the requests [reqs] in order. *)
Fixpoint serve (reqs : list (string * string)) (σ : State T) : option (State T) :=
  match reqs with
  | [] => Some σ
  | (method, path) :: reqs' =>
      match search root method path σ with
      | Some (_, σ') => serve reqs' σ'
      | None => None
      end
  end.

End Serve.

Section Good.
Context {T : Type} {E : RegExpEngine}.
Implicit Types σ : State T.

(** The stores of a search that started from [σ0]. *)
Definition good (σ0 σ : State T) : Prop := sameStruct σ0 σ ∧ paramsValid σ.

Definition le (σ σ' : State T) : Prop := length (pobjs σ) ≤ length (pobjs σ').

Definition validOpt (σ : State T) (r : option pref) : Prop :=
  match r with
  | Some r => validRef σ r
  | None => True
  end.

End Good.

Section SearchPost.
Context {T : Type} {E : RegExpEngine}.
Variables (routes : list (Route T)) (kp : list (list string)) (σ0 : State T).
Variable method : string.

(** The postcondition of the steps of a search from a node with keys
    [ka]. *)
Definition stepPost (ka : list string) (part : string) (parts' : list string)
    (σ : State T) : list nat * list nat → State T → Prop :=
  λ r σ', good σ0 σ' ∧ le σ σ'
          ∧ (∀ x, x ∈ r.1 → foundFrom routes method ka (part :: parts') x)
          ∧ (∀ t, t ∈ r.2 → advFrom kp ka part parts' t).

(** The handler set [x] belongs to a registration that matches the
    request. *)
Definition matched (parts : list string) (x : nat) : Prop :=
  ∃ m path h,
    routes !! x = Some (m, path, h) ∧ (m = method ∨ m = METHOD_NAME_ALL)
    ∧ matchFrom (splitRoutingPath path) parts = true.

End SearchPost.

Section WithChild.
Context {T : Type}.

(** The store after a new child was created under the key [p]. *)
Definition withChild (σ : State T) (curNode : nat) (n : Node) (p : string)
    : State T :=
  mkState
    (<[curNode := mkNode (methods n) (<[p := length (nodes σ)]> (children n))
                         (patterns n ++ option_list (labelPattern p))
                         (order n) (params n)]>
       (nodes σ ++ [newNode]))
    (hsets σ) (pobjs σ).

End WithChild.

(** ** Paths that registrations leave in the trie *)

Section WalkDef.
Context {T : Type}.

(** Following the keys [parts] from the node [cur] along the children
    that exist. *)
Fixpoint walk (σ : State T) (cur : nat) (parts : list string) : option nat :=
  match parts with
  | [] => Some cur
  | p :: parts' =>
      n ← nodes σ !! cur;
      c ← children n !! p;
      walk σ c parts'
  end.

(** The names that [insert] collects along the segments [parts]. *)
Fixpoint keysOf (parts : list string) : list JsVal :=
  match parts with
  | [] => []
  | p :: parts' =>
      match labelPattern p with
      | Some pattern => pattern_1 pattern :: keysOf parts'
      | None => keysOf parts'
      end
  end.

(** Every node of [σ] is a node of [σ'] with at least the same child
    edges. *)
Definition edgesLe (σ σ' : State T) : Prop :=
  ∀ a n, nodes σ !! a = Some n →
         ∃ n', nodes σ' !! a = Some n'
               ∧ ∀ k c, children n !! k = Some c → children n' !! k = Some c.

(** Every node of [σ] is a node of [σ'] with the same order counter and
    at least the same child edges. *)
Definition grows (σ σ' : State T) : Prop :=
  ∀ a n, nodes σ !! a = Some n →
         ∃ n', nodes σ' !! a = Some n' ∧ order n' = order n
               ∧ ∀ k c, children n !! k = Some c → children n' !! k = Some c.

End WalkDef.

(** ** What a search finds below a node *)

Section Reach.
Context {T : Type} {E : RegExpEngine}.
Variable σ0 : State T.
Variable method : string.

(** A search that asks for [method] at the node [a] collects the
    handler set [x]. *)
Definition collects (a x : nat) : Prop :=
  ∃ n mm, nodes σ0 !! a = Some n ∧ mm ∈ methods n
          ∧ methodEntry mm method = Some x.

(** The node [c] is the child of the node [a] under the key [k]. *)
Definition childOf (a : nat) (k : string) (c : nat) : Prop :=
  ∃ n, nodes σ0 !! a = Some n ∧ children n !! k = Some c.

(** The handler set [x] is collected at the end of the keys [rs] below
    the node [a]. *)
Definition hangs (a : nat) (rs : list string) (x : nat) : Prop :=
  ∃ leaf, walk σ0 a rs = Some leaf ∧ collects leaf x.

(** Every key of a child that is a pattern is in the pattern list of the
    node. *)
Definition patternsComplete : Prop :=
  ∀ a n k c p, nodes σ0 !! a = Some n → children n !! k = Some c →
               labelPattern k = Some p → p ∈ patterns n.

(** [m], run from a store with the nodes and handler sets of [σ0] (up to
    the parameter references), leaves such a store, and [Q] holds of its
    result. *)
Definition yields {A} (m : M (T:=T) A) (Q : A → Prop) : Prop :=
  ∀ σ a σ', sameStruct σ0 σ → m σ = Some (a, σ') → Q a ∧ sameStruct σ0 σ'.

(** A node object read at the address [a]. *)
Definition nodeAt (a : nat) (n : Node) : Prop :=
  ∃ n0, nodes σ0 !! a = Some n0 ∧ sameNode n0 n.

(** What one frontier node contributes for the child [c], whose key
    matched the current part: at the last part the handler sets of [c]
    and of its wildcard child, before it the node [c] for the frontier. *)
Definition advances (isLast : bool) (c : nat) (r : list nat * list nat) : Prop :=
  if isLast
  then ∀ x, (collects c x → x ∈ r.1)
            ∧ (∀ ast, childOf c "*" ast → collects ast x → x ∈ r.1)
  else c ∈ r.2.

(** The contribution of the literal child. *)
Definition literalPost (node : nat) (part : string) (isLast : bool)
    (r : list nat * list nat) : Prop :=
  ∀ c, childOf node part c → advances isLast c r.

(** The contribution of one pattern. *)
Definition patternPost (node : nat) (part restPathString : string)
    (isLast : bool) (pattern : Pattern) (r : list nat * list nat) : Prop :=
  match pattern with
  | PWild =>
      ∀ c, childOf node "*" c → (∀ x, collects c x → x ∈ r.1) ∧ c ∈ r.2
  | PParam key name matcher =>
      part ≠ "" →
      ∀ c, childOf node key c →
           if restMatch matcher restPathString
           then ∀ x, collects c x → x ∈ r.1
           else if partMatch matcher part then advances isLast c r else True
  end.

(** The contribution of a frontier node: a handler set below the child
    under [r] is collected, or the child joins the frontier and the rest
    of the route is still to match. *)
Definition nodePost (node : nat) (part : string) (parts' : list string)
    (r : list nat * list nat) : Prop :=
  ∀ k rs c x, childOf node k c → hangs c rs x →
              matchFrom (k :: rs) (part :: parts') = true →
              x ∈ r.1 ∨ (c ∈ r.2 ∧ matchFrom rs parts' = true).

End Reach.

(** ** The steps of a registration *)

Section Growth.
Context {T : Type} {E : RegExpEngine}.

(** The creation of a child under a key that the node does not have. *)
Inductive childStep : State T → State T → Prop :=
  | childStep_new σ curNode n p :
      nodes σ !! curNode = Some n → children n !! p = None →
      childStep σ (withChild σ curNode n p).

(** The store after [this.#order = ++this.#order]. *)
Definition bumped (σ : State T) (this : nat) (n : Node) : State T :=
  mkState
    (<[this := mkNode (methods n) (children n) (patterns n) (S (order n))
                      (params n)]> (nodes σ))
    (hsets σ) (pobjs σ).

(** The store after the handler set [hs] was created and a method map
    for it pushed to the node [leaf]. *)
Definition registered (σ : State T) (leaf : nat) (c : Node) (method : string)
    (hs : HandlerSet T) : State T :=
  mkState
    (<[leaf := mkNode (methods c ++ [ {[ method := length (hsets σ) ]} ])
                      (children c) (patterns c) (order c) (params c)]>
       (nodes σ))
    (hsets σ ++ [hs]) (pobjs σ).

(** A node object that kept what it had: child edges, patterns and
    method maps are only added, the counter only grows. *)
Definition nodeGrows (n n' : Node) : Prop :=
  children n ⊆ children n' ∧ patterns n `prefix_of` patterns n'
  ∧ methods n `prefix_of` methods n' ∧ order n ≤ order n'
  ∧ params n' = params n.

(** A store that kept what it had. *)
Definition extends (σ σ' : State T) : Prop :=
  (∀ a n, nodes σ !! a = Some n → ∃ n', nodes σ' !! a = Some n' ∧ nodeGrows n n')
  ∧ hsets σ `prefix_of` hsets σ' ∧ pobjs σ' = pobjs σ.

(** The stores that registrations on the root build: every registration
    is found at the end of its segments, under a method map of its own;
    every pattern key has its pattern; the scores count the
    registrations; a handler set has the names of the patterns of its
    route, and no [params] property yet. *)
Record Built (routes : list (Route T)) (σ : State T) : Prop := mkBuilt {
  built_route : ∀ x m path h,
    routes !! x = Some (m, path, h) →
    ∃ leaf n, walk σ root (splitRoutingPath path) = Some leaf
              ∧ nodes σ !! leaf = Some n ∧ {[ m := x ]} ∈ methods n;
  built_patterns : patternsComplete σ;
  built_score : ∀ x hs, hsets σ !! x = Some hs → score hs = S x;
  built_order : ∃ n, nodes σ !! root = Some n ∧ order n = length (hsets σ);
  built_len : length (hsets σ) = length routes;
  built_keys : ∀ x m path h hs,
    routes !! x = Some (m, path, h) → hsets σ !! x = Some hs →
    possibleKeys hs = firstOccurrences (keysOf (splitRoutingPath path));
  built_noparams : ∀ x hs, hsets σ !! x = Some hs → hs_params hs = None;
}.

End Growth.

(** ** The order and the handlers of a result *)

Section ResultDef.
Context {T : Type}.

(** The handler set pairs in the order of their scores. *)
Definition byScore (x y : nat * HandlerSet T) : Prop := score x.2 ≤ score y.2.

(** The pair [hr] of a result carries the handler of the [x]-th
    registration. *)
Definition handlerOf (routes : list (Route T)) (x : nat) (hr : T * option nat)
    : Prop :=
  ∃ m p, routes !! x = Some (m, p, hr.1).

(** [m] writes no field of any node. *)
Definition nodesKept {A} (m : M (T:=T) A) : Prop :=
  ∀ σ a σ', m σ = Some (a, σ') → nodes σ' = nodes σ.

End ResultDef.

(** ** The parameter objects of the handler sets *)

Section ParamsDef.
Context {T : Type}.

(** The property names that the resolution of a record writes. *)
Definition keyNames (h : HandlerSet T) : list string := toKey <$> possibleKeys h.

(** The parameter objects of the handler sets: every [params] property
    refers to an object of the store that binds names of its record
    only; the records of [S] have the property; and no record refers to
    the object [fresh], which a search is still filling. *)
Definition paramsOk (S : list nat) (fresh : option nat) (σ : State T) : Prop :=
  (∀ a h o, hsets σ !! a = Some h → hs_params h = Some o →
            Some o ≠ fresh
            ∧ ∃ obj, pobjs σ !! o = Some obj
                     ∧ ∀ k, is_Some (obj !! k) → k ∈ keyNames h)
  ∧ (∀ a, a ∈ S → ∃ h o, hsets σ !! a = Some h ∧ hs_params h = Some o)
  ∧ (∀ p, fresh = Some p → p < length (pobjs σ)).

(** The records of [S] have a [params] property that refers to an object
    of the store at address [L] or above. *)
Definition created (L : nat) (S : list nat) (σ : State T) : Prop :=
  L ≤ length (pobjs σ)
  ∧ ∀ a, a ∈ S → ∃ h o, hsets σ !! a = Some h ∧ hs_params h = Some o
                        ∧ L ≤ o < length (pobjs σ).

(** [m] writes no handler set and removes no parameter object. *)
Definition quiet {A} (m : M (T:=T) A) : Prop :=
  ∀ σ a σ', m σ = Some (a, σ') →
            hsets σ' = hsets σ ∧ length (pobjs σ) ≤ length (pobjs σ').

(** [m], run from a store that satisfies [P], leaves its result and a
    store that satisfy [Q]. *)
Definition hoare {A} (P : State T → Prop) (m : M (T:=T) A)
    (Q : A → State T → Prop) : Prop :=
  ∀ σ a σ', P σ → m σ = Some (a, σ') → Q a σ'.

(** The pair [hp] of a viewed result carries the handler of the [x]-th
    registration and binds only names that the patterns of its route
    declare. *)
Definition bindsDeclared (routes : list (Route T)) (x : nat) (hp : T * Params)
    : Prop :=
  ∃ m p, routes !! x = Some (m, p, hp.1)
         ∧ ∀ k, is_Some (hp.2 !! k) → k ∈ toKey <$> keysOf (splitRoutingPath p).

End ParamsDef.

(** ** Results that no earlier search changes *)

Section FixedDef.
Context {T : Type}.
Variable σ0 : State T.

(** Every run of [m] from a store with the nodes and handler sets of
    [σ0] returns [v]. *)
Definition always {A} (m : M (T:=T) A) (v : A) : Prop :=
  yields σ0 m (λ a, a = v).

End FixedDef.

(** ** The regular expressions of the adapter

    The two literals of the adapter use characters, [.], alternation,
    concatenation and [*] only.  [/^(r)$/.test(s)] holds when the whole
    of [s] is a word of [r], and [/^(r)/.test(s)] when a prefix of [s]
    is one.  A string is a sequence of code units below 256 (the values
    of HTTP headers are such), among which the line terminators, which
    [.] refuses, are the line feed and the carriage return. *)

Module Regex.

Inductive re : Type :=
  | Void
  | Eps
  | Chr (c : ascii)
  | Dot
  | Cat (r s : re)
  | Alt (r s : re)
  | Star (r : re).

Definition isLineTerminator (c : ascii) : bool :=
  Ascii.eqb c "010" || Ascii.eqb c "013".

(** The word [s], character by character. *)
Fixpoint lit (s : string) : re :=
  match s with
  | EmptyString => Eps
  | String c s' => Cat (Chr c) (lit s')
  end.

(** [(a|b|...)] *)
Fixpoint alts (l : list re) : re :=
  match l with
  | [] => Void
  | [r] => r
  | r :: l' => Alt r (alts l')
  end.

Fixpoint nullable (r : re) : bool :=
  match r with
  | Void => false
  | Eps => true
  | Chr _ => false
  | Dot => false
  | Cat r s => nullable r && nullable s
  | Alt r s => nullable r || nullable s
  | Star _ => true
  end.

(** The words of [r] that start with [c], without it. *)
Fixpoint deriv (c : ascii) (r : re) : re :=
  match r with
  | Void => Void
  | Eps => Void
  | Chr d => if Ascii.eqb c d then Eps else Void
  | Dot => if isLineTerminator c then Void else Eps
  | Cat r s =>
      if nullable r then Alt (Cat (deriv c r) s) (deriv c s)
      else Cat (deriv c r) s
  | Alt r s => Alt (deriv c r) (deriv c s)
  | Star r => Cat (deriv c r) (Star r)
  end.

(** [/^(r)$/.test(s)] *)
Fixpoint testWhole (r : re) (s : string) : bool :=
  match s with
  | EmptyString => nullable r
  | String c s' => testWhole (deriv c r) s'
  end.

(** [/^(r)/.test(s)] *)
Fixpoint testPrefix (r : re) (s : string) : bool :=
  nullable r
  || match s with
     | EmptyString => false
     | String c s' => testPrefix (deriv c r) s'
     end.

(** The words of an expression. *)
Inductive lang : re → string → Prop :=
  | lang_eps : lang Eps ""
  | lang_chr c : lang (Chr c) (String c "")
  | lang_dot c : isLineTerminator c = false → lang Dot (String c "")
  | lang_cat r s u v : lang r u → lang s v → lang (Cat r s) (u +:+ v)
  | lang_alt_l r s u : lang r u → lang (Alt r s) u
  | lang_alt_r r s u : lang s u → lang (Alt r s) u
  | lang_star_nil r : lang (Star r) ""
  | lang_star_cons r u v : lang r u → lang (Star r) v → lang (Star r) (u +:+ v).

(** A text without a line terminator. *)
Fixpoint oneLine (s : string) : bool :=
  match s with
  | EmptyString => true
  | String c s' => negb (isLineTerminator c) && oneLine s'
  end.

End Regex.


(** ** The results of the adapter *)

Module ProxyResult.

(** [APIGatewayProxyResult]; [headers] is an object that starts as [{}]
    and is used as a map. *)
Record APIGatewayProxyResult : Type := mkResult {
  statusCode : nat;
  body : string;
  headers : gmap string string;
  cookies : option (list string);
  multiValueHeaders : option (gmap string (list string));
  isBase64Encoded : bool;
}.

End ProxyResult.

Module Processor.
Import Lambda Regex.

(** The literal of [isContentTypeBinary] (line 334), without its
    anchors. *)
Definition textContentType : re :=
  alts
    [ Cat (lit "text/")
          (Cat (alts (lit <$> ["plain"; "html"; "css"; "javascript"; "csv"]))
               (Star Dot));
      Cat (lit "application/")
          (Cat (alts [Cat (Star Dot) (lit "json"); Cat (Star Dot) (lit "xml")])
               (Star Dot));
      Cat (lit "image/svg+xml") (Star Dot) ].

Definition isContentTypeBinary (contentType : string) : bool :=
  negb (testWhole textContentType contentType).

(** The literal of [isContentEncodingBinary] (line 343), without its
    anchor. *)
Definition compressedEncoding : re :=
  alts (lit <$> ["gzip"; "deflate"; "compress"; "br"]).

Definition isContentEncodingBinary (contentEncoding : option string) : bool :=
  match contentEncoding with
  | None => false
  | Some contentEncoding => testPrefix compressedEncoding contentEncoding
  end.

(** *** The [Headers] of a response

    A [Headers] object is held as the list of pairs that it yields to
    [entries()] and [forEach]: names in lower case, one pair per name,
    but one pair per value for [set-cookie].  The adapter asks for
    names in lower case only. *)

Definition sameName (name : string) (kv : string * string) : bool :=
  String.eqb kv.1 name.

(** [headers.get(name)]: the values under the name, joined by a comma
    and a space, or [null]. *)
Definition headersGet (hs : list (string * string)) (name : string)
    : option string :=
  match List.filter (sameName name) hs with
  | [] => None
  | kvs => Some (String.concat ", " kvs.*2)
  end.

(** [headers.has(name)] *)
Definition headersHas (hs : list (string * string)) (name : string) : bool :=
  existsb (sameName name) hs.

(** The pairs without those of a name. *)
Definition withoutName (hs : list (string * string)) (name : string)
    : list (string * string) :=
  List.filter (λ kv, negb (sameName name kv)) hs.

(** [s.split(', ')] *)
Fixpoint splitCommaSpace (s : string) : list string :=
  match s with
  | EmptyString => [""]
  | String c rest =>
      match rest with
      | String d rest' =>
          if Ascii.eqb c "," && Ascii.eqb d " " then "" :: splitCommaSpace rest'
          else consHead c (splitCommaSpace rest)
      | EmptyString => consHead c (splitCommaSpace rest)
      end
  end.

(** The values of the [set-cookie] pairs. *)
Definition cookieValues (hs : list (string * string)) : list string :=
  (List.filter (sameName "set-cookie") hs).*2.

(** The headers of a response ask for a base64 body: a content type
    that is not empty and is binary, or else a binary content
    encoding. *)
Definition binaryHeaders (hs : list (string * string)) : Prop :=
  (∃ contentType, headersGet hs "content-type" = Some contentType
                  ∧ contentType ≠ "" ∧ isContentTypeBinary contentType = true)
  ∨ isContentEncodingBinary (headersGet hs "content-encoding") = true.

(** The chunks that a body yields before it ends or fails. *)
Fixpoint chunks {Exn} (reader : ReadStream Exn) : list string :=
  match reader with
  | Done => []
  | Chunk value rest => value :: chunks rest
  | Fail _ => []
  end.

(** The failure that ends a body, if one does. *)
Fixpoint failure {Exn} (reader : ReadStream Exn) : option Exn :=
  match reader with
  | Done => None
  | Chunk _ rest => failure rest
  | Fail e => Some e
  end.

(** The body of a response, read to its end. *)
Fixpoint readAll {Exn} (reader : ReadStream Exn) : result Exn string :=
  match reader with
  | Done => Ok ""
  | Chunk value rest =>
      match readAll rest with
      | Ok s => Ok (value +:+ s)
      | Throw e => Throw e
      end
  | Fail e => Throw e
  end.

Section Processors.
Context {Exn LambdaEvent Request : Type}.
Import ProxyResult.

(** [encodeBase64] of [utils/encode], and the decoding of UTF-8 that
    [res.text()] does; both are outside the sources at hand and stay
    parameters. *)
Variable encodeBase64 : string → string.
Variable decodeText : string → string.

(** The [TypeError] that a write to immutable headers throws. *)
Variable typeError : Exn.

Abbreviation Response := (Response (Exn := Exn)).

(** [res.headers.delete(name)]: the pairs that are left; it throws when
    the guard of the headers is immutable. *)
Definition headersDelete (res : Response) (name : string)
    : result Exn (list (string * string)) :=
  if immutable res then Throw typeError
  else Ok (withoutName (Lambda.headers res) name).

(** [await res.arrayBuffer()] *)
Definition arrayBuffer (res : Response) : result Exn string :=
  match Lambda.body res with
  | Some reader => readAll reader
  | None => Ok ""
  end.

(** [await res.text()] *)
Definition text (res : Response) : result Exn string :=
  match arrayBuffer res with
  | Ok bytes => Ok (decodeText bytes)
  | Throw e => Throw e
  end.

(** [setCookiesToResult] of the two processors (lines 282-284 and
    314-318). *)
Definition setCookiesToResultV2 (result : APIGatewayProxyResult)
    (cookies : list string) : APIGatewayProxyResult :=
  mkResult (statusCode result) (body result) (headers result) (Some cookies)
           (multiValueHeaders result) (isBase64Encoded result).

Definition setCookiesToResultV1 (result : APIGatewayProxyResult)
    (cookies : list string) : APIGatewayProxyResult :=
  mkResult (statusCode result) (body result) (headers result)
           (ProxyResult.cookies result)
           (Some {[ "set-cookie" := cookies ]}) (isBase64Encoded result).

Section Base.
Variable setCookiesToResult :
  APIGatewayProxyResult → list string → APIGatewayProxyResult.

(** [setCookies] (lines 252-260): the headers of the response and the
    result after it. *)
Definition setCookies (res : Response) (result : APIGatewayProxyResult)
    : Lambda.result Exn (list (string * string) * APIGatewayProxyResult) :=
  if headersHas (Lambda.headers res) "set-cookie" then
    match headersGet (Lambda.headers res) "set-cookie" with
    | Some value =>
        let cookies := splitCommaSpace value in
        let result := setCookiesToResult result cookies in
        match headersDelete res "set-cookie" with
        | Ok resHeaders => Ok (resHeaders, result)
        | Throw e => Throw e
        end
    | None => Ok (Lambda.headers res, result)
    end
  else Ok (Lambda.headers res, result).

(** [result.headers[key] = value] *)
Definition setHeader (result : APIGatewayProxyResult) (kv : string * string)
    : APIGatewayProxyResult :=
  mkResult (statusCode result) (body result) (<[kv.1 := kv.2]> (headers result))
           (cookies result) (multiValueHeaders result) (isBase64Encoded result).

(** [createResult] (lines 226-250) *)
Definition createResult (event : LambdaEvent) (res : Response)
    : result Exn APIGatewayProxyResult :=
  let contentType := headersGet (Lambda.headers res) "content-type" in
  let isBase64Encoded :=
    match contentType with
    | Some contentType =>
        negb (String.eqb contentType "") && isContentTypeBinary contentType
    | None => false
    end in
  let isBase64Encoded :=
    if negb isBase64Encoded then
      let contentEncoding := headersGet (Lambda.headers res) "content-encoding" in
      isContentEncodingBinary contentEncoding
    else isBase64Encoded in
  match (if isBase64Encoded
         then match arrayBuffer res with
              | Ok bytes => Ok (encodeBase64 bytes)
              | Throw e => Throw e
              end
         else text res) with
  | Throw e => Throw e
  | Ok body =>
      let result := mkResult (status res) body ∅ None None isBase64Encoded in
      match setCookies res result with
      | Throw e => Throw e
      | Ok (resHeaders, result) => Ok (foldl setHeader result resHeaders)
      end
  end.

End Base.

(** The two processors; [createRequest] stays a parameter. *)
Variables createRequestV1 createRequestV2 : LambdaEvent → result Exn Request.

Definition v2Processor
    : EventProcessor (APIGatewayProxyResult := APIGatewayProxyResult) :=
  mkEventProcessor createRequestV2 (createResult setCookiesToResultV2).

Definition v1Processor
    : EventProcessor (APIGatewayProxyResult := APIGatewayProxyResult) :=
  mkEventProcessor createRequestV1 (createResult setCookiesToResultV1).

End Processors.

Section Answer.
Context {Exn LambdaEvent LambdaContext RequestContext Request : Type}.
Variable isProxyEventV2 : LambdaEvent → bool.
Variable getRequestContext : LambdaEvent → RequestContext.
Variables createRequestV1 createRequestV2 : LambdaEvent → result Exn Request.

(** The request was built and the application answered it with [res]. *)
Definition answered (app : Hono (Exn := Exn) (LambdaEvent := LambdaEvent)
                 (LambdaContext := LambdaContext)
                 (RequestContext := RequestContext) (Request := Request)) (event : LambdaEvent)
    (lambdaContext : option LambdaContext) (res : Response (Exn := Exn)) : Prop :=
  ∃ req,
    (if isProxyEventV2 event then createRequestV2 event else createRequestV1 event)
    = Ok req
    ∧ app req (mkBindings event (getRequestContext event) lambdaContext) = Ok res.

Definition setCookiesToResultOf (event : LambdaEvent) :=
  if isProxyEventV2 event then setCookiesToResultV2 else setCookiesToResultV1.

End Answer.

(** [handle] with the two processors of the module. *)
Definition handleEvent
    {Exn LambdaEvent LambdaContext RequestContext Request : Type}
    (encodeBase64 decodeText : string → string) (typeError : Exn)
    (isProxyEventV2 : LambdaEvent → bool)
    (getRequestContext : LambdaEvent → RequestContext)
    (createRequestV1 createRequestV2 : LambdaEvent → result Exn Request)
    (app : Hono (LambdaContext := LambdaContext)) (event : LambdaEvent)
    (lambdaContext : option LambdaContext)
    : result Exn ProxyResult.APIGatewayProxyResult :=
  handle isProxyEventV2 getRequestContext
    (v1Processor encodeBase64 decodeText typeError createRequestV1)
    (v2Processor encodeBase64 decodeText typeError createRequestV2)
    app event lambdaContext.

End Processor.

(** ** An application and two events

    A response with a binary content type, two cookies (one with a date)
    and a body of two chunks; the event [true] is of version 2. *)

Module Demo.
Import Lambda Processor.

Definition response : Response (Exn := string) :=
  mkResponse 200
    [ ("content-type", "image/png");
      ("set-cookie", "a=1; Expires=Wed, 21 Oct 2015");
      ("set-cookie", "b=2");
      ("x-powered-by", "hono") ]
    false
    (Some (Chunk "PN" (Chunk "G" Done))).

(** The same response with immutable headers. *)
Definition fetched : Response (Exn := string) :=
  mkResponse 200 (Lambda.headers response) true (Lambda.body response).

(** A response whose body fails after its first chunk. *)
Definition broken : Response (Exn := string) :=
  mkResponse 200 [("content-type", "text/plain")] false
    (Some (Chunk "par" (Fail "reset"))).

Definition app (res : Response (Exn := string))
    : Hono (Exn := string) (LambdaEvent := bool) (LambdaContext := unit)
           (RequestContext := unit) (Request := unit) :=
  λ _ _, Ok res.

Definition createRequest (event : bool) : result string unit := Ok tt.

Definition processor : EventProcessor (APIGatewayProxyResult := unit) :=
  mkEventProcessor createRequest (λ _ _, Ok tt).

Definition base64 (bytes : string) : string := "base64:" +:+ bytes.

Definition expected (event : bool) : ProxyResult.APIGatewayProxyResult :=
  let cookies := ["a=1; Expires=Wed"; "21 Oct 2015"; "b=2"] in
  ProxyResult.mkResult 200 "base64:PNG"
    {[ "content-type" := "image/png"; "x-powered-by" := "hono" ]}
    (if event then Some cookies else None)
    (if event then None else Some {[ "set-cookie" := cookies ]})
    true.

Definition stream : Writable := mkWritable None [] false.

End Demo.

(** * Proofs *)

(** ** Evaluating searches whose method is a variable *)

Lemma methodEntry_singleton (method : string) (a : nat) :
  methodEntry {[ method := a ]} method = Some a.
Proof. unfold methodEntry. by rewrite lookup_singleton_eq. Qed.

(** Weak-head evaluation of the left-hand side, stopping at the lookups
    in method maps and at the tests of the regex engine. *)
Ltac run_lhs_core :=
  match goal with
  | |- ?l = ?r =>
      let l' := eval lazy head beta iota zeta delta
                  -[methodEntry regexp_test regexp_new] in l in
      change (l' = r)
  end.

Ltac run_lhs := with_strategy transparent [gmap_empty] run_lhs_core.

(** C5: after inserting (GET, "/a/:x", h1) and then (GET, "/a/b", h2) into
    an empty trie, search(GET, "/a/b") returns exactly the pairs
    (h1, {x: "b"}) and (h2, {}), in this order. *)
Theorem search_param_then_literal {T} {E : RegExpEngine} (h1 h2 : T) :
  searchAfter [("GET", "/a/:x", h1); ("GET", "/a/b", h2)] "GET" "/a/b"
  = Some [(h1, {[ "x" := Str "b" ]}); (h2, ∅)].
Proof. vm_compute. reflexivity. Qed.

(** C7: with [/files/*] and [/files] both registered (in either order),
    searching [/files] returns the handler of the wildcard route together
    with the handler of the literal route: after the last segment is
    consumed by the literal child, the wildcard child of that node is
    probed and its handler sets are collected. *)
Theorem trailing_wildcard_relaxation {T} {E : RegExpEngine}
    (method : string) (hw hl : T) :
  searchAfter [(method, "/files/*", hw); (method, "/files", hl)] method "/files"
  = Some [(hw, ∅); (hl, ∅)] ∧
  searchAfter [(method, "/files", hl); (method, "/files/*", hw)] method "/files"
  = Some [(hl, ∅); (hw, ∅)] ∧
  searchAfter [(method, "/files/*", hw)] method "/files" = Some [(hw, ∅)].
Proof.
  pose proof (methodEntry_singleton method 0) as E1.
  pose proof (methodEntry_singleton method 1) as E2.
  split; [|split].
  - change (searchView (Scenario.files {[ method := 0 ]} {[ method := 1 ]} hw hl)
              method "/files" = Some [(hw, ∅); (hl, ∅)]).
    revert E1 E2.
    generalize ({[ method := 0 ]} : gmap string nat)
               ({[ method := 1 ]} : gmap string nat).
    intros mm1 mm2 E1 E2.
    run_lhs. rewrite E1. run_lhs. rewrite E2. run_lhs. reflexivity.
  - change (searchView (Scenario.files' {[ method := 0 ]} {[ method := 1 ]} hl hw)
              method "/files" = Some [(hl, ∅); (hw, ∅)]).
    revert E1 E2.
    generalize ({[ method := 0 ]} : gmap string nat)
               ({[ method := 1 ]} : gmap string nat).
    intros mm1 mm2 E1 E2.
    run_lhs. rewrite E2. run_lhs. rewrite E1. run_lhs. reflexivity.
  - unfold searchAfter.
    assert (insertAll [(method, "/files/*", hw)] emptyTrie
            = Some (mkState
                [ mkNode [] {[ "files" := 1 ]} [] 1 emptyParams;
                  mkNode [] {[ "*" := 2 ]} [PWild] 0 emptyParams;
                  mkNode [ {[ method := 0 ]} ] ∅ [] 0 emptyParams ]
                [ mkHandlerSet hw [undefined] 1 None ] [])) as -> by reflexivity.
    revert E1. generalize ({[ method := 0 ]} : gmap string nat). intros mm1 E1.
    run_lhs. rewrite E1. run_lhs. reflexivity.
Qed.



(** ** The frame of a search *)

Create HintDb keeps.

Section Frame.
Context {T : Type} {E : RegExpEngine}.

Global Instance sameNode_refl : Reflexive sameNode.
Proof. by intros n. Qed.
Global Instance sameNode_trans : Transitive sameNode.
Proof. intros a b c (?&?&?&?) (?&?&?&?). unfold sameNode. naive_solver congruence. Qed.
Global Instance sameHS_refl : Reflexive (sameHS (T:=T)).
Proof. by intros n. Qed.
Global Instance sameHS_trans : Transitive (sameHS (T:=T)).
Proof. intros a b c (?&?&?) (?&?&?). unfold sameHS. naive_solver congruence. Qed.
Global Instance sameStruct_refl : Reflexive (sameStruct (T:=T)).
Proof. intros σ. split; apply Forall2_same_length_lookup_2; eauto; intros; simplify_eq; done. Qed.
Global Instance sameStruct_trans : Transitive (sameStruct (T:=T)).
Proof. intros a b c [] []. split; etrans; eauto. Qed.

Lemma take_eq_length {A} L (l l' : list A) :
  L ≤ length l → take L l' = take L l → L ≤ length l'.
Proof.
  intros Hl Heq. apply (f_equal length) in Heq.
  rewrite !length_take in Heq. lia.
Qed.

Lemma keeps_ret L {A} (a : A) (Q : A → Prop) : Q a → keeps (T:=T) L (mret a) Q.
Proof. intros HQ σ a' σ' _ [= <- <-]. done. Qed.

Lemma keeps_throw L {A} (Q : A → Prop) : keeps (T:=T) L throw Q.
Proof. by intros σ a' σ' _ ?. Qed.

Lemma keeps_bind L {A B} (m : M A) (f : A → M B) (P : A → Prop) (Q : B → Prop) :
  keeps (T:=T) L m P → (∀ a, P a → keeps (T:=T) L (f a) Q) → keeps (T:=T) L (m ≫= f) Q.
Proof.
  intros Hm Hf σ b σ' HL Hrun. unfold mbind, M_bind in Hrun.
  destruct (m σ) as [[a σ1]|] eqn:Hm1; [|done].
  destruct (Hm _ _ _ HL Hm1) as (HP & Hs1 & Ht1).
  destruct (Hf a HP σ1 b σ') as (HQ & Hs2 & Ht2); [|done|].
  { by eapply take_eq_length. }
  split; [done|]. split; [by etrans|congruence].
Qed.

Lemma keeps_mono L {A} (m : M A) (P Q : A → Prop) :
  keeps (T:=T) L m P → (∀ a, P a → Q a) → keeps (T:=T) L m Q.
Proof. intros Hm HPQ σ a σ' HL Hrun. destruct (Hm _ _ _ HL Hrun) as (?&?&?). eauto. Qed.

Lemma keeps_getNode L a : keeps (T:=T) L (getNode a) any.
Proof. intros σ n σ' _ Hrun. unfold getNode in Hrun. destruct (nodes σ !! a); simplify_eq. done. Qed.

Lemma keeps_getHS L a : keeps (T:=T) L (getHS a) any.
Proof. intros σ n σ' _ Hrun. unfold getHS in Hrun. destruct (hsets σ !! a); simplify_eq. done. Qed.

Lemma keeps_getP L a : keeps (T:=T) L (getP a) any.
Proof. intros σ n σ' _ Hrun. unfold getP in Hrun. destruct (pobjs σ !! a); simplify_eq. done. Qed.

Lemma keeps_allocP L o : keeps (T:=T) L (allocP o) (λ a, L ≤ a).
Proof.
  intros σ a σ' HL [= <- <-]. split; [done|]. split; [done|]. simpl.
  by rewrite take_app_le.
Qed.

Lemma keeps_setP L a o : L ≤ a → keeps (T:=T) L (setP a o) any.
Proof.
  intros Ha σ [] σ' HL [= <-]. split; [done|]. split; [done|]. simpl.
  by rewrite take_insert_ge.
Qed.

Lemma keeps_writeProp L a k v : L ≤ a → keeps (T:=T) L (writeProp a k v) any.
Proof.
  intros Ha. eapply keeps_bind; [apply keeps_getP|]. intros o _.
  by apply keeps_setP.
Qed.

Lemma Forall2_update {A} (R : relation A) `{!Reflexive R} (l : list A) i x y :
  l !! i = Some x → R x y → Forall2 R l (<[i := y]> l).
Proof.
  intros Hi HR. rewrite <-(list_insert_id l i x) at 1 by done.
  apply Forall2_insert; [|done]. by apply Forall2_same_length_lookup_2; [|intros; simplify_eq].
Qed.

Lemma keeps_writeParams L a r : keeps (T:=T) L (writeParams a r) any.
Proof.
  intros σ [] σ' HL Hrun. unfold writeParams, mbind, M_bind, getNode, setNode in Hrun.
  destruct (nodes σ !! a) as [n|] eqn:Hn; simplify_eq/=.
  split; [done|]. split; [|done]. split; [|done]. simpl.
  by eapply (Forall2_update _ _ _ n).
Qed.

Lemma keeps_writeHsParams L a o : keeps (T:=T) L (writeHsParams a o) any.
Proof.
  intros σ [] σ' HL Hrun. unfold writeHsParams, mbind, M_bind, getHS, setHS in Hrun.
  destruct (hsets σ !! a) as [n|] eqn:Hn; simplify_eq/=.
  split; [done|]. split; [|done]. split; [done|]. simpl.
  by eapply (Forall2_update _ _ _ n).
Qed.

Lemma keeps_deref L r : keeps (T:=T) L (deref r) any.
Proof. destruct r; [by apply keeps_ret|apply keeps_getP]. Qed.

Lemma keeps_derefOpt L r : keeps (T:=T) L (derefOpt r) any.
Proof.
  destruct r as [r|]; [|by apply keeps_ret].
  eapply keeps_bind; [apply keeps_deref|]. intros; by apply keeps_ret.
Qed.

Lemma keeps_copyParams L r : keeps (T:=T) L (copyParams r) (λ a, L ≤ a).
Proof.
  destruct r; simpl; [apply keeps_allocP|].
  eapply keeps_bind; [apply keeps_getP|]. intros; apply keeps_allocP.
Qed.

Lemma keeps_defined L {A} (o : option A) : keeps (T:=T) L (defined o) any.
Proof. destruct o; [by apply keeps_ret|apply keeps_throw]. Qed.

Hint Resolve keeps_getNode keeps_getHS keeps_getP keeps_allocP keeps_setP
  keeps_writeProp keeps_writeParams keeps_writeHsParams keeps_deref
  keeps_derefOpt keeps_defined keeps_copyParams : keeps.

Ltac keeps_step :=
  lazymatch goal with
  | |- keeps _ (mret _) _ => by apply keeps_ret
  | |- keeps _ throw _ => apply keeps_throw
  | |- keeps _ (_ ≫= _) _ =>
      first [ eapply keeps_bind; [ solve [eauto with keeps] | cbv beta; intros ]
            | eapply (keeps_bind _ _ _ any); [ | intros ] ]
  | |- keeps _ (match ?x with _ => _ end) _ => destruct x eqn:?
  | |- keeps _ _ _ => solve [eauto with keeps]
  end.

Lemma keeps_getHandlerSetsLoop L ms method np ps :
  keeps (T:=T) L (getHandlerSetsLoop ms method np ps) any.
Proof.
  induction ms as [|m ms IH]; simpl; [by apply keeps_ret|].
  repeat keeps_step.
Qed.

Lemma keeps_getHandlerSets L node method np ps :
  keeps (T:=T) L (getHandlerSets node method np ps) any.
Proof.
  unfold getHandlerSets. keeps_step. apply keeps_getHandlerSetsLoop.
Qed.

Hint Resolve keeps_getHandlerSets : keeps.

Lemma keeps_searchLiteral L node method part isLast :
  keeps (T:=T) L (searchLiteral node method part isLast) any.
Proof. unfold searchLiteral. repeat keeps_step. Qed.

Lemma keeps_searchPattern L node method part rest isLast pattern :
  keeps (T:=T) L (searchPattern node method part rest isLast pattern) any.
Proof. unfold searchPattern. repeat keeps_step. Qed.

Hint Resolve keeps_searchLiteral keeps_searchPattern : keeps.

Lemma keeps_searchPatterns L node method part rest isLast ps :
  keeps (T:=T) L (searchPatterns node method part rest isLast ps) any.
Proof. induction ps as [|p ps IH]; simpl; repeat keeps_step. Qed.

Hint Resolve keeps_searchPatterns : keeps.

Lemma keeps_searchNode L node method part rest isLast :
  keeps (T:=T) L (searchNode node method part rest isLast) any.
Proof. unfold searchNode. repeat keeps_step. Qed.

Hint Resolve keeps_searchNode : keeps.

Lemma keeps_searchNodes L curNodes method part rest isLast :
  keeps (T:=T) L (searchNodes curNodes method part rest isLast) any.
Proof. induction curNodes as [|a l IH]; simpl; repeat keeps_step. Qed.

Hint Resolve keeps_searchNodes : keeps.

Lemma keeps_searchParts L parts curNodes method :
  keeps (T:=T) L (searchParts parts curNodes method) any.
Proof.
  revert curNodes. induction parts as [|p parts IH]; intros; simpl;
    repeat keeps_step.
Qed.

Lemma keeps_readHandlerSets L refs : keeps (T:=T) L (readHandlerSets refs) any.
Proof. induction refs as [|a l IH]; simpl; repeat keeps_step. Qed.

Hint Resolve keeps_searchParts keeps_readHandlerSets : keeps.

Lemma keeps_searchRefs L this method path :
  keeps (T:=T) L (searchRefs this method path) any.
Proof. unfold searchRefs. repeat keeps_step. Qed.

Hint Resolve keeps_searchRefs : keeps.

Lemma keeps_search L this method path :
  keeps (T:=T) L (search this method path) any.
Proof. unfold search. repeat keeps_step. Qed.

End Frame.

(** ** C2: precedence between the two parameter maps *)

Section Resolution.
Context {T : Type} {E : RegExpEngine}.

(** Once the score is marked as processed, every key is resolved from
    [nodeParams] first. *)
Lemma resolveKeys_processed keys score processedSet nodeParams params acc :
  processedSet !! score = Some true →
  resolveKeys keys score processedSet nodeParams params acc
  = foldl (λ acc key,
             <[toKey key := resolved false nodeParams params (toKey key)]> acc)
          acc keys.
Proof.
  revert processedSet acc.
  induction keys as [|key keys IH]; intros pset acc Hp; [done|].
  simpl. rewrite Hp. simpl. rewrite IH by apply lookup_insert_eq.
  unfold resolved. by rewrite andb_false_r.
Qed.

Lemma foldl_insert_lookup (f : string → JsVal) (keys : list JsVal)
    (acc : Params) (k : string) :
  foldl (λ acc key, <[toKey key := f (toKey key)]> acc) acc keys !! k
  = if bool_decide (k ∈ toKey <$> keys) then Some (f k) else acc !! k.
Proof.
  revert acc. induction keys as [|key keys IH]; intros acc; [done|].
  cbn [foldl]. rewrite IH, fmap_cons.
  destruct (decide (k ∈ toKey <$> keys)) as [Hin|Hnin].
  - rewrite !bool_decide_eq_true_2; [done|by right|done].
  - rewrite (bool_decide_eq_false_2 _ Hnin).
    destruct (decide (toKey key = k)) as [<-|Hne].
    + rewrite bool_decide_eq_true_2 by left. apply lookup_insert_eq.
    + rewrite bool_decide_eq_false_2, lookup_insert_ne; [done..|].
      by intros [->|?]%elem_of_cons.
Qed.

End Resolution.

(** C2 (as stated) fails.  With [/:b/:a/:a] registered, the search of
    [/x/y/z] resolves the record with [nodeParams = {b: x, a: z}] and
    [params = {b: x, a: y}]: the second key [a] is taken from
    [nodeParams], not from [params].  With [/:a/:b/:a] the maps are
    [nodeParams = {a: z, b: y}], the map extended at match time, and
    [params = {a: x, b: y}], the map inherited from the node: the first
    key [a] is taken from [params].  So neither map has precedence for
    every key. *)
Lemma resolution_precedence_not_uniform :
  let np1 : Params := {[ "b" := Str "x"; "a" := Str "z" ]} in
  let ps1 : Params := {[ "b" := Str "x"; "a" := Str "y" ]} in
  let np2 : Params := {[ "a" := Str "z"; "b" := Str "y" ]} in
  let ps2 : Params := {[ "a" := Str "x"; "b" := Str "y" ]} in
  let r1 := resolveKeys [Str "b"; Str "a"] 1 ∅ np1 (Some ps1) ∅ in
  let r2 := resolveKeys [Str "a"; Str "b"] 1 ∅ np2 (Some ps2) ∅ in
  searchAfter (E := MiniRegExp.engine) [("GET", "/:b/:a/:a", 7)] "GET" "/x/y/z"
  = Some [(7, r1)] ∧
  searchAfter (E := MiniRegExp.engine) [("GET", "/:a/:b/:a", 7)] "GET" "/x/y/z"
  = Some [(7, r2)] ∧
  r1 !! "a" = Some (Str "z") ∧
  branchFirst [Str "b"; Str "a"] (Some ps1) np1 !! "a" = Some (Str "y") ∧
  r2 !! "a" = Some (Str "x") ∧
  branchFirst [Str "a"; Str "b"] (Some np2) ps2 !! "a" = Some (Str "z").
Proof. cbv zeta. repeat split; vm_compute; reflexivity. Qed.

(** C2 (as amended): in the resolution pass of a handler record whose
    keys are distinct, the first key is taken from [params] when [params]
    binds it to a non-empty string, and otherwise from [nodeParams] with
    [params] as the fallback; every later key is taken from [nodeParams],
    and from [params] only when [nodeParams] has no binding.  No other
    property is written. *)
Theorem resolveKeys_precedence (keys : list JsVal) (score : nat)
    (nodeParams : Params) (params : option Params) :
  NoDup (toKey <$> keys) →
  (∀ i key, keys !! i = Some key →
     resolveKeys keys score ∅ nodeParams params ∅ !! toKey key
     = Some (resolved (bool_decide (i = 0)) nodeParams params (toKey key))) ∧
  (∀ k, k ∉ toKey <$> keys →
     resolveKeys keys score ∅ nodeParams params ∅ !! k = None).
Proof.
  intros Hnd. destruct keys as [|key0 keys]; [done|].
  rewrite fmap_cons in Hnd |- *. apply NoDup_cons in Hnd as [Hnotin Hnd].
  cbn [resolveKeys]. rewrite lookup_empty. cbn [default negb].
  rewrite resolveKeys_processed by apply lookup_insert_eq.
  split.
  - intros i key Hi. rewrite foldl_insert_lookup.
    destruct i as [|i]; simpl in Hi.
    + injection Hi as <-. rewrite (bool_decide_eq_false_2 _ Hnotin).
      by rewrite lookup_insert_eq.
    + rewrite (bool_decide_eq_false_2 (S i = 0)) by done.
      rewrite bool_decide_eq_true_2; [done|].
      apply list_elem_of_fmap. exists key. split; [done|].
      by eapply list_elem_of_lookup_2.
  - intros k Hk. rewrite foldl_insert_lookup.
    apply not_elem_of_cons in Hk as [Hk0 Hk].
    rewrite (bool_decide_eq_false_2 _ Hk).
    rewrite lookup_insert_ne by done. apply lookup_empty.
Qed.

Lemma resolveKeys_precedence_witness :
  let np : Params := {[ "b" := Str "x"; "a" := Str "z" ]} in
  let ps : Params := {[ "b" := Str "x"; "a" := Str "y" ]} in
  resolveKeys [Str "b"; Str "a"] 1 ∅ np (Some ps) ∅ !! "a"
  = Some (resolved false np (Some ps) "a").
Proof.
  cbv zeta.
  refine (proj1 (resolveKeys_precedence [Str "b"; Str "a"] 1 _ _ _) 1 (Str "a") _).
  - apply (bool_decide_unpack _). by vm_compute.
  - reflexivity.
Defined.

(** ** Running the primitives *)

Section Run.
Context {T : Type} {E : RegExpEngine}.

Lemma bind_run {A B} (m : M (T:=T) A) (f : A → M B) σ a σ' :
  m σ = Some (a, σ') → (m ≫= f) σ = f a σ'.
Proof. intros Hm. unfold mbind, M_bind. by rewrite Hm. Qed.

Lemma getNode_run (σ : State T) a n :
  nodes σ !! a = Some n → getNode a σ = Some (n, σ).
Proof. intros Hn. unfold getNode. by rewrite Hn. Qed.

Lemma getHS_run (σ : State T) a h :
  hsets σ !! a = Some h → getHS a σ = Some (h, σ).
Proof. intros Hn. unfold getHS. by rewrite Hn. Qed.

Lemma getP_run (σ : State T) a o :
  pobjs σ !! a = Some o → getP a σ = Some (o, σ).
Proof. intros Hn. unfold getP. by rewrite Hn. Qed.

Lemma getPattern_run (σ : State T) p :
  wellFormed p = true → getPattern p σ = Some (labelPattern p, σ).
Proof.
  unfold wellFormed, getPattern.
  destruct (labelPattern p) as [[|key name [|source]]|]; [done..| |done].
  by destruct (regexp_new source).
Qed.

Lemma getPattern_inv (σ σ' : State T) p r :
  getPattern p σ = Some (r, σ') →
  σ' = σ ∧ r = labelPattern p ∧ wellFormed p = true.
Proof.
  unfold wellFormed, getPattern.
  destruct (labelPattern p) as [[|key name [|source]]|]; [by intros [= <- <-]..| |].
  - destruct (regexp_new source); [by intros [= <- <-]|done].
  - by intros [= <- <-].
Qed.

Lemma writeParams_run (σ : State T) a n r :
  nodes σ !! a = Some n →
  writeParams a r σ
  = Some (tt, mkState
                (<[a := mkNode (methods n) (children n) (patterns n) (order n) r]>
                   (nodes σ))
                (hsets σ) (pobjs σ)).
Proof. intros Hn. unfold writeParams. by rewrite (bind_run _ _ _ _ _ (getNode_run _ _ _ Hn)). Qed.

Lemma copyParams_run (σ : State T) r :
  validRef σ r →
  ∃ o, copyParams r σ
       = Some (length (pobjs σ), mkState (nodes σ) (hsets σ) (pobjs σ ++ [o])).
Proof.
  destruct r as [|a]; simpl; [by exists ∅|]. intros Ha.
  destruct (lookup_lt_is_Some_2 _ _ Ha) as [o Ho]. exists o.
  by rewrite (bind_run _ _ _ _ _ (getP_run _ _ _ Ho)).
Qed.

End Run.

(** ** C10: one parameter object per collected record *)

Section Sharing.
Context {T : Type} {E : RegExpEngine}.
Implicit Types σ : State T.

Lemma readHandlerSets_run (σ σ' : State T) refs hs :
  readHandlerSets refs σ = Some (hs, σ') →
  σ' = σ ∧ Forall2 (λ a ah, ah.1 = a ∧ hsets σ !! a = Some ah.2) refs hs.
Proof.
  revert hs. induction refs as [|a refs IH]; intros hs Hrun.
  - injection Hrun as <- <-. by split.
  - simpl in Hrun. unfold mbind, M_bind, getHS in Hrun.
    destruct (hsets σ !! a) as [h|] eqn:Ha; [|done].
    destruct (readHandlerSets refs σ) as [[hs' σ1]|] eqn:Hrest; [|done].
    injection Hrun as <- <-.
    destruct (IH hs' eq_refl) as [-> Hall]. split; [done|].
    by constructor.
Qed.

Lemma bind_inv {A B} (m : M (T:=T) A) (f : A → M B) σ b σ' :
  (m ≫= f) σ = Some (b, σ') →
  ∃ a σ1, m σ = Some (a, σ1) ∧ f a σ1 = Some (b, σ').
Proof.
  unfold mbind, M_bind. destruct (m σ) as [[a σ1]|]; [|done]. eauto.
Qed.

Lemma freshParams_pobjs L σ σ' a :
  hsets σ' = hsets σ → freshParams L σ a → freshParams L σ' a.
Proof. intros Hh (h & o & ? & ? & ?). exists h, o. by rewrite Hh. Qed.

Lemma getHandlerSetsLoop_fresh L ms method np ps σ hs σ' :
  L ≤ length (pobjs σ) →
  getHandlerSetsLoop ms method np ps σ = Some (hs, σ') →
  L ≤ length (pobjs σ')
  ∧ ∀ a, a ∈ hs ∨ freshParams L σ a → freshParams L σ' a.
Proof.
  revert σ hs. induction ms as [|m ms IH]; intros σ hs HL Hrun.
  { injection Hrun as <- <-. split; [done|].
    by intros a [?%elem_of_nil|?]. }
  cbn [getHandlerSetsLoop] in Hrun.
  destruct (methodEntry m method) as [a|]; [|by apply IH].
  apply bind_inv in Hrun as (h & σ1 & Hget & Hrun).
  unfold getHS in Hget. destruct (hsets σ !! a) as [h'|] eqn:Ha; [|done].
  injection Hget as -> <-.
  apply bind_inv in Hrun as (o & σ1 & Halloc & Hrun).
  injection Halloc as <- <-.
  apply bind_inv in Hrun as ([] & σ2 & Hwrite & Hrun).
  unfold writeHsParams in Hwrite.
  rewrite (bind_run _ _ _ _ _ (getHS_run (mkState _ _ _) _ _ Ha)) in Hwrite.
  injection Hwrite as <-.
  apply bind_inv in Hrun as ([] & σ3 & Hres & Hrun).
  apply bind_inv in Hrun as (rest & σ4 & Hrest & Hret).
  injection Hret as <- <-.
  assert (hsets σ3
          = <[a := mkHandlerSet (handler h) (possibleKeys h) (score h)
                                (Some (length (pobjs σ)))]> (hsets σ)
          ∧ L ≤ length (pobjs σ3)) as [Hh3 HL3].
  { destruct (someParams np ps).
    - apply bind_inv in Hres as (onp & σa & Hnp & Hres).
      assert (σa = mkState (nodes σ)
                (<[a := mkHandlerSet (handler h) (possibleKeys h) (score h)
                                     (Some (length (pobjs σ)))]> (hsets σ))
                (pobjs σ ++ [∅])) as ->.
      { destruct np as [|b]; simpl in Hnp; [by injection Hnp as _ <-|].
        unfold getP in Hnp. simpl in Hnp.
        destruct (_ !! b); [|done]. by injection Hnp as _ <-. }
      apply bind_inv in Hres as (ops & σb & Hps & Hres).
      assert (σb = mkState (nodes σ)
                (<[a := mkHandlerSet (handler h) (possibleKeys h) (score h)
                                     (Some (length (pobjs σ)))]> (hsets σ))
                (pobjs σ ++ [∅])) as ->.
      { destruct ps as [[|b]|]; simpl in Hps.
        - by injection Hps as _ <-.
        - apply bind_inv in Hps as (ob & σc & Hb & Hret).
          injection Hret as _ <-. unfold getP in Hb. simpl in Hb.
          destruct (_ !! b); [|done]. by injection Hb as _ <-.
        - by injection Hps as _ <-. }
      injection Hres as <-. simpl. split; [done|].
      rewrite length_insert, length_app. lia.
    - injection Hres as <-. simpl. split; [done|]. rewrite length_app. lia. }
  destruct (IH σ3 rest HL3 Hrest) as [HL4 Hfresh]. split; [done|].
  intros b Hb. apply Hfresh.
  destruct (decide (b = a)) as [->|Hne].
  - right. exists (mkHandlerSet (handler h) (possibleKeys h) (score h)
                     (Some (length (pobjs σ)))), (length (pobjs σ)).
    split; [|done]. rewrite Hh3. apply list_lookup_insert_eq.
    by eapply lookup_lt_Some.
  - destruct Hb as [[?|Hb]%elem_of_cons|(hb & ob & Hhb & Hob & Hle)];
      [done|by left|].
    right. exists hb, ob. split; [|done].
    rewrite Hh3. by rewrite list_lookup_insert_ne.
Qed.

(** Every collection gives the records it collects a parameter object
    that it creates, whatever they referred to before. *)
Lemma getHandlerSets_overwrites node method np ps σ hs σ' :
  getHandlerSets node method np ps σ = Some (hs, σ') →
  ∀ a, a ∈ hs → freshParams (length (pobjs σ)) σ' a.
Proof.
  intros Hrun a Ha. unfold getHandlerSets in Hrun.
  apply bind_inv in Hrun as (n & σ1 & Hget & Hrun).
  unfold getNode in Hget. destruct (nodes σ !! node); [|done].
  injection Hget as -> <-.
  destruct (getHandlerSetsLoop_fresh (length (pobjs σ)) _ _ _ _ _ _ _
              (Nat.le_refl _) Hrun) as [_ Hfresh].
  apply Hfresh. by left.
Qed.

End Sharing.

(** C10: the pairs returned by a search are read from the handler sets
    after the traversal, so all occurrences of one collected record carry
    the same handler and the same parameter object; and every collection
    replaces the [params] property of the records it collects by an
    object that it creates, so that the object of an earlier collection
    is no longer referred to.  With [/:x]
    registered, the search of [/:x] collects the record twice, first
    through the literal child (no binding) and then through the pattern
    (binding [x]): the first object stays in the store, unreferenced, and
    both pairs carry the object of the second collection. *)
Theorem collected_record_shares_params {T} {E : RegExpEngine} (σ σ' : State T)
    (this : nat) (method path : string) (res : list (T * option nat)) :
  search this method path σ = Some (res, σ') →
  (∃ refs : list nat,
     searchRefs this method path σ = Some (refs, σ') ∧
     Forall2 (λ a r, ∃ h, hsets σ' !! a = Some h ∧ r = (handler h, hs_params h))
             refs res ∧
     ∀ i j a, refs !! i = Some a → refs !! j = Some a →
              is_Some (res !! i) ∧ res !! i = res !! j) ∧
  (∀ node np ps (σa σb : State T) refs,
     getHandlerSets node method np ps σa = Some (refs, σb) →
     ∀ a, a ∈ refs → freshParams (length (pobjs σa)) σb a) ∧
  let σ0 := Scenario.colon {[ "GET" := 0 ]} 7 in
  let σ1 := Scenario.colon' {[ "GET" := 0 ]} 7 in
  insertAll [("GET", "/:x", 7)] emptyTrie = Some σ0 ∧
  search root "GET" "/:x" σ0 = Some ([(7, Some 2); (7, Some 2)], σ1) ∧
  searchView σ0 "GET" "/:x"
  = Some [(7, {[ "x" := Str ":x" ]}); (7, {[ "x" := Str ":x" ]})] ∧
  pobjs σ1 !! 0 = Some ∅.
Proof.
  intros Hrun. split.
  - unfold search, mbind, M_bind in Hrun.
    destruct (searchRefs this method path σ) as [[refs σ1]|] eqn:Hrefs; [|done].
    destruct (readHandlerSets refs σ1) as [[hs σ2]|] eqn:Hread; [|done].
    injection Hrun as <- <-.
    apply readHandlerSets_run in Hread as [-> Hall].
    assert (Forall2 (λ a r, ∃ h, hsets σ1 !! a = Some h
                                 ∧ r = (handler h, hs_params h)) refs
              ((λ ah : nat * HandlerSet T, (handler ah.2, hs_params ah.2)) <$> hs))
      as Hpairs.
    { apply Forall2_fmap_r. eapply Forall2_impl; [exact Hall|].
      intros a [a' h] [_ Hh]. by exists h. }
    exists refs. split; [done|]. split; [done|].
    intros i j a Hi Hj.
    destruct (Forall2_lookup_l _ _ _ _ _ Hpairs Hi) as (ri & Hri & hi & Hhi & ->).
    destruct (Forall2_lookup_l _ _ _ _ _ Hpairs Hj) as (rj & Hrj & hj & Hhj & ->).
    rewrite Hri, Hrj. split; [done|]. congruence.
  - split; [intros node np ps σa σb refs; apply getHandlerSets_overwrites|].
    cbv zeta. split; [reflexivity|]. repeat split; vm_compute; reflexivity.
Qed.

Lemma collected_record_shares_params_witness :
  ∃ refs : list nat,
    refs = [0; 0] ∧
    ∀ i j a, refs !! i = Some a → refs !! j = Some a →
             is_Some ([(7, Some 2); (7, Some 2)] !! i) ∧
             [(7, Some 2); (7, Some 2)] !! i
             = ([(7, Some 2); (7, Some 2)] : list (nat * option nat)) !! j.
Proof.
  edestruct (collected_record_shares_params (E := MiniRegExp.engine)
               (Scenario.colon {[ "GET" := 0 ]} 7)
               (Scenario.colon' {[ "GET" := 0 ]} 7)
               root "GET" "/:x" [(7, Some 2); (7, Some 2)])
    as [(refs & Hrefs & _ & Hshare) _].
  - vm_compute. reflexivity.
  - exists refs. split; [|exact Hshare].
    vm_compute in Hrefs. by injection Hrefs as <-.
Defined.

(** ** C3: failures at the adapter boundary *)

Module LambdaFacts.
Import Lambda.

Section Adapter.
Context {Exn LambdaEvent LambdaContext RequestContext : Type}.
Context {Request APIGatewayProxyResult : Type}.
Variable isProxyEventV2 : LambdaEvent → bool.
Variable getRequestContext : LambdaEvent → RequestContext.
Variables v1Processor v2Processor :
  EventProcessor (Exn := Exn) (LambdaEvent := LambdaEvent)
    (Request := Request) (APIGatewayProxyResult := APIGatewayProxyResult).

(** The streaming adapter lets no failure through: its promise is
    fulfilled, the stream is ended, and a failure of the [try] block
    leaves the text of the generic error as the last chunk. *)
Lemma streamHandle_catches (app : Hono) (event : LambdaEvent)
    (responseStream : Writable) (context : LambdaContext) :
  let r := streamHandle isProxyEventV2 getRequestContext
             v1Processor v2Processor app event responseStream context in
  r.1 = Ok tt ∧ ended r.2 = true ∧
  ∀ e s, streamHandleTry isProxyEventV2 getRequestContext
           v1Processor v2Processor app event responseStream context
         = (Throw e, s) →
         written r.2 = written s ++ ["Internal Server Error"].
Proof.
  cbv zeta. unfold streamHandle.
  destruct (streamHandleTry _ _ _ _ _ _ _ _) as [outcome s'].
  split; [done|]. split; [done|]. by intros e s [= -> ->].
Qed.

End Adapter.

(** C3, on [handle]: the buffered adapter has no handler for failures.
    For an application whose [fetch] rejects, whatever the event and
    the processors, [handle] rejects as well: the failure reaches the
    host runtime and no server-error result is produced. *)
Theorem handle_propagates_failure
    {Exn LambdaEvent LambdaContext RequestContext Request Result : Type}
    (isProxyEventV2 : LambdaEvent → bool)
    (getRequestContext : LambdaEvent → RequestContext)
    (v1Processor v2Processor :
       EventProcessor (Exn := Exn) (LambdaEvent := LambdaEvent)
         (Request := Request) (APIGatewayProxyResult := Result))
    (e : Exn) (event : LambdaEvent) (lambdaContext : option LambdaContext) :
  let app : Hono := λ _ _, Throw e in
  (∃ e', handle isProxyEventV2 getRequestContext v1Processor v2Processor
           app event lambdaContext = Throw e') ∧
  (∀ req, createRequest
            (getProcessor isProxyEventV2 v1Processor v2Processor event) event
          = Ok req →
          handle isProxyEventV2 getRequestContext v1Processor v2Processor
            app event lambdaContext = Throw e) ∧
  ∀ responseStream context,
    (streamHandle isProxyEventV2 getRequestContext v1Processor v2Processor
       app event responseStream context).1 = Ok tt.
Proof.
  cbv zeta. unfold handle. split; [|split].
  - destruct (createRequest _ event); eauto.
  - by intros req ->.
  - intros responseStream context.
    apply (streamHandle_catches isProxyEventV2 getRequestContext
             v1Processor v2Processor).
Qed.

End LambdaFacts.

(** ** C9: searches on the stores that registrations build *)

Section WP.
Context {T : Type} {E : RegExpEngine}.
Implicit Types σ : State T.

Lemma wp_ret {A} (a : A) σ (Q : A → State T → Prop) : Q a σ → wp (mret a) σ Q.
Proof. done. Qed.

Lemma wp_bind {A B} (m : M A) (f : A → M B) σ (Q : B → State T → Prop) :
  wp m σ (λ a σ', wp (f a) σ' Q) → wp (m ≫= f) σ Q.
Proof.
  unfold wp, mbind, M_bind. by destruct (m σ) as [[a σ']|].
Qed.

Lemma wp_mono {A} (m : M A) σ (P Q : A → State T → Prop) :
  wp m σ P → (∀ a σ', P a σ' → Q a σ') → wp m σ Q.
Proof. unfold wp. destruct (m σ) as [[a σ']|]; eauto. Qed.

Lemma wp_run {A} (m : M A) σ (Q : A → State T → Prop) :
  wp m σ Q → ∃ a σ', m σ = Some (a, σ') ∧ Q a σ'.
Proof. unfold wp. destruct (m σ) as [[a σ']|]; [eauto|done]. Qed.

Lemma wp_getNode σ a n (Q : Node → State T → Prop) :
  nodes σ !! a = Some n → Q n σ → wp (getNode a) σ Q.
Proof. intros Hn HQ. unfold wp. by rewrite (getNode_run _ _ _ Hn). Qed.

Lemma wp_getHS σ a h (Q : HandlerSet T → State T → Prop) :
  hsets σ !! a = Some h → Q h σ → wp (getHS a) σ Q.
Proof. intros Hn HQ. unfold wp. by rewrite (getHS_run _ _ _ Hn). Qed.

Lemma wp_getP σ a o (Q : Params → State T → Prop) :
  pobjs σ !! a = Some o → Q o σ → wp (getP a) σ Q.
Proof. intros Hn HQ. unfold wp. by rewrite (getP_run _ _ _ Hn). Qed.

Lemma wp_defined {A} (o : option A) a σ (Q : A → State T → Prop) :
  o = Some a → Q a σ → wp (defined o) σ Q.
Proof. by intros -> HQ. Qed.

End WP.



Section GoodFacts.
Context {T : Type} {E : RegExpEngine}.
Implicit Types σ : State T.

Global Instance le_refl : Reflexive (le (T:=T)).
Proof. intros σ. unfold le. lia. Qed.
Global Instance le_trans : Transitive (le (T:=T)).
Proof. intros σ1 σ2 σ3. unfold le. lia. Qed.

Lemma validRef_le σ σ' r : validRef σ r → le σ σ' → validRef σ' r.
Proof. destruct r; [done|]. unfold le. simpl. lia. Qed.

Lemma validOpt_le σ σ' r : validOpt σ r → le σ σ' → validOpt σ' r.
Proof. destruct r; [apply validRef_le|done]. Qed.

Lemma paramsValid_le σ σ' :
  paramsValid σ → nodes σ' = nodes σ → le σ σ' → paramsValid σ'.
Proof.
  intros Hv Hn Hle a n Ha. rewrite Hn in Ha. eapply validRef_le; eauto.
Qed.

Lemma good_lookup σ0 σ a :
  good σ0 σ → a < length (nodes σ0) →
  ∃ n0 n, nodes σ0 !! a = Some n0 ∧ nodes σ !! a = Some n ∧ sameNode n0 n
          ∧ validRef σ (params n).
Proof.
  intros [[Hn _] Hv] Ha.
  destruct (lookup_lt_is_Some_2 _ _ Ha) as [n0 Hn0].
  destruct (Forall2_lookup_l _ _ _ _ _ Hn Hn0) as (n & Hn' & Hsame).
  exists n0, n. eauto.
Qed.

Lemma good_lookup_hs σ0 σ a :
  good σ0 σ → a < length (hsets σ0) → is_Some (hsets σ !! a).
Proof.
  intros [[_ Hh] _] Ha. apply lookup_lt_is_Some_2.
  by rewrite <-(Forall2_length _ _ _ Hh).
Qed.

Lemma good_allocP σ0 σ o :
  good σ0 σ → good σ0 (mkState (nodes σ) (hsets σ) (pobjs σ ++ [o])).
Proof.
  intros [Hs Hv]. split; [done|].
  eapply paramsValid_le; [done..|]. unfold le. simpl. rewrite length_app. lia.
Qed.

Lemma good_setP σ0 σ a o :
  good σ0 σ → good σ0 (mkState (nodes σ) (hsets σ) (<[a := o]> (pobjs σ))).
Proof.
  intros [Hs Hv]. split; [done|].
  eapply paramsValid_le; [done..|]. unfold le. simpl. by rewrite length_insert.
Qed.

Lemma good_writeHs σ0 σ a h o :
  good σ0 σ → hsets σ !! a = Some h →
  good σ0 (mkState (nodes σ)
             (<[a := mkHandlerSet (handler h) (possibleKeys h) (score h) (Some o)]>
                (hsets σ))
             (pobjs σ)).
Proof.
  intros [[Hn Hh] Hv] Ha. split; [|done]. split; [done|]. simpl.
  etrans; [exact Hh|]. by eapply (Forall2_update _ _ _ h).
Qed.

Lemma good_writeParams σ0 σ a n r :
  good σ0 σ → nodes σ !! a = Some n → validRef σ r →
  good σ0 (mkState
             (<[a := mkNode (methods n) (children n) (patterns n) (order n) r]>
                (nodes σ))
             (hsets σ) (pobjs σ)).
Proof.
  intros [[Hn Hh] Hv] Ha Hr. split.
  - split; [|done]. simpl. etrans; [exact Hn|].
    by eapply (Forall2_update _ _ _ n).
  - intros b nb Hb. simpl in Hb.
    destruct (decide (a = b)) as [<-|Hne].
    + rewrite list_lookup_insert_eq in Hb by by eapply lookup_lt_Some.
      by injection Hb as <-.
    + rewrite list_lookup_insert_ne in Hb by done. by apply (Hv b).
Qed.

(** *** The primitives on good stores *)

Lemma wp_writeParams_good σ0 σ a r (Q : unit → State T → Prop) :
  good σ0 σ → a < length (nodes σ0) → validRef σ r →
  (∀ σ', good σ0 σ' → le σ σ' → Q tt σ') →
  wp (writeParams a r) σ Q.
Proof.
  intros Hg Ha Hr HQ.
  destruct (good_lookup _ _ _ Hg Ha) as (n0 & n & _ & Hn & _ & _).
  unfold wp. rewrite (writeParams_run _ _ _ _ Hn).
  apply HQ; [by apply good_writeParams|by unfold le].
Qed.

Lemma wp_copyParams_good σ0 σ r (Q : nat → State T → Prop) :
  good σ0 σ → validRef σ r →
  (∀ σ' p, good σ0 σ' → le σ σ' → validRef σ' (pobj p) → Q p σ') →
  wp (copyParams r) σ Q.
Proof.
  intros Hg Hr HQ. destruct (copyParams_run σ r Hr) as [o Ho].
  unfold wp. rewrite Ho. apply HQ.
  - by apply good_allocP.
  - unfold le. simpl. rewrite length_app. lia.
  - simpl. rewrite length_app. simpl. lia.
Qed.

Lemma wp_allocP_good σ0 σ o (Q : nat → State T → Prop) :
  good σ0 σ →
  (∀ σ' p, good σ0 σ' → le σ σ' → validRef σ' (pobj p) → Q p σ') →
  wp (allocP o) σ Q.
Proof.
  intros Hg HQ. unfold wp, allocP. apply HQ.
  - by apply good_allocP.
  - unfold le. simpl. rewrite length_app. lia.
  - simpl. rewrite length_app. simpl. lia.
Qed.

Lemma wp_setP_good σ0 σ p o (Q : unit → State T → Prop) :
  good σ0 σ →
  (∀ σ', good σ0 σ' → le σ σ' → Q tt σ') →
  wp (setP p o) σ Q.
Proof.
  intros Hg HQ. unfold wp, setP. apply HQ; [by apply good_setP|].
  unfold le. simpl. by rewrite length_insert.
Qed.

Lemma wp_writeProp_good σ0 σ p k v (Q : unit → State T → Prop) :
  good σ0 σ → validRef σ (pobj p) →
  (∀ σ', good σ0 σ' → le σ σ' → Q tt σ') →
  wp (writeProp p k v) σ Q.
Proof.
  intros Hg Hp HQ. destruct (lookup_lt_is_Some_2 _ _ Hp) as [o Ho].
  unfold writeProp. apply wp_bind, (wp_getP _ _ o); [done|].
  by eapply wp_setP_good.
Qed.

Lemma wp_writeHsParams_good σ0 σ a o (Q : unit → State T → Prop) :
  good σ0 σ → a < length (hsets σ0) →
  (∀ σ', good σ0 σ' → le σ σ' → Q tt σ') →
  wp (writeHsParams a o) σ Q.
Proof.
  intros Hg Ha HQ. destruct (good_lookup_hs _ _ _ Hg Ha) as [h Hh].
  unfold writeHsParams. apply wp_bind, (wp_getHS _ _ h); [done|].
  unfold wp, setHS. apply HQ; [by apply good_writeHs|by unfold le].
Qed.

Lemma wp_deref_good σ r (Q : Params → State T → Prop) :
  validRef σ r → (∀ o, Q o σ) → wp (deref r) σ Q.
Proof.
  destruct r as [|a]; simpl; intros Hr HQ; [apply HQ|].
  destruct (lookup_lt_is_Some_2 _ _ Hr) as [o Ho].
  by apply (wp_getP _ _ o).
Qed.

Lemma wp_derefOpt_good σ r (Q : option Params → State T → Prop) :
  validOpt σ r → (∀ o, Q o σ) → wp (derefOpt r) σ Q.
Proof.
  destruct r as [r|]; simpl; intros Hr HQ; [|apply HQ].
  apply wp_bind, wp_deref_good; [done|]. intros o. apply HQ.
Qed.

End GoodFacts.

Section MatchFacts.
Context {E : RegExpEngine}.

Lemma methodEntry_Some (m : gmap string nat) method x :
  methodEntry m method = Some x →
  ∃ k, (k = method ∨ k = METHOD_NAME_ALL) ∧ m !! k = Some x.
Proof.
  unfold methodEntry. destruct (m !! method) as [y|] eqn:Hm.
  - intros [= ->]. eauto.
  - intros Hall. eauto.
Qed.

Lemma matchFrom_nil rs : matchFrom rs [] = false.
Proof. done. Qed.

Lemma matchFrom_literal part parts' rs :
  (if bool_decide (parts' = []) then atEnd rs else matchFrom rs parts') = true →
  matchFrom (part :: rs) (part :: parts') = true.
Proof.
  intros Hnext. cbn [matchFrom]. rewrite Hnext, String.eqb_refl. done.
Qed.

Lemma matchFrom_wild_end part parts' : matchFrom ["*"] (part :: parts') = true.
Proof.
  cbn [matchFrom]. change (labelPattern "*") with (Some PWild).
  rewrite (bool_decide_eq_true_2 (@nil string = [])) by done. apply orb_true_r.
Qed.

Lemma matchFrom_wild part parts' rs :
  matchFrom rs parts' = true → matchFrom ("*" :: rs) (part :: parts') = true.
Proof.
  intros Hrs. cbn [matchFrom]. change (labelPattern "*") with (Some PWild).
  rewrite Hrs. by rewrite !orb_true_r.
Qed.

Lemma matchFrom_rest key name matcher part parts' :
  labelPattern key = Some (PParam key name matcher) →
  String.eqb part "" = false →
  restMatch matcher (join (part :: parts')) = true →
  matchFrom [key] (part :: parts') = true.
Proof.
  intros Hpat Hne Hrest. cbn [matchFrom]. rewrite Hpat, Hne, Hrest.
  rewrite (bool_decide_eq_true_2 (@nil string = [])) by done. apply orb_true_r.
Qed.

Lemma matchFrom_param key name matcher part parts' rs :
  labelPattern key = Some (PParam key name matcher) →
  String.eqb part "" = false →
  restMatch matcher (join (part :: parts')) = false →
  partMatch matcher part = true →
  (if bool_decide (parts' = []) then atEnd rs else matchFrom rs parts') = true →
  matchFrom (key :: rs) (part :: parts') = true.
Proof.
  intros Hpat Hne Hrest Hpart Hnext. cbn [matchFrom].
  rewrite Hpat, Hne, Hrest, Hpart, Hnext. apply orb_true_r.
Qed.

End MatchFacts.

Section Sort.
Context {T : Type}.

Lemma insertByScore_perm (x : nat * HandlerSet T) l : insertByScore x l ≡ₚ x :: l.
Proof.
  induction l as [|y l IH]; [done|]. cbn [insertByScore].
  destruct (score x.2 <=? score y.2); [done|].
  rewrite IH. apply Permutation_swap.
Qed.

Lemma sortByScore_perm (l : list (nat * HandlerSet T)) : sortByScore l ≡ₚ l.
Proof.
  induction l as [|x l IH]; [done|]. unfold sortByScore. cbn [foldr].
  rewrite insertByScore_perm. by constructor.
Qed.

End Sort.

Section Sound.
Context {T : Type} {E : RegExpEngine}.
Variables (routes : list (Route T)) (kp : list (list string)) (σ0 : State T).
Hypothesis HInv : Inv routes kp σ0.
Variable method : string.
Implicit Types σ : State T.

Local Abbreviation good := (good σ0).
Local Abbreviation servedAt := (servedAt routes kp method).
Local Abbreviation foundFrom := (foundFrom routes method).
Local Abbreviation advFrom := (advFrom kp).
Local Abbreviation stepPost := (stepPost routes kp σ0 method).
Local Abbreviation matched := (matched routes method).

Lemma kp_valid a ka : kp !! a = Some ka → a < length (nodes σ0).
Proof. intros Ha. rewrite <-(inv_len _ _ _ HInv). by eapply lookup_lt_Some. Qed.

Lemma getHandlerSetsLoop_good ms np ps σ :
  good σ → validRef σ np → validOpt σ ps →
  (∀ mm k x, mm ∈ ms → mm !! k = Some x → x < length (hsets σ0)) →
  wp (getHandlerSetsLoop ms method np ps) σ
     (λ hs σ', good σ' ∧ le σ σ'
               ∧ ∀ x, x ∈ hs → ∃ mm, mm ∈ ms ∧ methodEntry mm method = Some x).
Proof.
  revert σ. induction ms as [|m ms IH]; intros σ Hg Hnp Hps Hms.
  { apply wp_ret. split; [done|]. split; [done|]. by intros x ?%elem_of_nil. }
  cbn [getHandlerSetsLoop].
  assert (∀ mm k x, mm ∈ ms → mm !! k = Some x → x < length (hsets σ0)) as Hms'.
  { intros mm k x Hmm. apply Hms. by right. }
  destruct (methodEntry m method) as [a|] eqn:Hme.
  - destruct (methodEntry_Some _ _ _ Hme) as (k & _ & Hk).
    assert (a < length (hsets σ0)) as Ha by (eapply (Hms m); [left|done]).
    destruct (good_lookup_hs _ _ _ Hg Ha) as [h Hh].
    apply wp_bind, (wp_getHS _ _ h); [done|].
    apply wp_bind. eapply wp_allocP_good; [done|]. intros σ1 o Hg1 Hle1 Ho.
    apply wp_bind. eapply wp_writeHsParams_good; [done..|]. intros σ2 Hg2 Hle2.
    apply wp_bind.
    apply (wp_mono _ _ (λ _ σ3, good σ3 ∧ le σ2 σ3)).
    { destruct (someParams np ps); [|by apply wp_ret].
      apply wp_bind, wp_deref_good.
      { eapply validRef_le; [done|]. by etrans. }
      intros onp. apply wp_bind, wp_derefOpt_good.
      { eapply validOpt_le; [done|]. by etrans. }
      intros ops. eapply wp_setP_good; [done|]. by intros σ3 Hg3 Hle3. }
    intros [] σ3 [Hg3 Hle3].
    assert (le σ σ3) as Hle by (etrans; [done|]; by etrans).
    apply wp_bind. eapply wp_mono.
    { apply IH; [done| | |done].
      - by eapply validRef_le.
      - by eapply validOpt_le. }
    intros rest σ4 (Hg4 & Hle4 & Hrest). apply wp_ret.
    split; [done|]. split; [by etrans|].
    intros x [->|Hx]%elem_of_cons.
    + exists m. split; [left|done].
    + destruct (Hrest x Hx) as (mm & ? & ?). exists mm. split; [by right|done].
  - eapply wp_mono; [by apply IH|].
    intros rest σ' (Hg' & Hle' & Hrest). split; [done|]. split; [done|].
    intros x Hx. destruct (Hrest x Hx) as (mm & ? & ?).
    exists mm. split; [by right|done].
Qed.

Lemma getHandlerSets_good a ka np ps σ :
  good σ → kp !! a = Some ka → validRef σ np → validOpt σ ps →
  wp (getHandlerSets a method np ps) σ
     (λ hs σ', good σ' ∧ le σ σ' ∧ ∀ x, x ∈ hs → servedAt a x).
Proof.
  intros Hg Ha Hnp Hps. unfold getHandlerSets.
  destruct (good_lookup _ _ _ Hg (kp_valid _ _ Ha))
    as (n0 & n & Hn0 & Hn & (Hm & _) & _).
  apply wp_bind, (wp_getNode _ _ n); [done|]. rewrite Hm.
  eapply wp_mono.
  { apply getHandlerSetsLoop_good; [done..|].
    intros mm k x Hmm Hx.
    destruct (inv_method _ _ _ HInv _ _ _ _ _ Hn0 Hmm Hx) as (path & h & Hr & _).
    rewrite (inv_hsets_len _ _ _ HInv). by eapply lookup_lt_Some. }
  intros hs σ' (Hg' & Hle' & Hhs). split; [done|]. split; [done|].
  intros x Hx. destruct (Hhs x Hx) as (mm & Hmm & Hme).
  destruct (methodEntry_Some _ _ _ Hme) as (k & Hk & Hx').
  destruct (inv_method _ _ _ HInv _ _ _ _ _ Hn0 Hmm Hx') as (path & h & Hr & Hkp).
  by exists k, path, h.
Qed.

Lemma kp_node a ka : kp !! a = Some ka → ∃ n0, nodes σ0 !! a = Some n0.
Proof. intros Ha. apply lookup_lt_is_Some_2. by eapply kp_valid. Qed.

Lemma kp_child a ka n0 k c :
  kp !! a = Some ka → nodes σ0 !! a = Some n0 → children n0 !! k = Some c →
  kp !! c = Some (ka ++ [k]).
Proof.
  intros Ha Hn0 Hc.
  destruct (inv_child _ _ _ HInv _ _ _ _ Hn0 Hc) as (ka' & Ha' & Hkc).
  congruence.
Qed.

Lemma wp_getNode_good σ a n0 (Q : Node → State T → Prop) :
  good σ → nodes σ0 !! a = Some n0 →
  (∀ n, sameNode n0 n → validRef σ (params n) → Q n σ) →
  wp (getNode a) σ Q.
Proof.
  intros Hg Hn0 HQ.
  destruct (good_lookup _ _ a Hg) as (n0' & n & Hn0' & Hn & Hsame & Hv).
  { by eapply lookup_lt_Some. }
  apply (wp_getNode _ _ n); [done|]. apply HQ; [congruence|done].
Qed.

Lemma served_found a ka rs parts x :
  servedAt a x → kp !! a = Some (ka ++ rs) → matchFrom rs parts = true →
  foundFrom ka parts x.
Proof.
  intros (m & path & h & Hr & Hm & Hkp) Ha Hmatch.
  exists m, path, h, rs. split; [done|]. split; [done|]. split; [congruence|done].
Qed.

Lemma stepPost_nil ka part parts' σ σ' :
  good σ' → le σ σ' → stepPost ka part parts' σ ([], []) σ'.
Proof.
  intros Hg Hle. split; [done|]. split; [done|].
  split; intros x Hx; by apply elem_of_nil in Hx.
Qed.

Lemma searchLiteral_good node ka part parts' σ :
  good σ → kp !! node = Some ka →
  wp (searchLiteral node method part (bool_decide (parts' = []))) σ
     (stepPost ka part parts' σ).
Proof.
  intros Hg Hka. unfold searchLiteral.
  destruct (kp_node _ _ Hka) as [n0 Hn0].
  apply wp_bind. eapply wp_getNode_good; [done..|]. intros n (_ & Hc & _) Hv.
  rewrite Hc. destruct (children n0 !! part) as [nextNode|] eqn:Hnext;
    [|by apply wp_ret, stepPost_nil].
  pose proof (kp_child _ _ _ _ _ Hka Hn0 Hnext) as Hknext.
  destruct (kp_node _ _ Hknext) as [nn0 Hnn0].
  apply wp_bind. eapply wp_writeParams_good; [done|by eapply kp_valid|done|].
  intros σ1 Hg1 Hle1. case_bool_decide as Hlast.
  - apply wp_bind. eapply wp_getNode_good; [done..|].
    intros nn (_ & Hcn & _) _. rewrite Hcn.
    apply wp_bind.
    apply (wp_mono _ _ (λ hs σ2, good σ2 ∧ le σ1 σ2
                                 ∧ ∀ x, x ∈ hs → foundFrom ka (part :: parts') x)).
    { destruct (children nn0 !! "*") as [astNode|] eqn:Hast.
      - pose proof (kp_child _ _ _ _ _ Hknext Hnn0 Hast) as Hkast.
        apply wp_bind. eapply wp_getNode_good; [done..|]. intros n1 _ Hv1.
        eapply wp_mono; [by eapply getHandlerSets_good|].
        intros hs σ2 (Hg2 & Hle2 & Hhs). split; [done|]. split; [done|].
        intros x Hx. eapply served_found; [by apply Hhs| |].
        + by rewrite <-(assoc_L (++)) in Hkast.
        + apply matchFrom_literal. by rewrite bool_decide_eq_true_2.
      - apply wp_ret. split; [done|]. split; [done|].
        by intros x ?%elem_of_nil. }
    intros hs1 σ2 (Hg2 & Hle2 & Hhs1).
    apply wp_bind. eapply wp_getNode_good; [done..|]. intros n2 _ Hv2.
    apply wp_bind. eapply wp_mono; [by eapply getHandlerSets_good|].
    intros hs2 σ3 (Hg3 & Hle3 & Hhs2). apply wp_ret.
    split; [done|]. split; [etrans; [done|]; by etrans|]. split.
    + intros x [Hx|Hx]%elem_of_app; [by apply Hhs1|].
      eapply served_found; [by apply Hhs2|done|].
      apply matchFrom_literal. by rewrite bool_decide_eq_true_2.
    + by intros t ?%elem_of_nil.
  - apply wp_ret. split; [done|]. split; [done|]. split.
    + by intros x ?%elem_of_nil.
    + intros t ->%list_elem_of_singleton. exists part. split; [done|].
      intros rs Hrs. apply matchFrom_literal. by rewrite bool_decide_eq_false_2.
Qed.

Lemma searchPattern_good node ka n0 part parts' pattern σ :
  good σ → kp !! node = Some ka → nodes σ0 !! node = Some n0 →
  pattern ∈ patterns n0 →
  wp (searchPattern node method part (join (part :: parts'))
        (bool_decide (parts' = [])) pattern) σ
     (stepPost ka part parts' σ).
Proof.
  intros Hg Hka Hn0 Hpat. unfold searchPattern.
  apply wp_bind. eapply wp_getNode_good; [done..|]. intros n _ Hv.
  apply wp_bind. eapply wp_copyParams_good; [done..|]. intros σ1 p Hg1 Hle1 Hp.
  destruct pattern as [|key name matcher].
  - apply wp_bind. eapply wp_getNode_good; [done..|]. intros n1 (_ & Hc & _) Hv1.
    rewrite Hc. destruct (children n0 !! "*") as [astNode|] eqn:Hast;
      [|by apply wp_ret, stepPost_nil].
    pose proof (kp_child _ _ _ _ _ Hka Hn0 Hast) as Hkast.
    apply wp_bind. eapply wp_mono; [by eapply getHandlerSets_good|].
    intros hs σ2 (Hg2 & Hle2 & Hhs). apply wp_ret.
    split; [done|]. split; [by etrans|]. split.
    + intros x Hx. eapply served_found; [by apply Hhs|done|].
      apply matchFrom_wild_end.
    + intros t ->%list_elem_of_singleton. exists "*". split; [done|].
      intros rs. apply matchFrom_wild.
  - destruct (inv_pattern _ _ _ HInv _ _ _ _ _ Hn0 Hpat) as [Hget [child Hchild]].
    pose proof (kp_child _ _ _ _ _ Hka Hn0 Hchild) as Hkchild.
    destruct (kp_node _ _ Hkchild) as [c0 Hc0].
    destruct (String.eqb part "") eqn:Hempty; [by apply wp_ret, stepPost_nil|].
    apply wp_bind. eapply wp_getNode_good; [done..|]. intros n1 (_ & Hc & _) Hv1.
    rewrite Hc, Hchild.
    destruct (restMatch matcher (join (part :: parts'))) eqn:Hrest.
    { apply wp_bind. eapply wp_writeProp_good; [done..|]. intros σ2 Hg2 Hle2.
      assert (validRef σ2 (pobj p)) as Hp2 by by eapply (validRef_le σ1).
      apply wp_bind, (wp_defined _ child); [done|].
      apply wp_bind. eapply wp_getNode_good; [done..|]. intros n2 _ Hv2.
      apply wp_bind. eapply wp_mono.
      { eapply getHandlerSets_good; [done..|exact Hp2]. }
      intros hs σ3 (Hg3 & Hle3 & Hhs). apply wp_ret.
      split; [done|]. split; [etrans; [done|]; by etrans|]. split.
      - intros x Hx. eapply served_found; [by apply Hhs|done|].
        by eapply matchFrom_rest.
      - by intros t ?%elem_of_nil. }
    destruct (partMatch matcher part) eqn:Hpart;
      [|by apply wp_ret, stepPost_nil].
    apply wp_bind. eapply wp_writeProp_good; [done..|]. intros σ2 Hg2 Hle2.
    assert (validRef σ2 (pobj p)) as Hp2 by by eapply (validRef_le σ1).
    case_bool_decide as Hlast.
    + apply wp_bind, (wp_defined _ child); [done|].
      apply wp_bind. eapply wp_getNode_good; [done..|]. intros n2 _ Hv2.
      apply wp_bind. eapply wp_mono; [by eapply getHandlerSets_good|].
      intros hs1 σ3 (Hg3 & Hle3 & Hhs1).
      apply wp_bind. eapply wp_getNode_good; [done..|]. intros c (_ & Hcc & _) _.
      rewrite Hcc. apply wp_bind.
      apply (wp_mono _ _ (λ hs σ4, good σ4 ∧ le σ3 σ4
                                   ∧ ∀ x, x ∈ hs → foundFrom ka (part :: parts') x)).
      { destruct (children c0 !! "*") as [astNode|] eqn:Hast.
        - pose proof (kp_child _ _ _ _ _ Hkchild Hc0 Hast) as Hkast.
          apply wp_bind. eapply wp_getNode_good; [done..|]. intros n3 _ Hv3.
          eapply wp_mono.
          { eapply getHandlerSets_good; [done..| |done]. by eapply validRef_le. }
          intros hs σ4 (Hg4 & Hle4 & Hhs). split; [done|]. split; [done|].
          intros x Hx. eapply served_found; [by apply Hhs| |].
          + by rewrite <-(assoc_L (++)) in Hkast.
          + eapply matchFrom_param; [done..|]. by rewrite bool_decide_eq_true_2.
        - apply wp_ret. split; [done|]. split; [done|].
          by intros x ?%elem_of_nil. }
      intros hs2 σ4 (Hg4 & Hle4 & Hhs2). apply wp_ret.
      split; [done|]. split; [repeat (etrans; [done|]); done|]. split.
      * intros x [Hx|Hx]%elem_of_app; [|by apply Hhs2].
        eapply served_found; [by apply Hhs1|done|].
        eapply matchFrom_param; [done..|]. by rewrite bool_decide_eq_true_2.
      * by intros t ?%elem_of_nil.
    + apply wp_bind, (wp_defined _ child); [done|].
      apply wp_bind. eapply wp_writeParams_good; [done|by eapply kp_valid|done|].
      intros σ3 Hg3 Hle3. apply wp_ret.
      split; [done|]. split; [repeat (etrans; [done|]); done|]. split.
      * by intros x ?%elem_of_nil.
      * intros t ->%list_elem_of_singleton. exists key. split; [done|].
        intros rs Hrs. eapply matchFrom_param; [done..|].
        by rewrite bool_decide_eq_false_2.
Qed.

Lemma stepPost_app ka part parts' σ σ1 σ2 r1 r2 :
  stepPost ka part parts' σ r1 σ1 → stepPost ka part parts' σ1 r2 σ2 →
  stepPost ka part parts' σ (r1.1 ++ r2.1, r1.2 ++ r2.2) σ2.
Proof.
  intros (_ & Hle1 & Hx1 & Ht1) (Hg2 & Hle2 & Hx2 & Ht2).
  split; [done|]. split; [by etrans|]. simpl.
  split; intros x [?|?]%elem_of_app; auto.
Qed.

Lemma searchPatterns_good node ka n0 part parts' ps σ :
  good σ → kp !! node = Some ka → nodes σ0 !! node = Some n0 →
  ps ⊆ patterns n0 →
  wp (searchPatterns node method part (join (part :: parts'))
        (bool_decide (parts' = [])) ps) σ
     (stepPost ka part parts' σ).
Proof.
  intros Hg Hka Hn0. revert σ Hg.
  induction ps as [|pattern ps IH]; intros σ Hg Hps;
    [by apply wp_ret, stepPost_nil|].
  cbn [searchPatterns]. apply wp_bind. eapply wp_mono.
  { eapply searchPattern_good; [done..|]. apply Hps. by left. }
  intros [hs1 t1] σ1 Hpost1. apply wp_bind. eapply wp_mono.
  { apply IH; [apply Hpost1|]. intros q Hq. apply Hps. by right. }
  intros [hs2 t2] σ2 Hpost2. apply wp_ret.
  apply (stepPost_app _ _ _ _ _ _ _ _ Hpost1 Hpost2).
Qed.

Lemma searchNode_good node ka part parts' σ :
  good σ → kp !! node = Some ka →
  wp (searchNode node method part (join (part :: parts'))
        (bool_decide (parts' = []))) σ
     (stepPost ka part parts' σ).
Proof.
  intros Hg Hka. unfold searchNode.
  destruct (kp_node _ _ Hka) as [n0 Hn0].
  apply wp_bind. eapply wp_mono; [by eapply searchLiteral_good|].
  intros [hs1 t1] σ1 Hpost1.
  apply wp_bind. eapply wp_getNode_good; [apply Hpost1|done|].
  intros n (_ & _ & Hp & _) _. rewrite Hp.
  apply wp_bind. eapply wp_mono.
  { eapply searchPatterns_good; [apply Hpost1|done..]. }
  intros [hs2 t2] σ2 Hpost2. apply wp_ret.
  apply (stepPost_app _ _ _ _ _ _ _ _ Hpost1 Hpost2).
Qed.

Lemma searchNodes_good curNodes part parts' σ :
  good σ → (∀ a, a ∈ curNodes → is_Some (kp !! a)) →
  wp (searchNodes curNodes method part (join (part :: parts'))
        (bool_decide (parts' = []))) σ
     (λ r σ', good σ' ∧ le σ σ'
              ∧ (∀ x, x ∈ r.1 → ∃ a ka, a ∈ curNodes ∧ kp !! a = Some ka
                                        ∧ foundFrom ka (part :: parts') x)
              ∧ (∀ t, t ∈ r.2 → ∃ a ka, a ∈ curNodes ∧ kp !! a = Some ka
                                        ∧ advFrom ka part parts' t)).
Proof.
  revert σ. induction curNodes as [|node curNodes IH]; intros σ Hg Hcur.
  { apply wp_ret. split; [done|]. split; [done|].
    split; intros x Hx; by apply elem_of_nil in Hx. }
  cbn [searchNodes]. destruct (Hcur node) as [ka Hka]; [by left|].
  apply wp_bind. eapply wp_mono; [by eapply searchNode_good|].
  intros [hs1 t1] σ1 (Hg1 & Hle1 & Hx1 & Ht1).
  apply wp_bind. eapply wp_mono.
  { apply IH; [done|]. intros a Ha. apply Hcur. by right. }
  intros [hs2 t2] σ2 (Hg2 & Hle2 & Hx2 & Ht2). apply wp_ret.
  split; [done|]. split; [by etrans|]. simpl in *. split.
  - intros x [Hx|Hx]%elem_of_app.
    + exists node, ka. split; [left|]. auto.
    + destruct (Hx2 x Hx) as (a & ka' & ? & ? & ?). exists a, ka'.
      split; [by right|done].
  - intros t [Ht|Ht]%elem_of_app.
    + exists node, ka. split; [left|]. auto.
    + destruct (Ht2 t Ht) as (a & ka' & ? & ? & ?). exists a, ka'.
      split; [by right|done].
Qed.

Lemma searchParts_good parts curNodes σ :
  good σ → (∀ a, a ∈ curNodes → is_Some (kp !! a)) →
  wp (searchParts parts curNodes method) σ
     (λ hs σ', good σ' ∧ le σ σ'
               ∧ ∀ x, x ∈ hs → ∃ a ka, a ∈ curNodes ∧ kp !! a = Some ka
                                       ∧ foundFrom ka parts x).
Proof.
  revert curNodes σ. induction parts as [|part parts' IH]; intros curNodes σ Hg Hcur.
  { apply wp_ret. split; [done|]. split; [done|]. by intros x ?%elem_of_nil. }
  cbn [searchParts]. apply wp_bind. eapply wp_mono; [by eapply searchNodes_good|].
  intros [hs1 tempNodes] σ1 (Hg1 & Hle1 & Hx1 & Ht1). simpl in Hx1, Ht1.
  apply wp_bind. eapply wp_mono.
  { apply IH; [done|]. intros t Ht.
    destruct (Ht1 t Ht) as (a & ka & _ & _ & r & Hkt & _). eauto. }
  intros hs2 σ2 (Hg2 & Hle2 & Hx2). apply wp_ret.
  split; [done|]. split; [by etrans|].
  intros x [Hx|Hx]%elem_of_app; [by apply Hx1|].
  destruct (Hx2 x Hx) as (t & kt & Ht & Hkt & m & path & h & rs & Hr & Hm & Hpath & Hrs).
  destruct (Ht1 t Ht) as (a & ka & Ha & Hka & r & Hkt' & Hadv).
  exists a, ka. split; [done|]. split; [done|].
  exists m, path, h, (r :: rs). split; [done|]. split; [done|]. split.
  - rewrite Hpath. replace kt with (ka ++ [r]) by congruence.
    by rewrite <-(assoc_L (++)).
  - by apply Hadv.
Qed.

Lemma readHandlerSets_good refs σ :
  good σ → (∀ x, x ∈ refs → x < length (hsets σ0)) →
  ∃ hs, readHandlerSets refs σ = Some (hs, σ) ∧ hs.*1 = refs.
Proof.
  intros Hg. induction refs as [|a refs IH]; intros Hrefs; [by exists []|].
  destruct (good_lookup_hs _ _ a Hg) as [h Hh]; [apply Hrefs; by left|].
  destruct IH as (hs & Hrun & Hfst); [intros x Hx; apply Hrefs; by right|].
  exists ((a, h) :: hs). split; [|by rewrite fmap_cons, Hfst].
  cbn [readHandlerSets]. rewrite (bind_run _ _ _ _ _ (getHS_run _ _ _ Hh)).
  by rewrite (bind_run _ _ _ _ _ Hrun).
Qed.

Lemma matched_valid parts x : matched parts x → x < length (hsets σ0).
Proof.
  intros (m & path & h & Hr & _). rewrite (inv_hsets_len _ _ _ HInv).
  by eapply lookup_lt_Some.
Qed.

Lemma searchRefs_good path σ :
  good σ →
  wp (searchRefs root method path) σ
     (λ refs σ', good σ' ∧ le σ σ' ∧ ∀ x, x ∈ refs → matched (splitPath path) x).
Proof.
  intros Hg. unfold searchRefs.
  pose proof (inv_root _ _ _ HInv) as Hroot.
  apply wp_bind. eapply wp_writeParams_good; [done|by eapply kp_valid|done|].
  intros σ1 Hg1 Hle1.
  apply wp_bind. eapply wp_mono.
  { apply (searchParts_good (splitPath path) [root]); [done|].
    intros a ->%list_elem_of_singleton. eauto. }
  intros handlerSets σ2 (Hg2 & Hle2 & Hfound).
  assert (∀ x, x ∈ handlerSets → matched (splitPath path) x) as Hmatched.
  { intros x Hx.
    destruct (Hfound x Hx) as (a & ka & ->%list_elem_of_singleton & Hka
                               & m & p & h & rs & Hr & Hm & Hp & Hrs).
    exists m, p, h. split; [done|]. split; [done|].
    rewrite Hp. replace ka with (@nil string) by congruence. done. }
  destruct (readHandlerSets_good handlerSets σ2 Hg2) as (hs & Hread & Hfst).
  { intros x Hx. by eapply matched_valid, Hmatched. }
  apply wp_bind. unfold wp at 1. rewrite Hread. apply wp_ret.
  split; [done|]. split; [by etrans|].
  destruct (1 <? length hs); [|done].
  intros x Hx. apply Hmatched. rewrite <-Hfst.
  by rewrite sortByScore_perm in Hx.
Qed.

Lemma search_good path σ :
  good σ →
  wp (search root method path) σ
     (λ res σ', good σ' ∧ le σ σ'
                ∧ ∀ hr, hr ∈ res →
                    ∃ m p, (m, p, hr.1) ∈ routes
                           ∧ (m = method ∨ m = METHOD_NAME_ALL)
                           ∧ matchFrom (splitRoutingPath p) (splitPath path) = true).
Proof.
  intros Hg. unfold search.
  apply wp_bind. eapply wp_mono; [by apply searchRefs_good|].
  intros refs σ1 (Hg1 & Hle1 & Hrefs).
  destruct (readHandlerSets_good refs σ1 Hg1) as (hs & Hread & Hfst).
  { intros x Hx. by eapply matched_valid, Hrefs. }
  apply wp_bind. unfold wp at 1. rewrite Hread. apply wp_ret.
  split; [done|]. split; [done|].
  intros hr ([a h] & -> & Hah)%list_elem_of_fmap. simpl.
  apply readHandlerSets_run in Hread as [_ Hall].
  apply list_elem_of_lookup in Hah as [i Hi].
  destruct (Forall2_lookup_r _ _ _ _ _ Hall Hi) as (a' & Ha' & Heq & Hh).
  simpl in Heq, Hh. subst a'.
  destruct (Hrefs a) as (m & p & h0 & Hr & Hm & Hmatch).
  { by eapply list_elem_of_lookup_2. }
  exists m, p. split; [|done].
  destruct (inv_hsets _ _ _ HInv _ _ _ _ Hr) as (hs0 & Hhs0 & <-).
  destruct Hg1 as [[_ Hsame] _].
  destruct (Forall2_lookup_l _ _ _ _ _ Hsame Hhs0) as (h' & Hh' & (Hhandler & _)).
  replace h with h' by congruence. rewrite Hhandler.
  by eapply list_elem_of_lookup_2.
Qed.

End Sound.

Section InsertInv.
Context {T : Type} {E : RegExpEngine}.
Implicit Types σ : State T.

Lemma labelPattern_key label key name matcher :
  labelPattern label = Some (PParam key name matcher) → key = label.
Proof.
  unfold labelPattern. destruct (String.eqb label "*"); [done|].
  destruct label as [|c rest]; [done|].
  destruct (negb _); [done|].
  destruct (breakAt _ rest) as [[nm tail]|].
  - destruct (stripLast _ tail); [|done].
    destruct (_ || _); [done|]. by intros [= <- _ _].
  - destruct (_ || _); [done|]. by intros [= <- _ _].
Qed.

Lemma Inv_empty : Inv (T:=T) [] [[]] emptyTrie.
Proof.
  split; try done.
  - intros [|a] n k c Hn Hc; [|done]. injection Hn as <-. done.
  - intros [|a] n key name matcher Hn Hp; [|done]. injection Hn as <-.
    by apply elem_of_nil in Hp.
  - intros [|a] n mm k x Hn Hmm; [|done]. injection Hn as <-.
    by apply elem_of_nil in Hmm.
Qed.

Lemma paramsValid_empty : paramsValid (T:=T) emptyTrie.
Proof. intros [|a] n Hn; [|done]. by injection Hn as <-. Qed.

(** Replacing a node by one with the same children, patterns and method
    maps. *)
Lemma Inv_update routes kp σ a n n' :
  Inv routes kp σ → nodes σ !! a = Some n →
  methods n' = methods n → children n' = children n → patterns n' = patterns n →
  Inv routes kp (mkState (<[a := n']> (nodes σ)) (hsets σ) (pobjs σ)).
Proof.
  intros HInv Ha Hm Hc Hp.
  assert (∀ b nb, <[a := n']> (nodes σ) !! b = Some nb →
            ∃ nb', nodes σ !! b = Some nb' ∧ methods nb = methods nb'
                   ∧ children nb = children nb' ∧ patterns nb = patterns nb')
    as Hlook.
  { intros b nb Hb. destruct (decide (a = b)) as [<-|Hne].
    - rewrite list_lookup_insert_eq in Hb by by eapply lookup_lt_Some.
      injection Hb as <-. eauto.
    - rewrite list_lookup_insert_ne in Hb by done. eauto. }
  destruct HInv as [Hlen Hroot Hchild Hpat Hmeth Hhs Hhl].
  split; simpl; try done.
  - by rewrite length_insert.
  - intros b nb k c Hb Hk. destruct (Hlook _ _ Hb) as (nb' & Hb' & _ & Hc' & _).
    rewrite Hc' in Hk. eauto.
  - intros b nb key name matcher Hb Hk.
    destruct (Hlook _ _ Hb) as (nb' & Hb' & _ & Hc' & Hp').
    rewrite Hp' in Hk. rewrite Hc'. eauto.
  - intros b nb mm k x Hb Hmm Hx.
    destruct (Hlook _ _ Hb) as (nb' & Hb' & Hm' & _ & _).
    rewrite Hm' in Hmm. eauto.
Qed.

Lemma paramsValid_update σ a n n' :
  paramsValid σ → nodes σ !! a = Some n → params n' = params n →
  paramsValid (mkState (<[a := n']> (nodes σ)) (hsets σ) (pobjs σ)).
Proof.
  intros Hv Ha Hp b nb Hb. simpl in Hb.
  destruct (decide (a = b)) as [<-|Hne].
  - rewrite list_lookup_insert_eq in Hb by by eapply lookup_lt_Some.
    injection Hb as <-. rewrite Hp. by apply (Hv a).
  - rewrite list_lookup_insert_ne in Hb by done. by apply (Hv b).
Qed.

Lemma withChild_lookup σ curNode n p b nb :
  nodes σ !! curNode = Some n →
  nodes (withChild σ curNode n p) !! b = Some nb →
  (b = curNode ∧ nb = mkNode (methods n) (<[p := length (nodes σ)]> (children n))
                             (patterns n ++ option_list (labelPattern p))
                             (order n) (params n))
  ∨ (b ≠ curNode ∧ nodes σ !! b = Some nb)
  ∨ (b = length (nodes σ) ∧ nb = newNode).
Proof.
  intros Hcur Hb. simpl in Hb.
  pose proof (lookup_lt_Some _ _ _ Hcur) as Hlt.
  destruct (decide (curNode = b)) as [<-|Hne].
  - rewrite list_lookup_insert_eq in Hb by (rewrite length_app; lia).
    injection Hb as <-. by left.
  - rewrite list_lookup_insert_ne in Hb by done. right.
    apply lookup_app_Some in Hb as [Hb|[Hge Hb]]; [by left|]. right.
    destruct (b - length (nodes σ)) as [|k] eqn:Hk; [|done].
    injection Hb as <-. split; [lia|done].
Qed.

Lemma Inv_withChild routes kp σ curNode ka n p :
  Inv routes kp σ → kp !! curNode = Some ka → nodes σ !! curNode = Some n →
  children n !! p = None →
  Inv routes (kp ++ [ka ++ [p]]) (withChild σ curNode n p).
Proof.
  intros HInv Hka Hcur Hnone.
  destruct HInv as [Hlen Hroot Hchild Hpat Hmeth Hhs Hhl].
  split; try done.
  - simpl. rewrite length_insert, !length_app. simpl. lia.
  - by apply lookup_app_l_Some.
  - intros b nb k c Hb Hk.
    destruct (withChild_lookup _ _ _ _ _ _ Hcur Hb)
      as [[-> ->]|[[Hne Hb']|[-> ->]]]; simpl in Hk.
    + exists ka. split; [by apply lookup_app_l_Some|].
      destruct (decide (p = k)) as [<-|Hpk].
      * rewrite lookup_insert_eq in Hk. injection Hk as <-.
        rewrite <-Hlen. by rewrite list_lookup_middle.
      * rewrite lookup_insert_ne in Hk by done.
        destruct (Hchild _ _ _ _ Hcur Hk) as (ka' & Hka' & Hc).
        apply lookup_app_l_Some. congruence.
    + destruct (Hchild _ _ _ _ Hb' Hk) as (kb & Hkb & Hc).
      exists kb. split; by apply lookup_app_l_Some.
    + by rewrite lookup_empty in Hk.
  - intros b nb key name matcher Hb Hk.
    destruct (withChild_lookup _ _ _ _ _ _ Hcur Hb)
      as [[-> ->]|[[Hne Hb']|[-> ->]]]; simpl in Hk |- *.
    + apply elem_of_app in Hk as [Hk|Hk].
      * destruct (Hpat _ _ _ _ _ Hcur Hk) as [Hget Hsome]. split; [done|].
        rewrite lookup_insert_is_Some. destruct (decide (p = key)); auto.
      * destruct (labelPattern p) as [pat|] eqn:Hget; simpl in Hk;
          [|by apply elem_of_nil in Hk].
        apply list_elem_of_singleton in Hk as <-.
        pose proof (labelPattern_key _ _ _ _ Hget) as ->.
        split; [done|]. rewrite lookup_insert_eq. eauto.
    + eauto.
    + by apply elem_of_nil in Hk.
  - intros b nb mm k x Hb Hmm Hx.
    destruct (withChild_lookup _ _ _ _ _ _ Hcur Hb)
      as [[-> ->]|[[Hne Hb']|[-> ->]]]; simpl in Hmm.
    + destruct (Hmeth _ _ _ _ _ Hcur Hmm Hx) as (path & h & Hr & Hk).
      exists path, h. split; [done|]. by apply lookup_app_l_Some.
    + destruct (Hmeth _ _ _ _ _ Hb' Hmm Hx) as (path & h & Hr & Hk).
      exists path, h. split; [done|]. by apply lookup_app_l_Some.
    + by apply elem_of_nil in Hmm.
Qed.

Lemma paramsValid_withChild σ curNode n p :
  paramsValid σ → nodes σ !! curNode = Some n →
  paramsValid (withChild σ curNode n p).
Proof.
  intros Hv Hcur b nb Hb.
  destruct (withChild_lookup _ _ _ _ _ _ Hcur Hb)
    as [[-> ->]|[[Hne Hb']|[-> ->]]]; simpl.
  - by apply (Hv curNode).
  - by apply (Hv b).
  - done.
Qed.

Lemma writeChild_run σ a n p c :
  nodes σ !! a = Some n →
  writeChild a p c σ
  = Some (tt, mkState
                (<[a := mkNode (methods n) (<[p := c]> (children n)) (patterns n)
                               (order n) (params n)]> (nodes σ))
                (hsets σ) (pobjs σ)).
Proof.
  intros Hn. unfold writeChild.
  by rewrite (bind_run _ _ _ _ _ (getNode_run _ _ _ Hn)).
Qed.

Lemma pushPattern_run σ a n pattern :
  nodes σ !! a = Some n →
  pushPattern a pattern σ
  = Some (tt, mkState
                (<[a := mkNode (methods n) (children n) (patterns n ++ [pattern])
                               (order n) (params n)]> (nodes σ))
                (hsets σ) (pobjs σ)).
Proof.
  intros Hn. unfold pushPattern.
  by rewrite (bind_run _ _ _ _ _ (getNode_run _ _ _ Hn)).
Qed.

Lemma writeOrder_run σ a n k :
  nodes σ !! a = Some n →
  writeOrder a k σ
  = Some (tt, mkState
                (<[a := mkNode (methods n) (children n) (patterns n) k
                               (params n)]> (nodes σ))
                (hsets σ) (pobjs σ)).
Proof.
  intros Hn. unfold writeOrder.
  by rewrite (bind_run _ _ _ _ _ (getNode_run _ _ _ Hn)).
Qed.

Lemma pushMethods_run σ a n m :
  nodes σ !! a = Some n →
  pushMethods a m σ
  = Some (tt, mkState
                (<[a := mkNode (methods n ++ [m]) (children n) (patterns n)
                               (order n) (params n)]> (nodes σ))
                (hsets σ) (pobjs σ)).
Proof.
  intros Hn. unfold pushMethods.
  by rewrite (bind_run _ _ _ _ _ (getNode_run _ _ _ Hn)).
Qed.

Lemma insertParts_inv routes parts :
  ∀ curNode ka keys kp σ,
    Inv routes kp σ → paramsValid σ → kp !! curNode = Some ka →
    forallb wellFormed parts = true →
    ∃ leaf keys' kp' σ',
      insertParts parts curNode keys σ = Some ((leaf, keys'), σ')
      ∧ Inv routes kp' σ' ∧ paramsValid σ' ∧ kp' !! leaf = Some (ka ++ parts).
Proof.
  induction parts as [|p parts IH]; intros curNode ka keys kp σ HInv Hv Hka Hwf.
  { exists curNode, keys, kp, σ. by rewrite app_nil_r. }
  cbn [forallb] in Hwf. apply andb_true_iff in Hwf as [Hp Hwf].
  assert (is_Some (nodes σ !! curNode)) as [n Hn].
  { apply lookup_lt_is_Some_2. rewrite <-(inv_len _ _ _ HInv).
    by eapply lookup_lt_Some. }
  cbn [insertParts]. rewrite (bind_run _ _ _ _ _ (getNode_run _ _ _ Hn)).
  destruct (children n !! p) as [c|] eqn:Hc.
  - destruct (inv_child _ _ _ HInv _ _ _ _ Hn Hc) as (ka' & Hka' & Hkc).
    replace ka' with ka in Hkc by congruence.
    rewrite (bind_run _ _ _ _ _ (getPattern_run _ _ Hp)).
    destruct (IH c (ka ++ [p])
                (match labelPattern p with
                 | Some pattern => keys ++ [pattern_1 pattern]
                 | None => keys
                 end) kp σ HInv Hv Hkc Hwf)
      as (leaf & keys' & kp' & σ' & Hrun & HInv' & Hv' & Hleaf).
    exists leaf, keys', kp', σ'. rewrite <-(assoc_L (++)) in Hleaf. done.
  - pose proof (Inv_withChild _ _ _ _ _ _ p HInv Hka Hn Hc) as HInv1.
    pose proof (paramsValid_withChild _ _ _ p Hv Hn) as Hv1.
    assert ((kp ++ [ka ++ [p]]) !! length (nodes σ) = Some (ka ++ [p])) as Hkc.
    { rewrite <-(inv_len _ _ _ HInv). by rewrite list_lookup_middle. }
    assert (∃ keys1,
              (allocNode newNode ≫= λ c,
                writeChild curNode p c ≫= λ _,
                  getPattern p ≫= λ pattern,
                  (match pattern with
                   | Some pattern =>
                       pushPattern curNode pattern ≫= λ _,
                         mret (keys ++ [pattern_1 pattern])
                   | None => mret keys
                   end) ≫= λ possibleKeys',
                    insertParts parts c possibleKeys') σ
              = insertParts parts (length (nodes σ)) keys1
                  (withChild σ curNode n p)) as [keys1 ->].
    { unfold mbind at 1, M_bind at 1, allocNode.
      assert ((nodes σ ++ [newNode]) !! curNode = Some n) as Hn1
        by by apply lookup_app_l_Some.
      rewrite (bind_run _ _ _ _ _ (writeChild_run (mkState _ _ _) _ _ _ _ Hn1)).
      rewrite (bind_run _ _ _ _ _ (getPattern_run _ _ Hp)).
      unfold withChild. cbn [nodes hsets pobjs].
      destruct (labelPattern p) as [pattern|]; simpl option_list.
      - exists (keys ++ [pattern_1 pattern]).
        erewrite bind_run; [reflexivity|].
        erewrite bind_run; [reflexivity|].
        erewrite pushPattern_run; cycle 1.
        { simpl. apply list_lookup_insert_eq.
          rewrite length_app. eapply lookup_lt_Some in Hn. lia. }
        simpl. by rewrite list_insert_insert_eq.
      - exists keys. by rewrite app_nil_r. }
    destruct (IH (length (nodes σ)) (ka ++ [p]) keys1 _ _ HInv1 Hv1 Hkc Hwf)
      as (leaf & keys' & kp' & σ' & Hrun & HInv' & Hv' & Hleaf).
    exists leaf, keys', kp', σ'. rewrite <-(assoc_L (++)) in Hleaf. done.
Qed.

Lemma Inv_withRoute routes kp σ leaf c m path h keys sc :
  Inv routes kp σ → nodes σ !! leaf = Some c →
  kp !! leaf = Some (splitRoutingPath path) →
  Inv (routes ++ [(m, path, h)]) kp
    (mkState
       (<[leaf := mkNode (methods c ++ [ {[ m := length (hsets σ) ]} ])
                         (children c) (patterns c) (order c) (params c)]>
          (nodes σ))
       (hsets σ ++ [mkHandlerSet h keys sc None]) (pobjs σ)).
Proof.
  intros HInv Hleaf Hkp.
  set (c' := mkNode (methods c ++ [ {[ m := length (hsets σ) ]} ])
                    (children c) (patterns c) (order c) (params c)).
  assert (∀ b nb, <[leaf := c']> (nodes σ) !! b = Some nb →
            (b = leaf ∧ nb = c') ∨ (b ≠ leaf ∧ nodes σ !! b = Some nb)) as Hlook.
  { intros b nb Hb. destruct (decide (leaf = b)) as [<-|Hne].
    - rewrite list_lookup_insert_eq in Hb by by eapply lookup_lt_Some.
      injection Hb as <-. by left.
    - rewrite list_lookup_insert_ne in Hb by done. by right. }
  destruct HInv as [Hlen Hroot Hchild Hpat Hmeth Hhs Hhl].
  split; simpl; try done.
  - by rewrite length_insert.
  - intros b nb k x Hb Hk. destruct (Hlook _ _ Hb) as [[-> ->]|[_ Hb']]; eauto.
  - intros b nb key name matcher Hb Hk.
    destruct (Hlook _ _ Hb) as [[-> ->]|[_ Hb']];
      [by apply (Hpat leaf c)|by apply (Hpat b nb)].
  - intros b nb mm k x Hb Hmm Hx.
    destruct (Hlook _ _ Hb) as [[-> ->]|[_ Hb']].
    + simpl in Hmm. apply elem_of_app in Hmm as [Hmm|Hmm].
      * destruct (Hmeth _ _ _ _ _ Hleaf Hmm Hx) as (path' & h' & Hr & Hk).
        exists path', h'. split; [by apply lookup_app_l_Some|done].
      * apply list_elem_of_singleton in Hmm as ->.
        apply lookup_singleton_Some in Hx as [<- <-].
        exists path, h. split; [|done]. rewrite Hhl. by rewrite list_lookup_middle.
    + destruct (Hmeth _ _ _ _ _ Hb' Hmm Hx) as (path' & h' & Hr & Hk).
      exists path', h'. split; [by apply lookup_app_l_Some|done].
  - intros x m' path' h' Hx.
    apply lookup_app_Some in Hx as [Hx|[Hge Hx]].
    + destruct (Hhs _ _ _ _ Hx) as (hs & Hhs' & Hh).
      exists hs. split; [by apply lookup_app_l_Some|done].
    + apply list_lookup_singleton_Some in Hx as [Hk [= <- <- <-]].
      exists (mkHandlerSet h keys sc None). split; [|done].
      assert (x = length routes) as ->
        by (apply Nat.le_antisymm; [by apply Nat.sub_0_le|done]).
      rewrite <-Hhl. by rewrite list_lookup_middle.
  - rewrite !length_app. simpl. lia.
Qed.

(** The registration of a route whose constraints are well formed
    returns, and keeps the invariants. *)
Lemma insert_inv routes kp σ method path h :
  Inv routes kp σ → paramsValid σ → compiles path = true →
  ∃ leaf kp' σ',
    insert root method path h σ = Some (leaf, σ')
    ∧ Inv (routes ++ [(method, path, h)]) kp' σ' ∧ paramsValid σ'.
Proof.
  intros HInv Hv Hwf. unfold insert.
  assert (is_Some (nodes σ !! root)) as [n Hn].
  { apply lookup_lt_is_Some_2. rewrite <-(inv_len _ _ _ HInv).
    eapply lookup_lt_Some, (inv_root _ _ _ HInv). }
  rewrite (bind_run _ _ _ _ _ (getNode_run _ _ _ Hn)).
  rewrite (bind_run _ _ _ _ _ (writeOrder_run _ _ _ _ Hn)).
  set (n1 := mkNode (methods n) (children n) (patterns n) (S (order n)) (params n)).
  pose proof (Inv_update _ _ _ _ _ n1 HInv Hn eq_refl eq_refl eq_refl) as HInv1.
  pose proof (paramsValid_update _ _ _ n1 Hv Hn eq_refl) as Hv1.
  destruct (insertParts_inv routes (splitRoutingPath path) root [] [] kp _
              HInv1 Hv1 (inv_root _ _ _ HInv) Hwf)
    as (leaf & keys & kp' & σ2 & Hrun & HInv2 & Hv2 & Hleaf).
  rewrite (bind_run _ _ _ _ _ Hrun). cbv beta iota.
  assert (is_Some (nodes σ2 !! root)) as [n2 Hn2].
  { apply lookup_lt_is_Some_2. rewrite <-(inv_len _ _ _ HInv2).
    eapply lookup_lt_Some, (inv_root _ _ _ HInv2). }
  assert (is_Some (nodes σ2 !! leaf)) as [c Hc].
  { apply lookup_lt_is_Some_2. rewrite <-(inv_len _ _ _ HInv2).
    by eapply lookup_lt_Some. }
  rewrite (bind_run _ _ _ _ _ (getNode_run _ _ _ Hn2)).
  unfold mbind at 1, M_bind at 1, allocHS.
  rewrite (bind_run _ _ _ _ _
             (pushMethods_run (mkState (nodes σ2) (hsets σ2 ++ [_]) (pobjs σ2))
                leaf c _ Hc)).
  exists leaf, kp'. eexists. split; [reflexivity|].
  cbn [nodes hsets pobjs]. split.
  - by apply Inv_withRoute.
  - eapply (paramsValid_le
              (mkState (<[leaf := mkNode
                           (methods c ++ [ {[ method := length (hsets σ2) ]} ])
                           (children c) (patterns c) (order c) (params c)]>
                          (nodes σ2)) (hsets σ2) (pobjs σ2)));
      [by apply (paramsValid_update _ _ c)|done|by unfold le].
Qed.

(** A registration that returns was one of a route whose constraints
    are well formed. *)
Lemma insertParts_compiles parts :
  ∀ curNode keys σ r σ',
    insertParts parts curNode keys σ = Some (r, σ') →
    forallb wellFormed parts = true.
Proof.
  induction parts as [|p parts IH]; intros curNode keys σ r σ' Hrun; [done|].
  cbn [insertParts forallb] in *.
  apply bind_inv in Hrun as (n & σ1 & _ & Hrun).
  destruct (children n !! p) as [c|].
  - apply bind_inv in Hrun as (pat & σ2 & (_ & _ & ->)%getPattern_inv & Hrun).
    by rewrite (IH _ _ _ _ _ Hrun).
  - apply bind_inv in Hrun as (c & σ2 & _ & Hrun).
    apply bind_inv in Hrun as ([] & σ3 & _ & Hrun).
    apply bind_inv in Hrun as (pat & σ4 & (_ & _ & ->)%getPattern_inv & Hrun).
    apply bind_inv in Hrun as (keys' & σ5 & _ & Hrun).
    by rewrite (IH _ _ _ _ _ Hrun).
Qed.

Lemma insert_compiles this method path h (σ σ' : State T) leaf :
  insert this method path h σ = Some (leaf, σ') → compiles path = true.
Proof.
  unfold insert. intros Hrun.
  apply bind_inv in Hrun as (n & σ1 & _ & Hrun).
  apply bind_inv in Hrun as ([] & σ2 & _ & Hrun).
  apply bind_inv in Hrun as ([c keys] & σ3 & Hparts & _).
  by eapply insertParts_compiles.
Qed.

Lemma insert_malformed this method path h (σ : State T) :
  compiles path = false → insert this method path h σ = None.
Proof.
  intros Hc. destruct (insert this method path h σ) as [[leaf σ']|] eqn:Hrun; [|done].
  apply insert_compiles in Hrun. congruence.
Qed.

Lemma insertAll_inv routes' :
  ∀ routes kp σ σ',
    Inv routes kp σ → paramsValid σ → insertAll routes' σ = Some σ' →
    ∃ kp', Inv (routes ++ routes') kp' σ' ∧ paramsValid σ'.
Proof.
  induction routes' as [|[[method path] h] routes' IH];
    intros routes kp σ σ' HInv Hv Hrun.
  { injection Hrun as <-. exists kp. by rewrite app_nil_r. }
  cbn [insertAll] in Hrun.
  destruct (insert root method path h σ) as [[leaf σ1]|] eqn:Hins; [|done].
  destruct (insert_inv _ _ _ method path h HInv Hv (insert_compiles _ _ _ _ _ _ _ Hins))
    as (leaf' & kp1 & σ1' & Hins' & HInv1 & Hv1).
  assert (σ1' = σ1) as -> by congruence.
  destruct (IH _ _ _ _ HInv1 Hv1 Hrun) as (kp' & HInv' & Hv').
  exists kp'. by rewrite <-(assoc_L (++)) in HInv'.
Qed.

(** The registrations of routes whose constraints are well formed
    return. *)
Lemma insertAll_compiles routes' :
  ∀ routes kp σ,
    Inv routes kp σ → paramsValid σ →
    Forall (λ r : Route T, compiles r.1.2 = true) routes' →
    ∃ σ', insertAll routes' σ = Some σ'.
Proof.
  induction routes' as [|[[method path] h] routes' IH];
    intros routes kp σ HInv Hv Hall.
  { by exists σ. }
  apply Forall_cons in Hall as [Hwf Hall]. simpl in Hwf.
  destruct (insert_inv _ _ _ method path h HInv Hv Hwf)
    as (leaf & kp1 & σ1 & Hins & HInv1 & Hv1).
  destruct (IH _ _ _ HInv1 Hv1 Hall) as [σ' Hrun].
  exists σ'. cbn [insertAll]. by rewrite Hins.
Qed.

End InsertInv.

Section Unmatched.
Context {T : Type} {E : RegExpEngine}.
Implicit Types σ : State T.

Lemma insertAll_built (routes : list (Route T)) σ :
  insertAll routes emptyTrie = Some σ →
  ∃ kp, Inv routes kp σ ∧ paramsValid σ.
Proof.
  intros Hrun.
  by destruct (insertAll_inv routes [] [[]] emptyTrie σ Inv_empty
                 paramsValid_empty Hrun) as (kp & HInv & Hv); eauto.
Qed.

(** A search of a store built by registrations returns, and every handler
    it returns belongs to a registration that matches the request. *)
Lemma search_sound routes kp σ0 σ method path :
  Inv routes kp σ0 → good σ0 σ →
  ∃ res σ',
    search root method path σ = Some (res, σ') ∧ good σ0 σ'
    ∧ ∀ hr, hr ∈ res → ∃ r, r ∈ routes ∧ r.2 = hr.1
                             ∧ routeMatches r method path = true.
Proof.
  intros HInv Hg.
  destruct (wp_run _ _ _ (search_good routes kp σ0 HInv method path σ Hg))
    as (res & σ' & Hrun & Hg' & _ & Hres).
  exists res, σ'. split; [done|]. split; [done|].
  intros hr Hhr. destruct (Hres hr Hhr) as (m & p & Hin & Hm & Hmatch).
  exists (m, p, hr.1). split; [done|]. split; [done|].
  unfold routeMatches. simpl. rewrite Hmatch, andb_true_r.
  destruct Hm as [->| ->].
  - by rewrite bool_decide_eq_true_2.
  - rewrite (bool_decide_eq_true_2 (METHOD_NAME_ALL = METHOD_NAME_ALL)) by done.
    apply orb_true_r.
Qed.

Lemma serve_good routes kp σ0 reqs :
  Inv routes kp σ0 →
  ∀ σ, good σ0 σ → ∃ σ', serve reqs σ = Some σ' ∧ good σ0 σ'.
Proof.
  intros HInv. induction reqs as [|[method path] reqs IH]; intros σ Hg.
  { by exists σ. }
  destruct (search_sound _ _ _ _ method path HInv Hg) as (res & σ1 & Hrun & Hg1 & _).
  destruct (IH σ1 Hg1) as (σ' & Hserve & Hg').
  exists σ'. cbn [serve]. by rewrite Hrun.
Qed.

End Unmatched.

(** ** A second registration of a path *)

Section Walk.
Context {T : Type} {E : RegExpEngine}.
Implicit Types σ : State T.

Global Instance grows_refl : Reflexive (grows (T:=T)).
Proof. intros σ a n Hn. eauto. Qed.

Global Instance grows_trans : Transitive (grows (T:=T)).
Proof.
  intros σ1 σ2 σ3 H12 H23 a n Hn.
  destruct (H12 _ _ Hn) as (n' & Hn' & Ho' & Hc').
  destruct (H23 _ _ Hn') as (n'' & Hn'' & Ho'' & Hc'').
  exists n''. split; [done|]. split; [congruence|]. eauto.
Qed.

Lemma grows_edgesLe σ σ' : grows σ σ' → edgesLe σ σ'.
Proof.
  intros Hg a n Hn. destruct (Hg _ _ Hn) as (n' & Hn' & _ & Hc'). eauto.
Qed.

Lemma edgesLe_update σ a n n' hs ps :
  nodes σ !! a = Some n →
  (∀ k c, children n !! k = Some c → children n' !! k = Some c) →
  edgesLe σ (mkState (<[a := n']> (nodes σ)) hs ps).
Proof.
  intros Ha Hsub b nb Hb. simpl.
  destruct (decide (a = b)) as [<-|Hne].
  - rewrite list_lookup_insert_eq by by eapply lookup_lt_Some.
    exists n'. replace nb with n by congruence. done.
  - rewrite list_lookup_insert_ne by done. eauto.
Qed.

Lemma walk_mono σ σ' cur parts leaf :
  edgesLe σ σ' → walk σ cur parts = Some leaf → walk σ' cur parts = Some leaf.
Proof.
  intros Hle. revert cur. induction parts as [|p parts IH]; intros cur; [done|].
  cbn [walk]. destruct (nodes σ !! cur) as [n|] eqn:Hn; [|done]. simpl.
  destruct (children n !! p) as [c|] eqn:Hc; [|done]. simpl. intros Hw.
  destruct (Hle _ _ Hn) as (n' & -> & Hc'). simpl.
  rewrite (Hc' _ _ Hc). simpl. by apply IH.
Qed.

(** On an existing path, the loop of [insert] creates nothing. *)
Lemma insertParts_walk σ parts cur keys leaf :
  forallb wellFormed parts = true →
  walk σ cur parts = Some leaf →
  insertParts parts cur keys σ = Some ((leaf, keys ++ keysOf parts), σ).
Proof.
  revert cur keys. induction parts as [|p parts IH]; intros cur keys Hwf.
  { intros [= ->]. by rewrite app_nil_r. }
  cbn [forallb] in Hwf. apply andb_true_iff in Hwf as [Hp Hwf].
  cbn [walk insertParts keysOf].
  destruct (nodes σ !! cur) as [n|] eqn:Hn; [|done]. simpl.
  destruct (children n !! p) as [c|] eqn:Hc; [|done]. simpl. intros Hw.
  rewrite (bind_run _ _ _ _ _ (getNode_run _ _ _ Hn)), Hc.
  rewrite (bind_run _ _ _ _ _ (getPattern_run _ _ Hp)).
  rewrite (IH _ _ Hwf Hw). destruct (labelPattern p); [|done].
  by rewrite <-(assoc_L (++)).
Qed.

(** Replacing a node by one with the same children keeps the edges. *)
Lemma grows_update σ a n n' hs ps :
  nodes σ !! a = Some n → order n' = order n →
  (∀ k c, children n !! k = Some c → children n' !! k = Some c) →
  grows σ (mkState (<[a := n']> (nodes σ)) hs ps).
Proof.
  intros Ha Ho Hsub b nb Hb. simpl.
  destruct (decide (a = b)) as [<-|Hne].
  - rewrite list_lookup_insert_eq by by eapply lookup_lt_Some.
    exists n'. replace nb with n by congruence. done.
  - rewrite list_lookup_insert_ne by done. eauto.
Qed.

Lemma grows_alloc σ n :
  grows σ (mkState (nodes σ ++ [n]) (hsets σ) (pobjs σ)).
Proof.
  intros b nb Hb. simpl. exists nb. split; [|done].
  by apply lookup_app_l_Some.
Qed.

(** The loop of [insert] keeps the edges and leaves the path in place. *)
Lemma insertParts_edges parts :
  ∀ cur keys σ leaf keys' σ',
    insertParts parts cur keys σ = Some ((leaf, keys'), σ') →
    grows σ σ' ∧ walk σ' cur parts = Some leaf
    ∧ keys' = keys ++ keysOf parts
    ∧ hsets σ' = hsets σ ∧ pobjs σ' = pobjs σ.
Proof.
  induction parts as [|p parts IH]; intros cur keys σ leaf keys' σ' Hrun.
  { injection Hrun as <- <- <-. by rewrite app_nil_r. }
  cbn [insertParts] in Hrun.
  apply bind_inv in Hrun as (n & σ0 & Hget & Hrun).
  unfold getNode in Hget. destruct (nodes σ !! cur) as [n'|] eqn:Hn; [|done].
  injection Hget as -> <-.
  destruct (children n !! p) as [c|] eqn:Hc.
  - apply bind_inv in Hrun as (pat & σ1 & (-> & -> & _)%getPattern_inv & Hrun).
    destruct (IH _ _ _ _ _ _ Hrun) as (Hle & Hw & -> & Hh & Hp).
    split; [done|]. split; [|split; [|done]].
    + cbn [walk]. destruct (Hle _ _ Hn) as (n' & Hn' & _ & Hc').
      rewrite Hn'. simpl. by rewrite (Hc' _ _ Hc).
    + cbn [keysOf]. destruct (labelPattern p); [|done].
      by rewrite <-(assoc_L (++)).
  - apply bind_inv in Hrun as (c & σ1 & Halloc & Hrun).
    injection Halloc as <- <-.
    apply bind_inv in Hrun as ([] & σ2 & Hwrite & Hrun).
    assert ((nodes σ ++ [newNode]) !! cur = Some n) as Hn1
      by by apply lookup_app_l_Some.
    rewrite (writeChild_run (mkState _ _ _) _ _ _ _ Hn1) in Hwrite.
    injection Hwrite as <-. cbn [nodes hsets pobjs] in Hrun.
    set (n2 := mkNode (methods n) (<[p := length (nodes σ)]> (children n))
                      (patterns n) (order n) (params n)) in Hrun.
    set (σ2 := mkState (<[cur := n2]> (nodes σ ++ [newNode])) (hsets σ) (pobjs σ))
      in Hrun.
    assert (grows σ σ2) as Hle2.
    { etrans; [apply (grows_alloc σ newNode)|].
      apply (grows_update (mkState _ _ _) cur n); [done..|].
      intros k c Hk. simpl. rewrite lookup_insert_ne; [done|]. congruence. }
    assert (nodes σ2 !! cur = Some n2) as Hn2.
    { simpl. apply list_lookup_insert_eq. rewrite length_app.
      eapply lookup_lt_Some in Hn. lia. }
    apply bind_inv in Hrun as (pat & σ2' & (-> & -> & _)%getPattern_inv & Hrun).
    apply bind_inv in Hrun as (keys1 & σ3 & Hpat & Hrun).
    assert (keys ++ keysOf (p :: parts) = keys1 ++ keysOf parts
            ∧ grows σ2 σ3 ∧ hsets σ3 = hsets σ ∧ pobjs σ3 = pobjs σ
            ∧ ∃ n3, nodes σ3 !! cur = Some n3
                    ∧ children n3 !! p = Some (length (nodes σ)))
      as (Hkeys & Hle3 & Hh3 & Hp3 & n3 & Hn3 & Hc3).
    { cbn [keysOf]. destruct (labelPattern p) as [pattern|].
      - apply bind_inv in Hpat as ([] & σ3' & Hpush & Hret).
        injection Hret as <- <-.
        rewrite (pushPattern_run _ _ _ _ Hn2) in Hpush. injection Hpush as <-.
        split; [by rewrite <-(assoc_L (++))|]. split.
        { by apply (grows_update σ2 cur n2 _ (hsets σ) (pobjs σ) Hn2). }
        split; [done|]. split; [done|]. eexists. split.
        { simpl. apply list_lookup_insert_eq. by eapply lookup_lt_Some. }
        simpl. apply lookup_insert_eq.
      - injection Hpat as <- <-. split; [done|]. split; [done|].
        split; [done|]. split; [done|]. exists n2. split; [done|].
        apply lookup_insert_eq. }
    destruct (IH _ _ _ _ _ _ Hrun) as (Hle & Hw & -> & Hh & Hp).
    split; [by repeat (etrans; [done|])|]. split; [|split; [done|]].
    + cbn [walk]. destruct (Hle _ _ Hn3) as (n' & Hn' & _ & Hc').
      rewrite Hn'. simpl. by rewrite (Hc' _ _ Hc3).
    + split; congruence.
Qed.

(** What a registration does to the store: [σb] is the store after the
    loop over the segments. *)
Lemma insert_inv_run σ method path h leaf σ1 :
  insert root method path h σ = Some (leaf, σ1) →
  ∃ (σb : State T) (n nb c : Node),
    walk σb root (splitRoutingPath path) = Some leaf
    ∧ nodes σ !! root = Some n
    ∧ nodes σb !! root = Some nb ∧ order nb = S (order n)
    ∧ nodes σb !! leaf = Some c
    ∧ σ1 = mkState
             (<[leaf := mkNode (methods c ++ [ {[ method := length (hsets σ) ]} ])
                               (children c) (patterns c) (order c) (params c)]>
                (nodes σb))
             (hsets σ ++ [mkHandlerSet h (firstOccurrences
                                            (keysOf (splitRoutingPath path)))
                                       (order nb) None])
             (pobjs σb).
Proof.
  unfold insert. intros Hrun.
  apply bind_inv in Hrun as (n & σ0 & Hget & Hrun).
  unfold getNode in Hget. destruct (nodes σ !! root) as [n'|] eqn:Hn; [|done].
  injection Hget as -> <-.
  apply bind_inv in Hrun as ([] & σa & Hord & Hrun).
  rewrite (writeOrder_run _ _ _ _ Hn) in Hord. injection Hord as <-.
  apply bind_inv in Hrun as ([cur keys] & σb & Hparts & Hrun).
  destruct (insertParts_edges _ _ _ _ _ _ _ Hparts) as (Hle & Hw & -> & Hh & Hp).
  apply bind_inv in Hrun as (nb & σb' & Hget & Hrun).
  unfold getNode in Hget. destruct (nodes σb !! root) as [nb'|] eqn:Hnb; [|done].
  injection Hget as -> <-.
  apply bind_inv in Hrun as (x & σc & Halloc & Hrun).
  injection Halloc as <- <-.
  apply bind_inv in Hrun as ([] & σd & Hpush & Hret).
  injection Hret as <- <-.
  unfold pushMethods in Hpush.
  apply bind_inv in Hpush as (c & σc & Hget & Hset).
  unfold getNode in Hget. cbn [nodes] in Hget.
  destruct (nodes σb !! cur) as [c'|] eqn:Hc; [|done].
  injection Hget as -> <-. injection Hset as <-.
  exists σb, n, nb, c. split; [done|]. split; [done|]. split; [done|].
  split; [|split; [done|]].
  - destruct (Hle root (mkNode (methods n) (children n) (patterns n)
                               (S (order n)) (params n)))
      as (nb' & Hnb' & Ho & _).
    { simpl. apply list_lookup_insert_eq. by eapply lookup_lt_Some. }
    replace nb with nb' by congruence. done.
  - cbn [nodes hsets pobjs]. simpl in Hh. by rewrite Hh.
Qed.

Lemma fmap_insert_same {A B} (f : A → B) (l : list A) i x y :
  l !! i = Some y → f x = f y → f <$> <[i:=x]> l = f <$> l.
Proof.
  intros Hl Hf. rewrite list_fmap_insert, Hf. apply list_insert_id.
  by rewrite list_lookup_fmap, Hl.
Qed.

(** Registering a route a second time creates no node, no child key and
    no pattern: the path of the first registration is followed to the
    same leaf, which receives a second method map, and the handler set
    of the second registration has the next score. *)
Lemma insert_again σ method path h1 leaf σ1 method' h2 :
  insert root method path h1 σ = Some (leaf, σ1) →
  ∃ σ2 ms keys sc,
    insert root method' path h2 σ1 = Some (leaf, σ2)
    ∧ length (nodes σ2) = length (nodes σ1)
    ∧ children <$> nodes σ2 = children <$> nodes σ1
    ∧ patterns <$> nodes σ2 = patterns <$> nodes σ1
    ∧ methods <$> nodes σ1 !! leaf
      = Some (ms ++ [ {[ method := length (hsets σ) ]} ])
    ∧ methods <$> nodes σ2 !! leaf
      = Some (ms ++ [ {[ method := length (hsets σ) ]};
                      {[ method' := S (length (hsets σ)) ]} ])
    ∧ hsets σ1 = hsets σ ++ [mkHandlerSet h1 keys sc None]
    ∧ hsets σ2 = hsets σ ++ [mkHandlerSet h1 keys sc None;
                             mkHandlerSet h2 keys (S sc) None].
Proof.
  intros Hrun1. pose proof (insert_compiles _ _ _ _ _ _ _ Hrun1) as Hwf.
  destruct (insert_inv_run _ _ _ _ _ _ Hrun1)
    as (σb & n & nb & c & Hw & Hn & Hnb & Hord & Hc & ->).
  set (c1 := mkNode (methods c ++ [ {[ method := length (hsets σ) ]} ])
                    (children c) (patterns c) (order c) (params c)).
  set (keys := firstOccurrences (keysOf (splitRoutingPath path))).
  set (σ1 := mkState (<[leaf := c1]> (nodes σb))
               (hsets σ ++ [mkHandlerSet h1 keys (order nb) None]) (pobjs σb)).
  assert (grows σb σ1) as Hle1 by by apply (grows_update σb leaf c).
  destruct (Hle1 _ _ Hnb) as (r1 & Hr1 & Ho1 & _).
  assert (nodes σ1 !! leaf = Some c1) as Hc1.
  { simpl. apply list_lookup_insert_eq. by eapply lookup_lt_Some. }
  set (r2 := mkNode (methods r1) (children r1) (patterns r1) (S (order r1))
                    (params r1)).
  set (σa := mkState (<[root := r2]> (nodes σ1)) (hsets σ1) (pobjs σ1)).
  assert (walk σa root (splitRoutingPath path) = Some leaf) as Hwa.
  { eapply walk_mono; [|eapply walk_mono; [exact (grows_edgesLe _ _ Hle1)|exact Hw]].
    by apply (edgesLe_update σ1 root r1). }
  assert (nodes σa !! root = Some r2) as Hr2.
  { simpl. apply list_lookup_insert_eq. by eapply lookup_lt_Some. }
  assert (∃ c2, nodes σa !! leaf = Some c2 ∧ methods c2 = methods c1
                ∧ children c2 = children c1 ∧ patterns c2 = patterns c1)
    as (c2 & Hc2 & Hm2 & Hch2 & Hp2).
  { destruct (decide (root = leaf)) as [<-|Hne].
    - exists r2. split; [done|]. replace c1 with r1 by congruence. done.
    - exists c1. split; [|done]. simpl. by rewrite list_lookup_insert_ne. }
  eexists _, (methods c), keys, (order nb).
  split.
  { unfold insert.
    rewrite (bind_run _ _ _ _ _ (getNode_run _ _ _ Hr1)).
    rewrite (bind_run _ _ _ _ _ (writeOrder_run _ _ _ _ Hr1)).
    fold r2. fold σa.
    rewrite (bind_run _ _ _ _ _ (insertParts_walk _ _ _ [] _ Hwf Hwa)).
    cbv beta iota.
    rewrite (bind_run _ _ _ _ _ (getNode_run _ _ _ Hr2)).
    unfold mbind at 1, M_bind at 1, allocHS.
    rewrite (bind_run _ _ _ _ _
               (pushMethods_run (mkState (nodes σa) (hsets σa ++ [_]) (pobjs σa))
                  leaf c2 _ Hc2)).
    reflexivity. }
  cbn [nodes hsets pobjs].
  split; [rewrite length_insert; unfold σa; cbn [nodes]; by rewrite length_insert|].
  split.
  { rewrite (fmap_insert_same children _ _ _ _ Hc2) by done.
    unfold σa. cbn [nodes]. by rewrite (fmap_insert_same children _ _ _ _ Hr1). }
  split.
  { rewrite (fmap_insert_same patterns _ _ _ _ Hc2) by done.
    unfold σa. cbn [nodes]. by rewrite (fmap_insert_same patterns _ _ _ _ Hr1). }
  split.
  { by rewrite Hc1. }
  split.
  { rewrite list_lookup_insert_eq by by eapply lookup_lt_Some.
    simpl. rewrite Hm2. simpl. rewrite <-(assoc_L (++)), length_app. simpl.
    by rewrite Nat.add_1_r. }
  split; [done|].
  unfold σa, σ1. cbn [hsets order r2]. rewrite <-(assoc_L (++)). simpl. by rewrite Ho1.
Qed.

End Walk.

(** ** Completeness of the traversal *)

Section Complete.
Context {T : Type} {E : RegExpEngine}.
Variable σ0 : State T.
Variable method : string.
Implicit Types σ : State T.

Lemma yields_ret {A} (a : A) (Q : A → Prop) : Q a → yields σ0 (mret a) Q.
Proof. intros HQ σ a' σ' Hs [= <- <-]. done. Qed.

Lemma yields_bind {A B} (m : M A) (f : A → M B) (P : A → Prop) (Q : B → Prop) :
  yields σ0 m P → (∀ a, P a → yields σ0 (f a) Q) → yields σ0 (m ≫= f) Q.
Proof.
  intros Hm Hf σ b σ' Hs Hrun.
  apply bind_inv in Hrun as (a & σ1 & Hrun1 & Hrun2).
  destruct (Hm _ _ _ Hs Hrun1) as [HP Hs1]. by eapply Hf.
Qed.

Lemma yields_mono {A} (m : M A) (P Q : A → Prop) :
  yields σ0 m P → (∀ a, P a → Q a) → yields σ0 m Q.
Proof. intros Hm HPQ σ a σ' Hs Hrun. destruct (Hm _ _ _ Hs Hrun). eauto. Qed.

Lemma yields_and {A} (m : M A) (P Q : A → Prop) :
  yields σ0 m P → yields σ0 m Q → yields σ0 m (λ a, P a ∧ Q a).
Proof.
  intros HP HQ σ a σ' Hs Hrun.
  destruct (HP _ _ _ Hs Hrun), (HQ _ _ _ Hs Hrun). done.
Qed.

Lemma keeps_yields {A} (m : M A) (Q : A → Prop) :
  keeps 0 m Q → yields σ0 m Q.
Proof.
  intros Hm σ a σ' Hs Hrun.
  destruct (Hm σ a σ' (Nat.le_0_l _) Hrun) as (HQ & Hs' & _).
  split; [done|]. by etrans.
Qed.

Lemma sameStruct_lookup σ σ' a n :
  sameStruct σ σ' → nodes σ' !! a = Some n →
  ∃ n0, nodes σ !! a = Some n0 ∧ sameNode n0 n.
Proof.
  intros [Hn _] Ha.
  destruct (Forall2_lookup_r _ _ _ _ _ Hn Ha) as (n0 & Hn0 & Hsame). eauto.
Qed.

Lemma yields_getNode a : yields σ0 (getNode a) (nodeAt σ0 a).
Proof.
  intros σ n σ' Hs Hrun. unfold getNode in Hrun.
  destruct (nodes σ !! a) as [n'|] eqn:Hn; [|done]. injection Hrun as -> <-.
  split; [|done]. by eapply sameStruct_lookup.
Qed.

Lemma yields_getHandlerSetsLoop ms np ps :
  yields σ0 (getHandlerSetsLoop ms method np ps)
    (λ hs, ∀ mm x, mm ∈ ms → methodEntry mm method = Some x → x ∈ hs).
Proof.
  induction ms as [|m ms IH]; cbn [getHandlerSetsLoop].
  { apply yields_ret. by intros mm x ?%elem_of_nil. }
  destruct (methodEntry m method) as [a|] eqn:Hm.
  - eapply yields_bind; [apply keeps_yields, keeps_getHS|]. intros h _.
    eapply yields_bind; [apply keeps_yields, keeps_allocP|]. intros o _.
    eapply yields_bind; [apply keeps_yields, keeps_writeHsParams|]. intros [] _.
    eapply (yields_bind _ _ any).
    { apply keeps_yields. destruct (someParams np ps); [|by apply keeps_ret].
      eapply keeps_bind; [apply keeps_deref|]. intros o1 _.
      eapply keeps_bind; [apply keeps_derefOpt|]. intros o2 _.
      by apply keeps_setP, Nat.le_0_l. }
    intros [] _.
    eapply yields_bind; [apply IH|]. intros rest Hrest.
    apply yields_ret. intros mm x [->|Hmm]%elem_of_cons Hx.
    + apply elem_of_cons. left. congruence.
    + apply elem_of_cons. right. eauto.
  - eapply yields_mono; [apply IH|]. intros hs Hhs mm x [->|Hmm]%elem_of_cons Hx.
    + congruence.
    + eauto.
Qed.

Lemma yields_getHandlerSets node np ps :
  yields σ0 (getHandlerSets node method np ps)
    (λ hs, ∀ x, collects σ0 method node x → x ∈ hs).
Proof.
  unfold getHandlerSets.
  eapply yields_bind; [apply yields_getNode|]. intros n (n0 & Hn0 & Hsame).
  eapply yields_mono; [apply yields_getHandlerSetsLoop|].
  intros hs Hhs x (n1 & mm & Hn1 & Hmm & Hx).
  destruct Hsame as (Hm & _). replace n1 with n0 in * by congruence.
  apply (Hhs mm x); [by rewrite Hm|done].
Qed.

Lemma yields_defined {A} (o : option A) :
  yields σ0 (defined o) (λ a, o = Some a).
Proof. destruct o; [by apply yields_ret|]. by intros σ a σ' _ ?. Qed.

Lemma yields_any {A} (m : M A) : keeps 0 m any → yields σ0 m any.
Proof. apply keeps_yields. Qed.

Lemma nodeAt_child node n k c c' :
  nodeAt σ0 node n → children n !! k = c → childOf σ0 node k c' → c = Some c'.
Proof.
  intros (n0 & Hn0 & _ & Hc & _) <- (n1 & Hn1 & Hk). rewrite Hc. congruence.
Qed.

(** The handler sets of the wildcard child of [c], as the end-of-path
    relaxation collects them. *)
Lemma yields_relaxation c nc node np ps :
  nodeAt σ0 c nc →
  yields σ0
    (match children nc !! "*" with
     | Some astNode => n ← getNode node; getHandlerSets astNode method (np n) (ps n)
     | None => mret []
     end)
    (λ hs, ∀ ast x, childOf σ0 c "*" ast → collects σ0 method ast x → x ∈ hs).
Proof.
  intros Hc. destruct (children nc !! "*") as [ast|] eqn:Hast.
  - eapply yields_bind; [apply yields_getNode|]. intros n _.
    eapply yields_mono; [apply yields_getHandlerSets|].
    intros hs Hhs ast' x Hchild Hx.
    pose proof (nodeAt_child _ _ _ _ _ Hc Hast Hchild) as [= ->]. by apply Hhs.
  - apply yields_ret. intros ast' x Hchild _.
    by pose proof (nodeAt_child _ _ _ _ _ Hc Hast Hchild).
Qed.

Lemma yields_searchLiteral node part isLast :
  yields σ0 (searchLiteral node method part isLast)
    (literalPost σ0 method node part isLast).
Proof.
  unfold searchLiteral.
  eapply yields_bind; [apply yields_getNode|]. intros n Hn.
  destruct (children n !! part) as [nextNode|] eqn:Hnext.
  - eapply yields_bind; [apply yields_any, keeps_writeParams|]. intros [] _.
    destruct isLast.
    + eapply yields_bind; [apply yields_getNode|]. intros nn Hnn.
      eapply yields_bind.
      { apply (yields_relaxation nextNode nn node (λ n, params n) (λ _, None) Hnn). }
      intros hs1 Hhs1.
      eapply yields_bind; [apply yields_getNode|]. intros n' _.
      eapply yields_bind; [apply yields_getHandlerSets|]. intros hs2 Hhs2.
      apply yields_ret. intros c Hc.
      pose proof (nodeAt_child _ _ _ _ _ Hn Hnext Hc) as [= ->].
      intros x. simpl. split.
      * intros Hx. apply elem_of_app. right. by apply Hhs2.
      * intros ast Hast Hx. apply elem_of_app. left. by eapply Hhs1.
    + apply yields_ret. intros c Hc.
      pose proof (nodeAt_child _ _ _ _ _ Hn Hnext Hc) as [= ->].
      simpl. by apply list_elem_of_singleton.
  - apply yields_ret. intros c Hc.
    by pose proof (nodeAt_child _ _ _ _ _ Hn Hnext Hc).
Qed.

Lemma yields_searchPattern node part rest isLast pattern :
  yields σ0 (searchPattern node method part rest isLast pattern)
    (patternPost σ0 method node part rest isLast pattern).
Proof.
  unfold searchPattern.
  eapply yields_bind; [apply yields_getNode|]. intros n0 _.
  eapply yields_bind; [apply keeps_yields, (keeps_copyParams 0)|].
  intros params' _.
  destruct pattern as [|key name matcher].
  - eapply yields_bind; [apply yields_getNode|]. intros n Hn.
    destruct (children n !! "*") as [ast|] eqn:Hast.
    + eapply yields_bind; [apply yields_getHandlerSets|]. intros hs Hhs.
      apply yields_ret. intros c Hc.
      pose proof (nodeAt_child _ _ _ _ _ Hn Hast Hc) as [= ->].
      split; [done|]. simpl. by apply list_elem_of_singleton.
    + apply yields_ret. intros c Hc.
      by pose proof (nodeAt_child _ _ _ _ _ Hn Hast Hc).
  - destruct (String.eqb part "") eqn:Hpart.
    { apply yields_ret. intros Hne. by apply String.eqb_eq in Hpart. }
    eapply yields_bind; [apply yields_getNode|]. intros n Hn.
    cbv zeta.
    destruct (restMatch matcher rest) eqn:Hrest.
    + eapply yields_bind; [apply yields_any, keeps_writeProp, Nat.le_0_l|].
      intros [] _.
      eapply yields_bind; [apply yields_defined|]. intros child Hchild.
      eapply yields_bind; [apply yields_getNode|]. intros n' _.
      eapply yields_bind; [apply yields_getHandlerSets|]. intros hs Hhs.
      apply yields_ret. intros _ c Hc. rewrite Hrest.
      pose proof (nodeAt_child _ _ _ _ _ Hn Hchild Hc) as [= ->]. done.
    + destruct (partMatch matcher part) eqn:Hpm.
      * eapply yields_bind; [apply yields_any, keeps_writeProp, Nat.le_0_l|].
        intros [] _.
        destruct isLast.
        -- eapply yields_bind; [apply yields_defined|]. intros child Hchild.
           eapply yields_bind; [apply yields_getNode|]. intros n' _.
           eapply yields_bind; [apply yields_getHandlerSets|]. intros hs1 Hhs1.
           eapply yields_bind; [apply yields_getNode|]. intros nc Hnc.
           eapply yields_bind.
           { apply (yields_relaxation child nc node (λ _, pobj params')
                      (λ n, Some (params n)) Hnc). }
           intros hs2 Hhs2.
           apply yields_ret. intros _ c Hc. rewrite Hrest, Hpm.
           pose proof (nodeAt_child _ _ _ _ _ Hn Hchild Hc) as [= ->].
           intros x. simpl. split.
           ++ intros Hx. apply elem_of_app. left. by apply Hhs1.
           ++ intros ast Hast Hx. apply elem_of_app. right. by eapply Hhs2.
        -- eapply yields_bind; [apply yields_defined|]. intros child Hchild.
           eapply yields_bind; [apply yields_any, keeps_writeParams|].
           intros [] _.
           apply yields_ret. intros _ c Hc. rewrite Hrest, Hpm.
           pose proof (nodeAt_child _ _ _ _ _ Hn Hchild Hc) as [= ->].
           simpl. by apply list_elem_of_singleton.
      * apply yields_ret. intros _ c Hc. by rewrite Hrest, Hpm.
Qed.

Lemma advances_mono isLast c (r r' : list nat * list nat) :
  r.1 ⊆ r'.1 → r.2 ⊆ r'.2 →
  advances σ0 method isLast c r → advances σ0 method isLast c r'.
Proof.
  intros H1 H2. unfold advances. destruct isLast; [|by auto].
  intros Hr x. destruct (Hr x) as [Ha Hb]. split; [by auto|]. intros ast ??.
  apply H1. by eapply Hb.
Qed.

Lemma patternPost_mono node part rest isLast pattern (r r' : list nat * list nat) :
  r.1 ⊆ r'.1 → r.2 ⊆ r'.2 →
  patternPost σ0 method node part rest isLast pattern r →
  patternPost σ0 method node part rest isLast pattern r'.
Proof.
  intros H1 H2. unfold patternPost. destruct pattern as [|key name matcher].
  - intros Hr c Hc. destruct (Hr c Hc). split; [|by auto].
    intros x Hx. apply H1. by auto.
  - intros Hr Hpart c Hc. specialize (Hr Hpart c Hc).
    destruct (restMatch matcher rest).
    + intros x Hx. apply H1. by auto.
    + destruct (partMatch matcher part); [|done]. by eapply advances_mono.
Qed.

Lemma yields_searchPatterns node part rest isLast ps :
  yields σ0 (searchPatterns node method part rest isLast ps)
    (λ r, ∀ p, p ∈ ps → patternPost σ0 method node part rest isLast p r).
Proof.
  induction ps as [|p ps IH]; cbn [searchPatterns].
  { apply yields_ret. by intros p ?%elem_of_nil. }
  eapply yields_bind; [apply yields_searchPattern|]. intros [hs1 t1] H1.
  eapply yields_bind; [apply IH|]. intros [hs2 t2] H2.
  apply yields_ret. intros q [->|Hq]%elem_of_cons.
  - eapply patternPost_mono; [| |exact H1]; simpl; set_solver.
  - eapply patternPost_mono; [| |exact (H2 q Hq)]; simpl; set_solver.
Qed.

Lemma labelPattern_wild label : labelPattern label = Some PWild → label = "*".
Proof.
  unfold labelPattern. destruct (String.eqb label "*") eqn:Heq.
  { intros _. by apply String.eqb_eq. }
  destruct label as [|c rest]; [done|].
  destruct (negb _); [done|].
  destruct (breakAt _ rest) as [[nm tail]|].
  - destruct (stripLast _ tail); [|done]. by destruct (_ || _).
  - by destruct (_ || _).
Qed.

Lemma hangs_nil c x : hangs σ0 method c [] x → collects σ0 method c x.
Proof. by intros (leaf & [= <-] & Hx). Qed.

Lemma hangs_cons a k rs x :
  hangs σ0 method a (k :: rs) x →
  ∃ c, childOf σ0 a k c ∧ hangs σ0 method c rs x.
Proof.
  intros (leaf & Hw & Hx). cbn [walk] in Hw.
  destruct (nodes σ0 !! a) as [n|] eqn:Hn; [|done]. simpl in Hw.
  destruct (children n !! k) as [c|] eqn:Hc; [|done]. simpl in Hw.
  exists c. split; [by exists n|by exists leaf].
Qed.

(** The child whose key matched, against the rest of the route. *)
Lemma advances_next c (r : list nat * list nat) rs parts' x :
  advances σ0 method (bool_decide (parts' = [])) c r →
  hangs σ0 method c rs x →
  (if bool_decide (parts' = []) then atEnd rs else matchFrom rs parts') = true →
  x ∈ r.1 ∨ (c ∈ r.2 ∧ matchFrom rs parts' = true).
Proof.
  unfold advances. destruct (bool_decide (parts' = [])); intros Hadv Hx Hnext.
  - left. destruct (Hadv x) as [Hhere Hast]. unfold atEnd in Hnext.
    apply orb_true_iff in Hnext as [->%bool_decide_eq_true| ->%bool_decide_eq_true].
    + by apply Hhere, hangs_nil.
    + destruct (hangs_cons _ _ _ _ Hx) as (ast & Hchild & Hx').
      by eapply Hast, hangs_nil.
  - by right.
Qed.

Hypothesis Hpatterns : patternsComplete σ0.

Lemma yields_searchNode node part parts' :
  yields σ0
    (searchNode node method part (join (part :: parts'))
                (bool_decide (parts' = [])))
    (nodePost σ0 method node part parts').
Proof.
  unfold searchNode.
  eapply yields_bind; [apply yields_searchLiteral|]. intros [hs1 t1] H1.
  eapply yields_bind; [apply yields_getNode|]. intros n (n0 & Hn0 & Hsame).
  eapply yields_bind; [apply yields_searchPatterns|]. intros [hs2 t2] H2.
  apply yields_ret. intros k rs c x Hchild Hx Hmatch.
  cbn [matchFrom] in Hmatch. cbv zeta in Hmatch.
  apply orb_true_iff in Hmatch as [Hlit|Hpat].
  - apply andb_true_iff in Hlit as [->%String.eqb_eq Hnext].
    eapply advances_next; [|done..].
    eapply advances_mono; [| |exact (H1 c Hchild)]; simpl; set_solver.
  - destruct (labelPattern k) as [p|] eqn:Hget; [|done].
    assert (patternPost σ0 method node part (join (part :: parts'))
              (bool_decide (parts' = [])) p (hs1 ++ hs2, t1 ++ t2)) as Hp.
    { eapply patternPost_mono; [| |apply (H2 p)]; simpl; [set_solver..|].
      destruct Hchild as (n1 & Hn1 & Hk). destruct Hsame as (_ & _ & -> & _).
      replace n1 with n0 in * by congruence. by eapply Hpatterns. }
    destruct p as [|key name matcher].
    + pose proof (labelPattern_wild _ Hget) as ->.
      destruct (Hp c Hchild) as [Hhs Ht].
      apply orb_true_iff in Hpat as [->%bool_decide_eq_true|Hrest].
      * left. by apply Hhs, hangs_nil.
      * by right.
    + pose proof (labelPattern_key _ _ _ _ Hget) as ->.
      apply andb_true_iff in Hpat as [Hpart Hpat].
      apply negb_true_iff, String.eqb_neq in Hpart.
      specialize (Hp Hpart c Hchild).
      destruct (restMatch matcher (join (part :: parts'))).
      * apply bool_decide_eq_true in Hpat as ->. left. by apply Hp, hangs_nil.
      * apply andb_true_iff in Hpat as [Hpm Hnext]. rewrite Hpm in Hp.
        by eapply advances_next.
Qed.

Lemma nodePost_mono node part parts' (r r' : list nat * list nat) :
  r.1 ⊆ r'.1 → r.2 ⊆ r'.2 →
  nodePost σ0 method node part parts' r → nodePost σ0 method node part parts' r'.
Proof.
  intros H1 H2 Hr k rs c x Hc Hx Hm.
  destruct (Hr k rs c x Hc Hx Hm) as [?|[? ?]]; [left|right]; auto.
Qed.

Lemma yields_searchNodes curNodes part parts' :
  yields σ0
    (searchNodes curNodes method part (join (part :: parts'))
                 (bool_decide (parts' = [])))
    (λ r, ∀ node, node ∈ curNodes → nodePost σ0 method node part parts' r).
Proof.
  induction curNodes as [|a curNodes IH]; cbn [searchNodes].
  { apply yields_ret. by intros p ?%elem_of_nil. }
  eapply yields_bind; [apply yields_searchNode|]. intros [hs1 t1] H1.
  eapply yields_bind; [apply IH|]. intros [hs2 t2] H2.
  apply yields_ret. intros q [->|Hq]%elem_of_cons.
  - eapply nodePost_mono; [| |exact H1]; simpl; set_solver.
  - eapply nodePost_mono; [| |exact (H2 q Hq)]; simpl; set_solver.
Qed.

(** Every handler set below a frontier node whose remaining route
    matches the remaining parts is collected. *)
Lemma yields_searchParts parts :
  ∀ curNodes,
    yields σ0 (searchParts parts curNodes method)
      (λ hs, ∀ a rs x, a ∈ curNodes → hangs σ0 method a rs x →
                       matchFrom rs parts = true → x ∈ hs).
Proof.
  induction parts as [|part parts' IH]; intros curNodes; cbn [searchParts].
  { apply yields_ret. intros a rs x _ _ Hm. by rewrite matchFrom_nil in Hm. }
  cbv zeta.
  eapply yields_bind; [apply yields_searchNodes|]. intros [hs1 temp] H1.
  eapply yields_bind; [apply IH|]. intros hs2 H2.
  apply yields_ret. intros a rs x Ha Hx Hm.
  destruct rs as [|k rs]; [done|].
  destruct (hangs_cons _ _ _ _ Hx) as (c & Hchild & Hx').
  apply elem_of_app.
  destruct (H1 a Ha k rs c x Hchild Hx' Hm) as [?|[Hc Hm']]; [by left|].
  right. by eapply H2.
Qed.

Lemma yields_readHandlerSets refs :
  yields σ0 (readHandlerSets refs) (λ hs, hs.*1 = refs).
Proof.
  intros σ hs σ' Hs Hrun. apply readHandlerSets_run in Hrun as [-> Hall].
  split; [|done]. induction Hall as [|a [a' h] refs hs [Ha _] _ IH]; [done|].
  simpl in Ha. subst a'. by rewrite fmap_cons, IH.
Qed.

(** Every handler set below the root whose route matches the path is
    among the references that the search returns. *)
Lemma yields_searchRefs path :
  yields σ0 (searchRefs root method path)
    (λ refs, ∀ rs x, hangs σ0 method root rs x →
                     matchFrom rs (splitPath path) = true → x ∈ refs).
Proof.
  unfold searchRefs.
  eapply yields_bind; [apply yields_any, keeps_writeParams|]. intros [] _.
  eapply yields_bind; [apply yields_searchParts|]. intros handlerSets Hparts.
  eapply yields_bind; [apply yields_readHandlerSets|]. intros hs Hfst.
  apply yields_ret. intros rs x Hx Hm.
  assert (x ∈ handlerSets) as Hin.
  { eapply Hparts; [|done..]. by apply list_elem_of_singleton. }
  destruct (1 <? length hs); [|done].
  rewrite sortByScore_perm. by rewrite Hfst.
Qed.

End Complete.

(** ** C4: the empty segment *)

(** C4 (as stated) fails: the wildcard pattern is tried before the test
    for the empty segment.  With [/a/*] registered, the search of [/a/],
    whose last segment is empty, returns the handler: at the node of [a]
    the pattern loop collects handler set 0 and advances to node 2. *)
Lemma wildcard_matches_empty_segment :
  let σ : State nat :=
    mkState [ mkNode [] {[ "a" := 1 ]} [] 1 emptyParams;
              mkNode [] {[ "*" := 2 ]} [PWild] 0 emptyParams;
              mkNode [ {[ "GET" := 0 ]} ] ∅ [] 0 emptyParams ]
            [ mkHandlerSet 7 [undefined] 1 None ] [] in
  splitPath "/a/" = ["a"; ""] ∧
  insertAll (E := MiniRegExp.engine) [("GET", "/a/*", 7)] emptyTrie = Some σ ∧
  searchView (E := MiniRegExp.engine) σ "GET" "/a/" = Some [(7, ∅)] ∧
  (fst <$> searchPatterns (E := MiniRegExp.engine) 1 "GET" "" "" true [PWild] σ)
  = Some ([0], [2]).
Proof. cbv zeta. repeat split; vm_compute; reflexivity. Qed.

(** C4 (as amended): when the segment text is empty, the named-parameter
    patterns of the node (unconstrained or regex-constrained) are skipped,
    while a wildcard pattern is matched whatever the segment is, empty or
    not (the handler sets of the wildcard child are collected and the
    child joins the frontier), and the literal child registered under the
    empty key is followed: before the last segment it joins the
    frontier, and at the last segment, which is where a trailing
    separator leaves the empty text, its handler sets and those of its
    wildcard child are collected.  With [/a/] registered, the search of
    [/a/] returns its handler. *)
Theorem empty_segment_matching {T} {E : RegExpEngine} (σ : State T)
    (node : nat) (n : Node) (method rest : string) (isLast : bool) :
  nodes σ !! node = Some n →
  validRef σ (params n) →
  (∃ o : Params,
    let σ1 := mkState (nodes σ) (hsets σ) (pobjs σ ++ [o]) in
    (∀ key name matcher,
       searchPattern node method "" rest isLast (PParam key name matcher) σ
       = Some (([], []), σ1)) ∧
    (∀ part astNode,
       children n !! "*" = Some astNode →
       searchPattern node method part rest isLast PWild σ
       = (hs ← getHandlerSets astNode method (params n) None;
          mret (hs, [astNode])) σ1) ∧
    (∀ nextNode nn,
       children n !! "" = Some nextNode →
       nodes σ !! nextNode = Some nn →
       let σ2 :=
         mkState
           (<[nextNode := mkNode (methods nn) (children nn) (patterns nn)
                                 (order nn) (params n)]> (nodes σ))
           (hsets σ) (pobjs σ) in
       searchLiteral node method "" false σ = Some (([], [nextNode]), σ2) ∧
       searchLiteral node method "" true σ
       = (nn ← getNode nextNode;
          hs1 ← match children nn !! "*" with
                | Some astNode =>
                    n ← getNode node;
                    getHandlerSets astNode method (params n) None
                | None => mret []
                end;
          n ← getNode node;
          hs2 ← getHandlerSets nextNode method (params n) None;
          mret (hs1 ++ hs2, [])) σ2)) ∧
  (∀ r σ' c,
     searchLiteral node method "" isLast σ = Some (r, σ') →
     children n !! "" = Some c →
     if isLast
     then ∀ x, (collects σ method c x → x ∈ r.1)
               ∧ (∀ ast, childOf σ c "*" ast → collects σ method ast x → x ∈ r.1)
     else c ∈ r.2) ∧
  ∀ h : T, searchAfter [(method, "/a/", h)] method "/a/" = Some [(h, ∅)].
Proof.
  intros Hn Hvalid. split; [|split].
  - destruct (copyParams_run σ (params n) Hvalid) as [o Hcopy].
    exists o. cbv zeta. split; [|split].
    + intros key name matcher. unfold searchPattern.
      rewrite (bind_run _ _ _ _ _ (getNode_run _ _ _ Hn)).
      by rewrite (bind_run _ _ _ _ _ Hcopy).
    + intros part astNode Hast. unfold searchPattern.
      rewrite (bind_run _ _ _ _ _ (getNode_run _ _ _ Hn)).
      rewrite (bind_run _ _ _ _ _ Hcopy).
      rewrite (bind_run _ _ _ _ _ (getNode_run (mkState _ _ _) _ _ Hn)).
      by rewrite Hast.
    + intros nextNode nn Hnext Hnn. unfold searchLiteral.
      rewrite !(bind_run _ _ _ _ _ (getNode_run _ _ _ Hn)), Hnext.
      by rewrite !(bind_run _ _ _ _ _ (writeParams_run _ _ _ _ Hnn)).
  - intros r σ' c Hrun Hc.
    destruct (yields_searchLiteral σ method node "" isLast σ r σ') as [Hpost _];
      [done|done|].
    apply (Hpost c). by exists n.
  - intros h. unfold searchAfter.
    assert (insertAll [(method, "/a/", h)] emptyTrie
            = Some (mkState
                [ mkNode [] {[ "a" := 1 ]} [] 1 emptyParams;
                  mkNode [] {[ "" := 2 ]} [] 0 emptyParams;
                  mkNode [ {[ method := 0 ]} ] ∅ [] 0 emptyParams ]
                [ mkHandlerSet h [] 1 None ] [])) as -> by reflexivity.
    generalize (methodEntry_singleton method 0).
    generalize ({[ method := 0 ]} : gmap string nat). intros mm1 E1.
    run_lhs. rewrite E1. run_lhs. reflexivity.
Qed.

Lemma empty_segment_matching_witness :
  let σ : State nat :=
    mkState [ mkNode [] {[ "a" := 1 ]} [] 1 emptyParams;
              mkNode [] {[ "*" := 2 ]} [PWild] 0 emptyParams;
              mkNode [ {[ "GET" := 0 ]} ] ∅ [] 0 emptyParams ]
            [ mkHandlerSet 7 [undefined] 1 None ] [] in
  ∃ o : Params,
    searchPattern (E := MiniRegExp.engine) 1 "GET" "" "" true PWild σ
    = (hs ← getHandlerSets 2 "GET" emptyParams None; mret (hs, [2]))
        (mkState (nodes σ) (hsets σ) (pobjs σ ++ [o])).
Proof.
  cbv zeta.
  edestruct (empty_segment_matching (E := MiniRegExp.engine)
               (mkState [ mkNode [] {[ "a" := 1 ]} [] 1 emptyParams;
                          mkNode [] {[ "*" := 2 ]} [PWild] 0 emptyParams;
                          mkNode [ {[ "GET" := 0 ]} ] ∅ [] 0 emptyParams ]
                        [ mkHandlerSet 7 [undefined] 1 None ] [])
               1 (mkNode [] {[ "*" := 2 ]} [PWild] 0 emptyParams)
               "GET" "" true) as [(o & _ & Hw & _) _].
  - reflexivity.
  - exact I.
  - exists o. apply (Hw "" 2). reflexivity.
Defined.


(** ** Registrations, step by step *)

Section Steps.
Context {T : Type} {E : RegExpEngine}.
Implicit Types σ : State T.

Lemma insertParts_old σ curNode n p c parts keys :
  nodes σ !! curNode = Some n → children n !! p = Some c →
  wellFormed p = true →
  insertParts (p :: parts) curNode keys σ
  = insertParts parts c
      (match labelPattern p with
       | Some pattern => keys ++ [pattern_1 pattern]
       | None => keys
       end) σ.
Proof.
  intros Hn Hc Hp. cbn [insertParts].
  rewrite (bind_run _ _ _ _ _ (getNode_run _ _ _ Hn)). rewrite Hc.
  by rewrite (bind_run _ _ _ _ _ (getPattern_run _ _ Hp)).
Qed.

Lemma insertParts_new σ curNode n p parts keys :
  nodes σ !! curNode = Some n → children n !! p = None →
  wellFormed p = true →
  insertParts (p :: parts) curNode keys σ
  = insertParts parts (length (nodes σ))
      (match labelPattern p with
       | Some pattern => keys ++ [pattern_1 pattern]
       | None => keys
       end) (withChild σ curNode n p).
Proof.
  intros Hn Hc Hp. cbn [insertParts].
  rewrite (bind_run _ _ _ _ _ (getNode_run _ _ _ Hn)). rewrite Hc.
  unfold mbind at 1, M_bind at 1, allocNode.
  assert ((nodes σ ++ [newNode]) !! curNode = Some n) as Hn1
    by by apply lookup_app_l_Some.
  rewrite (bind_run _ _ _ _ _ (writeChild_run (mkState _ _ _) _ _ _ _ Hn1)).
  rewrite (bind_run _ _ _ _ _ (getPattern_run _ _ Hp)).
  unfold withChild. cbn [nodes hsets pobjs].
  destruct (labelPattern p) as [pattern|]; simpl option_list.
  - erewrite bind_run; [reflexivity|].
    erewrite bind_run; [reflexivity|].
    erewrite pushPattern_run; cycle 1.
    { simpl. apply list_lookup_insert_eq.
      rewrite length_app. eapply lookup_lt_Some in Hn. lia. }
    simpl. by rewrite list_insert_insert_eq.
  - by rewrite app_nil_r.
Qed.

(** The loop of [insert] creates children one at a time and does
    nothing else. *)
Lemma insertParts_steps parts :
  ∀ curNode keys σ r σ',
    insertParts parts curNode keys σ = Some (r, σ') → rtc childStep σ σ'.
Proof.
  induction parts as [|p parts IH]; intros curNode keys σ r σ' Hrun.
  { injection Hrun as <- <-. done. }
  pose proof (insertParts_compiles _ _ _ _ _ _ Hrun) as Hwf.
  cbn [forallb] in Hwf. apply andb_true_iff in Hwf as [Hp _].
  destruct (nodes σ !! curNode) as [n|] eqn:Hn; cycle 1.
  { cbn [insertParts] in Hrun. unfold mbind, M_bind, getNode in Hrun.
    by rewrite Hn in Hrun. }
  destruct (children n !! p) as [c|] eqn:Hc.
  - rewrite (insertParts_old _ _ _ _ _ _ _ Hn Hc Hp) in Hrun. by eapply IH.
  - rewrite (insertParts_new _ _ _ _ _ _ Hn Hc Hp) in Hrun.
    eapply rtc_l; [by constructor|]. by eapply IH.
Qed.

(** [insert] in steps: the counter, the children, the registration. *)
Lemma insert_steps σ this method path h leaf σ1 :
  insert this method path h σ = Some (leaf, σ1) →
  ∃ (n : Node) (σb : State T) (nb c : Node),
    nodes σ !! this = Some n
    ∧ rtc childStep (bumped σ this n) σb
    ∧ walk σb this (splitRoutingPath path) = Some leaf
    ∧ nodes σb !! this = Some nb ∧ order nb = S (order n)
    ∧ nodes σb !! leaf = Some c
    ∧ hsets σb = hsets σ
    ∧ σ1 = registered σb leaf c method
             (mkHandlerSet h (firstOccurrences (keysOf (splitRoutingPath path)))
                (order nb) None).
Proof.
  unfold insert. intros Hrun.
  apply bind_inv in Hrun as (n & σ0 & Hget & Hrun).
  unfold getNode in Hget. destruct (nodes σ !! this) as [n'|] eqn:Hn; [|done].
  injection Hget as -> <-.
  apply bind_inv in Hrun as ([] & σa & Hord & Hrun).
  rewrite (writeOrder_run _ _ _ _ Hn) in Hord. injection Hord as <-.
  apply bind_inv in Hrun as ([cur keys] & σb & Hparts & Hrun).
  pose proof (insertParts_steps _ _ _ _ _ _ Hparts) as Hsteps.
  destruct (insertParts_edges _ _ _ _ _ _ _ Hparts) as (Hle & Hw & -> & Hh & Hp).
  apply bind_inv in Hrun as (nb & σb' & Hget & Hrun).
  unfold getNode in Hget. destruct (nodes σb !! this) as [nb'|] eqn:Hnb; [|done].
  injection Hget as -> <-.
  apply bind_inv in Hrun as (x & σc & Halloc & Hrun).
  injection Halloc as <- <-.
  apply bind_inv in Hrun as ([] & σd & Hpush & Hret).
  injection Hret as <- <-.
  unfold pushMethods in Hpush.
  apply bind_inv in Hpush as (c & σc & Hget & Hset).
  unfold getNode in Hget. cbn [nodes] in Hget.
  destruct (nodes σb !! cur) as [c'|] eqn:Hc; [|done].
  injection Hget as -> <-. injection Hset as <-.
  exists n, σb, nb, c. split; [done|]. split; [done|]. split; [done|].
  split; [done|]. split; [|split; [done|split; [done|]]].
  - destruct (Hle this (mkNode (methods n) (children n) (patterns n)
                               (S (order n)) (params n)))
      as (nb' & Hnb' & Ho & _).
    { simpl. apply list_lookup_insert_eq. by eapply lookup_lt_Some. }
    replace nb with nb' by congruence. done.
  - reflexivity.
Qed.

(** *** What the steps keep *)

Global Instance nodeGrows_refl : Reflexive nodeGrows.
Proof. intros n. by repeat split. Qed.

Global Instance nodeGrows_trans : Transitive nodeGrows.
Proof.
  intros n1 n2 n3 (?&?&?&?&?) (?&?&?&?&?).
  split; [by etrans|]. split; [by etrans|]. split; [by etrans|].
  split; [lia|congruence].
Qed.

Global Instance extends_refl : Reflexive (extends (T:=T)).
Proof. intros σ. split; [|done]. intros a n Hn. by exists n. Qed.

Global Instance extends_trans : Transitive (extends (T:=T)).
Proof.
  intros σ1 σ2 σ3 (Hn12 & Hh12 & Hp12) (Hn23 & Hh23 & Hp23).
  split; [|split; [by etrans|congruence]].
  intros a n Hn. destruct (Hn12 _ _ Hn) as (n' & Hn' & Hg').
  destruct (Hn23 _ _ Hn') as (n'' & Hn'' & Hg''). exists n''.
  split; [done|]. by etrans.
Qed.

Lemma extends_update σ a n n' :
  nodes σ !! a = Some n → nodeGrows n n' →
  extends σ (mkState (<[a := n']> (nodes σ)) (hsets σ) (pobjs σ)).
Proof.
  intros Ha Hg. split; [|done]. intros b nb Hb. simpl.
  destruct (decide (a = b)) as [<-|Hne].
  - rewrite list_lookup_insert_eq by by eapply lookup_lt_Some.
    exists n'. by replace nb with n by congruence.
  - rewrite list_lookup_insert_ne by done. by exists nb.
Qed.

Lemma childStep_extends σ σ' : childStep σ σ' → extends σ σ'.
Proof.
  intros [σ0 cur n p Hn Hp]. split; [|done]. intros b nb Hb. unfold withChild.
  cbn [nodes]. destruct (decide (cur = b)) as [<-|Hne].
  - rewrite list_lookup_insert_eq; cycle 1.
    { rewrite length_app. apply lookup_lt_Some in Hn. lia. }
    eexists. split; [done|]. replace nb with n by congruence.
    split; [by apply insert_subseteq|]. split; [by apply prefix_app_r|].
    done.
  - rewrite list_lookup_insert_ne by done. exists nb.
    split; [by apply lookup_app_l_Some|done].
Qed.

Lemma steps_extends σ σ' : rtc childStep σ σ' → extends σ σ'.
Proof.
  induction 1 as [|σ1 σ2 σ3 Hstep _ IH]; [done|].
  etrans; [by apply childStep_extends|done].
Qed.

Lemma bumped_extends σ this n : nodes σ !! this = Some n → extends σ (bumped σ this n).
Proof.
  intros Hn. apply (extends_update _ _ n); [done|].
  split; [done|]. split; [done|]. split; [done|]. simpl. split; [lia|done].
Qed.

Lemma registered_extends σ leaf c method hs :
  nodes σ !! leaf = Some c → extends σ (registered σ leaf c method hs).
Proof.
  intros Hc. split; [|by split; [apply prefix_app_r|]].
  intros b nb Hb. unfold registered. cbn [nodes].
  destruct (decide (leaf = b)) as [<-|Hne].
  - rewrite list_lookup_insert_eq by by eapply lookup_lt_Some.
    eexists. split; [done|]. replace nb with c by congruence.
    split; [done|]. split; [done|]. split; [by apply prefix_app_r|]. done.
  - rewrite list_lookup_insert_ne by done. by exists nb.
Qed.

Lemma insert_extends σ this method path h leaf σ' :
  insert this method path h σ = Some (leaf, σ') → extends σ σ'.
Proof.
  intros Hrun.
  destruct (insert_steps _ _ _ _ _ _ _ Hrun)
    as (n & σb & nb & c & Hn & Hsteps & _ & _ & _ & Hc & _ & ->).
  etrans; [by apply bumped_extends|].
  etrans; [by apply steps_extends|]. by apply registered_extends.
Qed.

Lemma extends_edgesLe σ σ' : extends σ σ' → edgesLe σ σ'.
Proof.
  intros [Hn _] a n Ha. destruct (Hn _ _ Ha) as (n' & Hn' & Hsub & _).
  exists n'. split; [done|]. intros k c Hk. by eapply lookup_weaken.
Qed.

Lemma patternsComplete_update σ a n n' :
  patternsComplete σ → nodes σ !! a = Some n →
  children n' = children n → patterns n' = patterns n →
  patternsComplete (mkState (<[a := n']> (nodes σ)) (hsets σ) (pobjs σ)).
Proof.
  intros Hpc Ha Hc Hp b nb k c p Hb Hk Hget. simpl in Hb.
  destruct (decide (a = b)) as [<-|Hne].
  - rewrite list_lookup_insert_eq in Hb by by eapply lookup_lt_Some.
    injection Hb as <-. rewrite Hp. rewrite Hc in Hk. by eapply Hpc.
  - rewrite list_lookup_insert_ne in Hb by done. by eapply Hpc.
Qed.

Lemma patternsComplete_step σ σ' :
  childStep σ σ' → patternsComplete σ → patternsComplete σ'.
Proof.
  intros [σ0 cur n p Hn Hp] Hpc b nb k c pat Hb Hk Hget.
  destruct (withChild_lookup _ _ _ _ _ _ Hn Hb)
    as [[-> ->]|[[Hne Hb']|[-> ->]]]; simpl in Hk |- *.
  - apply elem_of_app. destruct (decide (p = k)) as [<-|Hpk].
    + right. rewrite Hget. simpl. by apply list_elem_of_singleton.
    + left. rewrite lookup_insert_ne in Hk by done. by eapply Hpc.
  - by eapply Hpc.
  - by rewrite lookup_empty in Hk.
Qed.

Lemma patternsComplete_steps σ σ' :
  rtc childStep σ σ' → patternsComplete σ → patternsComplete σ'.
Proof.
  induction 1 as [|σ1 σ2 σ3 Hstep _ IH]; [done|].
  intros Hpc. by apply IH, (patternsComplete_step σ1).
Qed.

Lemma Built_empty : Built (T:=T) [] emptyTrie.
Proof.
  split; try done.
  - intros [|a] n k c p Hn Hk; [|done]. by injection Hn as <-.
  - by exists newNode.
Qed.

Lemma insert_Built routes σ method path h leaf σ' :
  Built routes σ → insert root method path h σ = Some (leaf, σ') →
  Built (routes ++ [(method, path, h)]) σ'.
Proof.
  intros [Hroute Hpat Hscore (n0 & Hn0 & Hord0) Hlen Hkeys Hnop] Hrun.
  pose proof (insert_extends _ _ _ _ _ _ _ Hrun) as Hext.
  destruct (insert_steps _ _ _ _ _ _ _ Hrun)
    as (n & σb & nb & c & Hn & Hsteps & Hw & Hnb & Hord & Hc & Hh & ->).
  replace n0 with n in * by congruence.
  assert (length (nodes σb) > leaf) as Hlt by by eapply lookup_lt_Some.
  split.
  - intros x m p h' Hx. apply lookup_app_Some in Hx as [Hx|[Hge Hx]].
    + destruct (Hroute _ _ _ _ Hx) as (lf & nl & Hwl & Hnl & Hm).
      destruct Hext as [Hnodes _].
      destruct (Hnodes _ _ Hnl) as (nl' & Hnl' & _ & _ & Hpre & _).
      exists lf, nl'. split; [|split; [done|]].
      * eapply walk_mono; [|done]. apply extends_edgesLe.
        by eapply insert_extends.
      * by eapply elem_of_prefix.
    + apply list_lookup_singleton_Some in Hx as [Hk [= <- <- <-]].
      assert (x = length routes) as ->
        by (apply Nat.le_antisymm; [by apply Nat.sub_0_le|done]).
      eexists leaf, _. split; [|split].
      * eapply walk_mono; [|done]. apply extends_edgesLe.
        by apply registered_extends.
      * simpl. by apply list_lookup_insert_eq.
      * simpl. apply elem_of_app. right. apply list_elem_of_singleton.
        by rewrite Hh, Hlen.
  - apply (patternsComplete_update σb leaf c); [|done..].
    apply (patternsComplete_steps _ _ Hsteps).
    by apply (patternsComplete_update σ root n).
  - intros x hs Hx. simpl in Hx.
    apply lookup_app_Some in Hx as [Hx|[Hge Hx]].
    + apply Hscore. by rewrite <-Hh.
    + apply list_lookup_singleton_Some in Hx as [Hk <-]. simpl.
      rewrite Hord, Hord0. rewrite Hh in *. lia.
  - simpl. rewrite length_app, Hh. simpl.
    destruct (decide (leaf = root)) as [->|Hne].
    + eexists. split; [by apply list_lookup_insert_eq|]. simpl.
      replace c with nb by congruence. lia.
    + exists nb. split; [by rewrite list_lookup_insert_ne|]. lia.
  - simpl. rewrite !length_app, Hh. simpl. lia.
  - intros x m p h' hs Hx Hhs. simpl in Hhs. rewrite Hh in Hhs.
    apply lookup_app_Some in Hx as [Hx|[Hge Hx]].
    + assert (x < length (hsets σ)) as Hlt'
        by (rewrite Hlen; by eapply lookup_lt_Some).
      rewrite lookup_app_l in Hhs by done. by eapply Hkeys.
    + apply list_lookup_singleton_Some in Hx as [Hk [= <- <- <-]].
      assert (x = length (hsets σ)) as ->
        by (rewrite Hlen; apply Nat.le_antisymm; [by apply Nat.sub_0_le|done]).
      rewrite list_lookup_middle in Hhs by done. by injection Hhs as <-.
  - intros x hs Hhs. simpl in Hhs. rewrite Hh in Hhs.
    apply lookup_app_Some in Hhs as [Hhs|[_ Hhs]]; [by eapply Hnop|].
    by apply list_lookup_singleton_Some in Hhs as [_ <-].
Qed.

Lemma insertAll_Built routes' :
  ∀ routes σ σ',
    Built routes σ → insertAll routes' σ = Some σ' →
    Built (routes ++ routes') σ'.
Proof.
  induction routes' as [|[[method path] h] routes' IH]; intros routes σ σ' Hb Hrun.
  { injection Hrun as <-. by rewrite app_nil_r. }
  cbn [insertAll] in Hrun.
  destruct (insert root method path h σ) as [[leaf σ1]|] eqn:Hins; [|done].
  rewrite cons_middle, (assoc_L (++)). eapply IH; [|done].
  by eapply insert_Built.
Qed.

End Steps.

(** ** The result of a search *)

Section Result.
Context {T : Type} {E : RegExpEngine}.
Implicit Types σ : State T.

Lemma insertByScore_sorted (x : nat * HandlerSet T) l :
  StronglySorted byScore l → StronglySorted byScore (insertByScore x l).
Proof.
  induction 1 as [|y l Hl IH Hy]; cbn [insertByScore].
  { by repeat constructor. }
  destruct (score x.2 <=? score y.2) eqn:Hle.
  - apply Nat.leb_le in Hle. constructor; [by constructor|].
    constructor; [done|]. eapply Forall_impl; [exact Hy|].
    intros z Hz. unfold byScore in *. lia.
  - apply Nat.leb_gt in Hle. constructor; [done|].
    rewrite insertByScore_perm. constructor; [|done]. unfold byScore. lia.
Qed.

Lemma sortByScore_sorted (l : list (nat * HandlerSet T)) :
  StronglySorted byScore (sortByScore l).
Proof.
  induction l as [|x l IH]; [constructor|]. by apply insertByScore_sorted.
Qed.

Lemma sorted_by_address (l : list (nat * HandlerSet T)) :
  StronglySorted byScore l → Forall (λ ah, score ah.2 = S ah.1) l →
  StronglySorted Nat.le l.*1.
Proof.
  induction 1 as [|x l Hl IH Hx]; intros Hsc; [constructor|].
  apply Forall_cons in Hsc as [Hsx Hsl]. rewrite fmap_cons.
  constructor; [by apply IH|]. apply Forall_fmap.
  eapply Forall_impl; [apply Forall_and; split; [exact Hx|exact Hsl]|].
  intros y [Hxy Hsy]. unfold byScore in Hxy. simpl. lia.
Qed.

Lemma readHandlerSets_fst σ σ' refs (hs : list (nat * HandlerSet T)) :
  readHandlerSets refs σ = Some (hs, σ') →
  σ' = σ ∧ hs.*1 = refs ∧ Forall (λ ah, hsets σ !! ah.1 = Some ah.2) hs.
Proof.
  intros Hrun. apply readHandlerSets_run in Hrun as [-> Hall].
  split; [done|]. induction Hall as [|a [a' h] refs hs [Ha Hh] _ [IH1 IH2]].
  { by split. }
  simpl in Ha. subst a'. split; [by rewrite fmap_cons, IH1|]. by constructor.
Qed.

Section Built.
Variables (routes : list (Route T)) (kp : list (list string)) (σ0 : State T).
Hypothesis HInv : Inv routes kp σ0.
Hypothesis HBuilt : Built routes σ0.
Variables (method path : string).

Lemma built_hangs x m p h :
  routes !! x = Some (m, p, h) → m = method ∨ m = METHOD_NAME_ALL →
  hangs σ0 method root (splitRoutingPath p) x.
Proof.
  intros Hx Hm.
  destruct (built_route _ _ HBuilt _ _ _ _ Hx) as (leaf & n & Hw & Hn & Hmm).
  exists leaf. split; [done|]. exists n, {[ m := x ]}.
  split; [done|]. split; [done|]. unfold methodEntry.
  destruct Hm as [->| ->]; [by rewrite lookup_singleton_eq|].
  destruct (decide (METHOD_NAME_ALL = method)) as [<-|Hne].
  - by rewrite lookup_singleton_eq.
  - rewrite lookup_singleton_ne by done. by rewrite lookup_singleton_eq.
Qed.

Lemma good_score σ a h : good σ0 σ → hsets σ !! a = Some h → score h = S a.
Proof.
  intros [[_ Hh] _] Ha.
  destruct (Forall2_lookup_r _ _ _ _ _ Hh Ha) as (h0 & Hh0 & _ & _ & Hs).
  rewrite Hs. by eapply built_score.
Qed.

Lemma good_handler σ a h :
  good σ0 σ → hsets σ !! a = Some h → ∃ m p, routes !! a = Some (m, p, handler h).
Proof.
  intros [[_ Hh] _] Ha.
  destruct (Forall2_lookup_r _ _ _ _ _ Hh Ha) as (h0 & Hh0 & Hhd & _).
  assert (is_Some (routes !! a)) as [[[m p] h'] Hr].
  { apply lookup_lt_is_Some_2. rewrite <-(inv_hsets_len _ _ _ HInv).
    by eapply lookup_lt_Some. }
  destruct (inv_hsets _ _ _ HInv _ _ _ _ Hr) as (h1 & Hh1 & <-).
  exists m, p. rewrite Hhd. by replace h0 with h1 by congruence.
Qed.

(** The search of a store that registrations built: it returns, the
    references are in the order of the registrations, they are those of
    the registrations that match, and the pairs carry their handlers. *)
Lemma search_refs σ :
  good σ0 σ →
  ∃ refs res σ',
    search root method path σ = Some (res, σ') ∧ good σ0 σ'
    ∧ searchRefs root method path σ = Some (refs, σ')
    ∧ Forall2 (handlerOf routes) refs res
    ∧ StronglySorted Nat.le refs
    ∧ ∀ x, x ∈ refs ↔ ∃ r, routes !! x = Some r
                            ∧ routeMatches r method path = true.
Proof.
  intros Hg.
  destruct (wp_run _ _ _ (searchRefs_good routes kp σ0 HInv method path σ Hg))
    as (refs & σ1 & Hrefs & Hg1 & _ & Hsound).
  destruct (yields_searchRefs σ0 method (built_patterns _ _ HBuilt) path
              σ refs σ1 (proj1 Hg) Hrefs) as [Hcomplete _].
  destruct (readHandlerSets_good σ0 refs σ1 Hg1) as (hs & Hread & Hfst).
  { intros x Hx. by eapply (matched_valid routes kp), Hsound. }
  destruct (readHandlerSets_fst _ _ _ _ Hread) as (_ & _ & Hall).
  exists refs, ((λ ah : nat * HandlerSet T, (handler ah.2, hs_params ah.2)) <$> hs), σ1.
  split.
  { unfold search. rewrite (bind_run _ _ _ _ _ Hrefs).
    by rewrite (bind_run _ _ _ _ _ Hread). }
  split; [done|]. split; [done|]. split; [|split].
  - rewrite <-Hfst. apply Forall2_fmap, Forall_Forall2_diag.
    eapply Forall_impl; [exact Hall|]. intros [a h] Ha. simpl in *.
    by eapply good_handler.
  - unfold searchRefs in Hrefs.
    apply bind_inv in Hrefs as ([] & σa & Hwrite & Hrefs).
    apply bind_inv in Hrefs as (handlerSets & σb & Hparts & Hrefs).
    apply bind_inv in Hrefs as (hs' & σc & Hread' & Hret).
    injection Hret as <- <-.
    destruct (readHandlerSets_fst _ _ _ _ Hread') as (-> & Hfst' & Hall').
    destruct (1 <? length hs') eqn:Hlen.
    + apply sorted_by_address; [apply sortByScore_sorted|].
      rewrite sortByScore_perm. eapply Forall_impl; [exact Hall'|].
      intros [a h] Ha. by eapply (good_score σb).
    + apply Nat.ltb_ge in Hlen. rewrite <-Hfst'.
      destruct hs' as [|ah [|ah' hs']]; simpl in *; [constructor| |lia].
      by repeat constructor.
  - intros x. split.
    + intros Hx. destruct (Hsound x Hx) as (m & p & h & Hr & Hm & Hmatch).
      exists (m, p, h). split; [done|]. unfold routeMatches. simpl.
      rewrite Hmatch, andb_true_r.
      destruct Hm as [->| ->].
      * by rewrite bool_decide_eq_true_2.
      * rewrite (bool_decide_eq_true_2 (METHOD_NAME_ALL = METHOD_NAME_ALL)) by done.
        apply orb_true_r.
    + intros ([[m p] h] & Hr & Hmatch). unfold routeMatches in Hmatch.
      simpl in Hmatch. apply andb_true_iff in Hmatch as [Hm Hmatch].
      eapply Hcomplete; [|exact Hmatch]. eapply built_hangs; [done|].
      apply orb_true_iff in Hm as [?%bool_decide_eq_true|?%bool_decide_eq_true];
        auto.
Qed.

End Built.

Lemma built_stores (routes : list (Route T)) (σ : State T) :
  insertAll routes emptyTrie = Some σ →
  ∃ kp, Inv routes kp σ ∧ Built routes σ ∧ good σ σ.
Proof.
  intros Hrun.
  destruct (insertAll_built routes σ Hrun) as (kp & HInv & Hv).
  exists kp. split; [done|]. split; [|by split].
  by apply (insertAll_Built routes [] emptyTrie σ Built_empty).
Qed.

Lemma splitOutside_plain path :
  hasChar "{" path = false → splitOutside false path = split path.
Proof.
  induction path as [|c rest IH]; [done|]. cbn [hasChar splitOutside split].
  intros [Hc Hrest]%orb_false_iff. rewrite andb_true_r.
  destruct (Ascii.eqb c slash); [by rewrite IH|].
  rewrite Hc. by destruct (Ascii.eqb c "}"); rewrite IH.
Qed.

Lemma split_single path : split path = [""] → path = "".
Proof.
  destruct path as [|c rest]; [done|]. cbn [split].
  destruct (Ascii.eqb c slash).
  - destruct rest as [|d rest]; [done|]. cbn [split].
    destruct (Ascii.eqb d slash); [done|]. by destruct (split rest).
  - by destruct (split rest).
Qed.

Lemma matchFrom_refl rs : rs ≠ [] → matchFrom rs rs = true.
Proof.
  induction rs as [|r rs IH]; [done|]. intros _. cbn [matchFrom].
  rewrite String.eqb_refl. simpl.
  destruct rs as [|r' rs]; [done|].
  rewrite bool_decide_eq_false_2 by done. by rewrite IH.
Qed.

(** A route without a constraint matches its own text. *)
Lemma plain_route_matches path :
  hasChar "{" path = false → path ≠ "" →
  matchFrom (splitRoutingPath path) (splitPath path) = true.
Proof.
  intros Hplain Hne. unfold splitRoutingPath, splitPath.
  rewrite (splitOutside_plain _ Hplain).
  assert (match split path with "" :: paths => paths | paths => paths end ≠ [])
    as Hparts.
  { destruct (split path) as [|p ps] eqn:Hsplit.
    - by destruct path as [|c rest]; [|cbn [split] in Hsplit;
        destruct (Ascii.eqb c slash); [|destruct (split rest)]].
    - destruct p as [|c p]; [|done]. intros ->. by apply Hne, split_single. }
  by apply matchFrom_refl.
Qed.

Lemma nodesKept_ret {A} (a : A) : nodesKept (T:=T) (mret a).
Proof. by intros σ a' σ' [= <- <-]. Qed.

Lemma nodesKept_bind {A B} (m : M A) (f : A → M B) :
  nodesKept (T:=T) m → (∀ a, nodesKept (f a)) → nodesKept (m ≫= f).
Proof.
  intros Hm Hf σ b σ' Hrun. apply bind_inv in Hrun as (a & σ1 & H1 & H2).
  rewrite (Hf _ _ _ _ H2). by eapply Hm.
Qed.

Lemma nodesKept_getNode a : nodesKept (T:=T) (getNode a).
Proof.
  intros σ n σ' Hrun. unfold getNode in Hrun.
  destruct (nodes σ !! a); [|done]. by injection Hrun as _ <-.
Qed.

Lemma nodesKept_getHS a : nodesKept (T:=T) (getHS a).
Proof.
  intros σ n σ' Hrun. unfold getHS in Hrun.
  destruct (hsets σ !! a); [|done]. by injection Hrun as _ <-.
Qed.

Lemma nodesKept_getP a : nodesKept (T:=T) (getP a).
Proof.
  intros σ n σ' Hrun. unfold getP in Hrun.
  destruct (pobjs σ !! a); [|done]. by injection Hrun as _ <-.
Qed.

Lemma nodesKept_allocP o : nodesKept (T:=T) (allocP o).
Proof. by intros σ n σ' [= _ <-]. Qed.

Lemma nodesKept_setP a o : nodesKept (T:=T) (setP a o).
Proof. by intros σ n σ' [= _ <-]. Qed.

Lemma nodesKept_setHS a h : nodesKept (T:=T) (setHS a h).
Proof. by intros σ n σ' [= _ <-]. Qed.

Lemma nodesKept_deref r : nodesKept (T:=T) (deref r).
Proof. destruct r; [apply nodesKept_ret|apply nodesKept_getP]. Qed.

Lemma nodesKept_getHandlerSetsLoop ms method np ps :
  nodesKept (T:=T) (getHandlerSetsLoop ms method np ps).
Proof.
  induction ms as [|m ms IH]; cbn [getHandlerSetsLoop]; [apply nodesKept_ret|].
  destruct (methodEntry m method) as [a|]; [|done].
  apply nodesKept_bind; [apply nodesKept_getHS|]. intros h.
  apply nodesKept_bind; [apply nodesKept_allocP|]. intros o.
  apply nodesKept_bind.
  { apply nodesKept_bind; [apply nodesKept_getHS|]. intros h'.
    apply nodesKept_setHS. }
  intros [].
  apply nodesKept_bind.
  { destruct (someParams np ps); [|apply nodesKept_ret].
    apply nodesKept_bind; [apply nodesKept_deref|]. intros o1.
    apply nodesKept_bind; [|intros; apply nodesKept_setP].
    destruct ps as [r|]; [|apply nodesKept_ret].
    apply nodesKept_bind; [apply nodesKept_deref|]. intros; apply nodesKept_ret. }
  intros []. apply nodesKept_bind; [done|]. intros; apply nodesKept_ret.
Qed.

Lemma nodesKept_getHandlerSets node method np ps :
  nodesKept (T:=T) (getHandlerSets node method np ps).
Proof.
  apply nodesKept_bind; [apply nodesKept_getNode|]. intros n.
  apply nodesKept_getHandlerSetsLoop.
Qed.

Lemma nodesKept_wildcard node method part rest isLast :
  nodesKept (T:=T) (searchPattern node method part rest isLast PWild).
Proof.
  unfold searchPattern.
  apply nodesKept_bind; [apply nodesKept_getNode|]. intros n.
  apply nodesKept_bind.
  { destruct (params n); [apply nodesKept_allocP|].
    apply nodesKept_bind; [apply nodesKept_getP|]. intros; apply nodesKept_allocP. }
  intros p. apply nodesKept_bind; [apply nodesKept_getNode|]. intros n'.
  destruct (children n' !! "*"); [|apply nodesKept_ret].
  apply nodesKept_bind; [apply nodesKept_getHandlerSets|].
  intros; apply nodesKept_ret.
Qed.

End Result.

(** ** C6: a route registered twice *)

Lemma insertAll_app {T} {E : RegExpEngine} (rs rs' : list (Route T)) (σ : State T) :
  insertAll (rs ++ rs') σ = insertAll rs σ ≫= insertAll rs'.
Proof.
  revert σ. induction rs as [|[[m p] h] rs IH]; intros σ; [done|].
  cbn [app insertAll]. destruct (insert root m p h σ) as [[leaf σ1]|]; [|done].
  apply IH.
Qed.

(** In a list in ascending order, a smaller element stands before a
    larger one. *)
Lemma sorted_before (l : list nat) i j x y :
  StronglySorted Nat.le l → l !! i = Some x → l !! j = Some y → x < y → i < j.
Proof.
  intros Hl. revert i j. induction Hl as [|a l Hl IH Hall]; intros i j Hi Hj Hxy.
  { done. }
  destruct i as [|i], j as [|j]; simpl in *.
  - simplify_eq. lia.
  - lia.
  - injection Hj as ->. apply list_elem_of_lookup_2 in Hi.
    rewrite Forall_forall in Hall. specialize (Hall _ Hi). lia.
  - apply ->Nat.succ_lt_mono. by apply IH.
Qed.

(** C6: registering the same method and path twice.  On a trie built by
    any registrations, a registration raises an error only when a
    constraint of its route is malformed; when it raises none, neither
    does the same registration made again: both return the same leaf,
    the second adds no node, no child key and no pattern (it follows the
    children the first one left), the leaf receives one method map per
    registration, and the two handler sets have the same parameter names
    and consecutive scores.  Both are retained: every later search,
    after any requests, returns its handlers in the order of the
    registrations, and it returns the two exactly when the route matches
    the request, every occurrence of the first before every occurrence
    of the second.  For [/users/:id] registered twice, searching
    [/users/42] returns both handlers in registration order, each with
    [{id: "42"}]; searching [/users/:id], where the traversal collects
    the two records twice, returns the first handler twice and then the
    second twice. *)
Theorem duplicate_registration {T} {E : RegExpEngine} (routes : list (Route T))
    (σ : State T) (method path : string) (h1 h2 : T) :
  insertAll routes emptyTrie = Some σ →
  (is_Some (insert root method path h1 σ) ↔ compiles path = true) ∧
  (∀ leaf σ1,
     insert root method path h1 σ = Some (leaf, σ1) →
     ∃ (σ2 : State T) ms keys sc,
       insert root method path h2 σ1 = Some (leaf, σ2) ∧
       length (nodes σ2) = length (nodes σ1) ∧
       children <$> nodes σ2 = children <$> nodes σ1 ∧
       patterns <$> nodes σ2 = patterns <$> nodes σ1 ∧
       length (hsets σ) = length routes ∧
       methods <$> nodes σ2 !! leaf
       = Some (ms ++ [ {[ method := length (hsets σ) ]};
                       {[ method := S (length (hsets σ)) ]} ]) ∧
       hsets σ2 = hsets σ ++ [mkHandlerSet h1 keys sc None;
                              mkHandlerSet h2 keys (S sc) None] ∧
       ∀ (reqs : list (string * string)) (method' path' : string),
         ∃ σ3 refs res σ4,
           serve reqs σ2 = Some σ3 ∧
           search root method' path' σ3 = Some (res, σ4) ∧
           searchRefs root method' path' σ3 = Some (refs, σ4) ∧
           Forall2 (handlerOf (routes ++ [(method, path, h1); (method, path, h2)]))
                   refs res ∧
           StronglySorted Nat.le refs ∧
           (length routes ∈ refs
            ↔ routeMatches (method, path, h1) method' path' = true) ∧
           (S (length routes) ∈ refs
            ↔ routeMatches (method, path, h2) method' path' = true) ∧
           ∀ i j, refs !! i = Some (length routes) →
                  refs !! j = Some (S (length routes)) →
                  i < j ∧ res.*1 !! i = Some h1 ∧ res.*1 !! j = Some h2) ∧
  ∃ (σ1 σ2 : State T) (leaf : nat),
    insert root method "/users/:id" h1 emptyTrie = Some (leaf, σ1) ∧
    insert root method "/users/:id" h2 σ1 = Some (leaf, σ2) ∧
    length (nodes σ2) = length (nodes σ1) ∧
    children <$> nodes σ2 = children <$> nodes σ1 ∧
    patterns <$> nodes σ2 = patterns <$> nodes σ1 ∧
    methods <$> nodes σ2 !! leaf = Some [ {[ method := 0 ]}; {[ method := 1 ]} ] ∧
    (λ h, (handler h, score h)) <$> hsets σ2 = [(h1, 1); (h2, 2)] ∧
    searchView σ2 method "/users/42"
    = Some [(h1, {[ "id" := Str "42" ]}); (h2, {[ "id" := Str "42" ]})] ∧
    searchView σ2 method "/users/:id"
    = Some [(h1, {[ "id" := Str ":id" ]}); (h1, {[ "id" := Str ":id" ]});
            (h2, {[ "id" := Str ":id" ]}); (h2, {[ "id" := Str ":id" ]})].
Proof.
  intros Hbuilt.
  destruct (insertAll_built routes σ Hbuilt) as (kp & HInv & Hv).
  split; [|split].
  { split.
    - intros [[leaf σ1] Hrun]. by eapply insert_compiles.
    - intros Hwf.
      destruct (insert_inv _ _ _ method path h1 HInv Hv Hwf)
        as (leaf & kp1 & σ1 & Hrun1 & _ & _).
      by rewrite Hrun1. }
  { intros leaf σ1 Hrun1.
    destruct (insert_again _ _ _ _ _ _ method h2 Hrun1)
      as (σ2 & ms & keys & sc & Hrun2 & Hlen & Hch & Hpat & _ & Hms & _ & Hhs).
    exists σ2, ms, keys, sc.
    do 4 (split; [done|]). split; [exact (inv_hsets_len _ _ _ HInv)|].
    do 2 (split; [done|]).
    intros reqs method' path'.
    set (routes' := routes ++ [(method, path, h1); (method, path, h2)]).
    assert (insertAll routes' emptyTrie = Some σ2) as Hbuilt2.
    { unfold routes'. rewrite insertAll_app, Hbuilt. simpl.
      by rewrite Hrun1, Hrun2. }
    destruct (built_stores _ _ Hbuilt2) as (kp2 & HInv2 & HBuilt2 & Hg2).
    destruct (serve_good _ _ _ reqs HInv2 σ2 Hg2) as (σ3 & Hserve & Hg3).
    destruct (search_refs routes' kp2 σ2 HInv2 HBuilt2 method' path' σ3 Hg3)
      as (refs & res & σ4 & Hsearch & _ & Hrefs & Hres & Hsorted & Hiff).
    assert (routes' !! length routes = Some (method, path, h1)) as Hx1.
    { unfold routes'. by rewrite list_lookup_middle. }
    assert (routes' !! S (length routes) = Some (method, path, h2)) as Hx2.
    { unfold routes'. rewrite lookup_app_r by apply Nat.le_succ_diag_r.
      by rewrite Nat.sub_succ_l, Nat.sub_diag by done. }
    exists σ3, refs, res, σ4. do 5 (split; [done|]).
    split; [|split].
    - rewrite Hiff. split.
      + intros (r & Hr & Hm).
        assert (Some r = Some (method, path, h1)) as [= ->]
          by (etrans; [symmetry; exact Hr|exact Hx1]).
        done.
      + intros Hm. by exists (method, path, h1).
    - rewrite Hiff. split.
      + intros (r & Hr & Hm).
        assert (Some r = Some (method, path, h2)) as [= ->]
          by (etrans; [symmetry; exact Hr|exact Hx2]).
        done.
      + intros Hm. by exists (method, path, h2).
    - intros i j Hi Hj. split.
      { eapply (sorted_before refs); [done..|lia]. }
      rewrite !list_lookup_fmap.
      destruct (Forall2_lookup_l _ _ _ _ _ Hres Hi) as ([hi ri] & -> & m1 & p1 & Hr1).
      destruct (Forall2_lookup_l _ _ _ _ _ Hres Hj) as ([hj rj] & -> & m2 & p2 & Hr2).
      simpl in *.
      assert (Some (m1, p1, hi) = Some (method, path, h1)) as [= _ _ ->]
        by (etrans; [symmetry; exact Hr1|exact Hx1]).
      assert (Some (m2, p2, hj) = Some (method, path, h2)) as [= _ _ ->]
        by (etrans; [symmetry; exact Hr2|exact Hx2]).
      done. }
  eexists _, (Scenario.users {[ method := 0 ]} {[ method := 1 ]} h1 h2), _.
  split; [reflexivity|].
  split; [reflexivity|].
  do 5 (split; [reflexivity|]).
  generalize (methodEntry_singleton method 0) (methodEntry_singleton method 1).
  generalize ({[ method := 0 ]} : gmap string nat)
             ({[ method := 1 ]} : gmap string nat).
  intros mm1 mm2 E1 E2. split.
  - run_lhs. rewrite E1. run_lhs. rewrite E2. run_lhs. reflexivity.
  - run_lhs. rewrite E1. run_lhs. rewrite E2. run_lhs.
    rewrite E1. run_lhs. rewrite E2. run_lhs. reflexivity.
Qed.

Lemma duplicate_registration_witness :
  is_Some (insert (E := MiniRegExp.engine) root "GET" "/:id{[0-9]+}" 2
             (Scenario.param {[ "GET" := 0 ]} 1))
  ↔ compiles (E := MiniRegExp.engine) "/:id{[0-9]+}" = true.
Proof.
  exact (proj1 (duplicate_registration (E := MiniRegExp.engine)
                  [("GET", "/:x/b", 1)] (Scenario.param {[ "GET" := 0 ]} 1)
                  "GET" "/:id{[0-9]+}" 2 3 eq_refl)).
Defined.

(** ** C9: requests that no registration matches *)




(** X1: registrations and requests: on a trie built by registrations, after
    any earlier requests, a search returns the handlers of exactly the
    registrations that match the request: [refs] are the indices of the
    registrations behind the pairs of the result, and an index is among
    them if and only if its registration matches. *)
Theorem search_returns_matching_registrations {T} {E : RegExpEngine}
    (routes : list (Route T)) (σ : State T) (reqs : list (string * string))
    (method path : string) :
  insertAll routes emptyTrie = Some σ →
  ∃ σ1 refs res σ2,
    serve reqs σ = Some σ1
    ∧ search root method path σ1 = Some (res, σ2)
    ∧ searchRefs root method path σ1 = Some (refs, σ2)
    ∧ Forall2 (handlerOf routes) refs res
    ∧ ∀ x, x ∈ refs ↔ ∃ r, routes !! x = Some r
                            ∧ routeMatches r method path = true.
Proof.
  intros Hrun. destruct (built_stores _ _ Hrun) as (kp & HInv & HBuilt & Hg).
  destruct (serve_good _ _ _ reqs HInv σ Hg) as (σ1 & Hserve & Hg1).
  destruct (search_refs routes kp σ HInv HBuilt method path σ1 Hg1)
    as (refs & res & σ2 & Hsearch & _ & Hrefs & Hres & _ & Hiff).
  by exists σ1, refs, res, σ2.
Qed.

Lemma search_returns_matching_registrations_witness :
  ∃ (σ1 : State nat) refs res σ2,
    serve (E := MiniRegExp.engine) [("GET", "/a/b")]
      (Scenario.param {[ "GET" := 0 ]} 7) = Some σ1
    ∧ search (E := MiniRegExp.engine) root "GET" "/v/b" σ1 = Some (res, σ2)
    ∧ searchRefs (E := MiniRegExp.engine) root "GET" "/v/b" σ1 = Some (refs, σ2)
    ∧ Forall2 (handlerOf [("GET", "/:x/b", 7)]) refs res
    ∧ ∀ x, x ∈ refs ↔ ∃ r, [("GET", "/:x/b", 7)] !! x = Some r
                            ∧ routeMatches (E := MiniRegExp.engine) r "GET" "/v/b"
                              = true.
Proof.
  apply (search_returns_matching_registrations (E := MiniRegExp.engine)
           [("GET", "/:x/b", 7)]).
  reflexivity.
Defined.

(** X2: the order of a result: the handlers are returned in the order of
    their registrations, whatever the order in which the traversal found
    them. *)
Theorem search_registration_order {T} {E : RegExpEngine}
    (routes : list (Route T)) (σ : State T) (reqs : list (string * string))
    (method path : string) :
  insertAll routes emptyTrie = Some σ →
  ∃ σ1 refs res σ2,
    serve reqs σ = Some σ1
    ∧ search root method path σ1 = Some (res, σ2)
    ∧ searchRefs root method path σ1 = Some (refs, σ2)
    ∧ Forall2 (handlerOf routes) refs res
    ∧ StronglySorted Nat.le refs.
Proof.
  intros Hrun. destruct (built_stores _ _ Hrun) as (kp & HInv & HBuilt & Hg).
  destruct (serve_good _ _ _ reqs HInv σ Hg) as (σ1 & Hserve & Hg1).
  destruct (search_refs routes kp σ HInv HBuilt method path σ1 Hg1)
    as (refs & res & σ2 & Hsearch & _ & Hrefs & Hres & Hsorted & _).
  by exists σ1, refs, res, σ2.
Qed.

Lemma search_registration_order_witness :
  ∃ (σ1 : State nat) refs res σ2,
    serve (E := MiniRegExp.engine) [("GET", "/files")]
      (Scenario.files {[ "GET" := 0 ]} {[ "GET" := 1 ]} 7 8) = Some σ1
    ∧ search (E := MiniRegExp.engine) root "GET" "/files" σ1 = Some (res, σ2)
    ∧ searchRefs (E := MiniRegExp.engine) root "GET" "/files" σ1 = Some (refs, σ2)
    ∧ Forall2 (handlerOf [("GET", "/files/*", 7); ("GET", "/files", 8)]) refs res
    ∧ StronglySorted Nat.le refs.
Proof.
  apply (search_registration_order (E := MiniRegExp.engine)
           [("GET", "/files/*", 7); ("GET", "/files", 8)]).
  reflexivity.
Defined.

(** X3: registration and lookup: a route whose text has no constraint is
    found by the search of its own text, for its method (or for any
    method when it was registered for all methods), whatever else is
    registered and whatever was searched before. *)
Theorem registered_path_is_found {T} {E : RegExpEngine}
    (routes : list (Route T)) (σ : State T) (reqs : list (string * string))
    (m method path : string) (h : T) :
  insertAll routes emptyTrie = Some σ →
  (m, path, h) ∈ routes → m = method ∨ m = METHOD_NAME_ALL →
  hasChar "{" path = false → path ≠ "" →
  ∃ σ1 res σ2,
    serve reqs σ = Some σ1
    ∧ search root method path σ1 = Some (res, σ2)
    ∧ h ∈ res.*1.
Proof.
  intros Hrun Hin Hm Hplain Hne.
  destruct (built_stores _ _ Hrun) as (kp & HInv & HBuilt & Hg).
  destruct (serve_good _ _ _ reqs HInv σ Hg) as (σ1 & Hserve & Hg1).
  destruct (search_refs routes kp σ HInv HBuilt method path σ1 Hg1)
    as (refs & res & σ2 & Hsearch & _ & Hrefs & Hres & _ & Hiff).
  exists σ1, res, σ2. split; [done|]. split; [done|].
  apply list_elem_of_lookup in Hin as [x Hx].
  assert (x ∈ refs) as [i Hi]%list_elem_of_lookup.
  { apply Hiff. exists (m, path, h). split; [done|]. unfold routeMatches. simpl.
    rewrite (plain_route_matches _ Hplain Hne), andb_true_r.
    destruct Hm as [->| ->].
    - by rewrite bool_decide_eq_true_2.
    - rewrite (bool_decide_eq_true_2 (METHOD_NAME_ALL = METHOD_NAME_ALL)) by done.
      apply orb_true_r. }
  destruct (Forall2_lookup_l _ _ _ _ _ Hres Hi) as (hr & Hhr & m' & p' & Hr).
  apply list_elem_of_fmap. exists hr. split; [|by eapply list_elem_of_lookup_2].
  assert (Some (m, path, h) = Some (m', p', hr.1)) as Heq
    by (etrans; [symmetry; exact Hx|exact Hr]).
  by injection Heq.
Qed.

Lemma registered_path_is_found_witness :
  ∃ (σ1 : State nat) res σ2,
    serve (E := MiniRegExp.engine) [("GET", "/v/b")]
      (Scenario.param {[ "GET" := 0 ]} 7) = Some σ1
    ∧ search (E := MiniRegExp.engine) root "GET" "/:x/b" σ1 = Some (res, σ2)
    ∧ 7 ∈ res.*1.
Proof.
  apply (registered_path_is_found (E := MiniRegExp.engine)
           [("GET", "/:x/b", 7)] _ _ "GET").
  - reflexivity.
  - by apply list_elem_of_singleton.
  - by left.
  - reflexivity.
  - done.
Defined.

(** X4: [insert] only adds: every node keeps its child edges, its patterns
    and its method maps (new ones come after them) and its [#params];
    every handler set stays as it is and one is added, for the new
    registration; no parameter object is touched.  The segments of the
    route lead from [this] to the node returned, whose last method map
    holds the new handler set under the method. *)
Theorem insert_only_grows {T} {E : RegExpEngine} (σ σ' : State T)
    (this leaf : nat) (method path : string) (h : T) :
  insert this method path h σ = Some (leaf, σ') →
  extends σ σ'
  ∧ walk σ' this (splitRoutingPath path) = Some leaf
  ∧ (∃ n, nodes σ' !! leaf = Some n
          ∧ last (methods n) = Some {[ method := length (hsets σ) ]})
  ∧ ∃ sc, hsets σ' = hsets σ ++ [mkHandlerSet h
                                   (firstOccurrences (keysOf (splitRoutingPath path)))
                                   sc None].
Proof.
  intros Hrun. split; [by eapply insert_extends|].
  destruct (insert_steps _ _ _ _ _ _ _ Hrun)
    as (n & σb & nb & c & Hn & Hsteps & Hw & Hnb & Hord & Hc & Hh & ->).
  split; [|split].
  - eapply walk_mono; [|done]. by apply extends_edgesLe, registered_extends.
  - eexists. split.
    + simpl. apply list_lookup_insert_eq. by eapply lookup_lt_Some.
    + simpl. by rewrite last_snoc, Hh.
  - exists (order nb). simpl. by rewrite Hh.
Qed.

Lemma insert_only_grows_witness :
  let σ := Scenario.param {[ "GET" := 0 ]} 7 in
  ∃ σ' leaf,
    insert (E := MiniRegExp.engine) root "POST" "/:x/c" 8 σ = Some (leaf, σ')
    ∧ extends σ σ'
    ∧ walk σ' root (splitRoutingPath "/:x/c") = Some leaf
    ∧ (∃ n, nodes σ' !! leaf = Some n
            ∧ last (methods n) = Some {[ "POST" := length (hsets σ) ]})
    ∧ ∃ sc, hsets σ' = hsets σ ++ [mkHandlerSet 8
                                     (firstOccurrences (keysOf (splitRoutingPath "/:x/c")))
                                     sc None].
Proof.
  intros σ.
  destruct (insert (E := MiniRegExp.engine) root "POST" "/:x/c" 8 σ)
    as [[leaf σ']|] eqn:Hrun; [|by vm_compute in Hrun].
  exists σ', leaf. split; [done|].
  exact (insert_only_grows (E := MiniRegExp.engine) σ σ' root leaf "POST" "/:x/c" 8
           Hrun).
Defined.

(** X5: the wildcard branch of [search] writes no field of any node: the
    wildcard child joins the frontier with the [#params] that an earlier
    step, or an earlier search, left on it.  With [/:id/*/:name]
    registered, the search of [/2/foo/bar] loses the binding of [id] on
    a fresh trie, and returns the [id] of the earlier request
    [/1/*/zzz] after that one was served. *)
Theorem wildcard_child_keeps_stale_params {T} {E : RegExpEngine} :
  (∀ (σ σ' : State T) node method part rest isLast r,
     searchPattern node method part rest isLast PWild σ = Some (r, σ') →
     nodes σ' = nodes σ)
  ∧ ∀ h : T,
      let routes := [("GET", "/:id/*/:name", h)] in
      searchAfter routes "GET" "/2/foo/bar"
      = Some [(h, {[ "id" := undefined; "undefined" := undefined;
                     "name" := Str "bar" ]})]
      ∧ (σ ← insertAll routes emptyTrie;
         σ1 ← serve [("GET", "/1/*/zzz")] σ;
         searchView σ1 "GET" "/2/foo/bar")
        = Some [(h, {[ "id" := Str "1"; "undefined" := undefined;
                       "name" := Str "bar" ]})].
Proof.
  split.
  - intros σ σ' node method part rest isLast r Hrun.
    by eapply nodesKept_wildcard.
  - intros h. split; vm_compute; reflexivity.
Qed.

Lemma wildcard_child_keeps_stale_params_witness :
  let σ := Scenario.files {[ "GET" := 0 ]} {[ "GET" := 1 ]} 7 8 in
  ∃ r σ',
    searchPattern (E := MiniRegExp.engine) 1 "GET" "x" "x" true PWild σ = Some (r, σ')
    ∧ nodes σ' = nodes σ.
Proof.
  intros σ.
  destruct (searchPattern (E := MiniRegExp.engine) 1 "GET" "x" "x" true PWild σ)
    as [[r σ']|] eqn:Hrun; [|by vm_compute in Hrun].
  exists r, σ'. split; [done|].
  exact (proj1 (wildcard_child_keeps_stale_params (E := MiniRegExp.engine))
           σ σ' 1 "GET" "x" "x" true r Hrun).
Defined.

(** X6: the empty path: a search of the empty path returns nothing,
    whatever is registered; and a registration of the empty path is
    accepted but is returned by no search, since the root collects
    handlers from its children only. *)
Theorem empty_path_is_never_matched {T} {E : RegExpEngine}
    (routes : list (Route T)) (σ : State T) (reqs : list (string * string)) :
  insertAll routes emptyTrie = Some σ →
  ∃ σ1,
    serve reqs σ = Some σ1
    ∧ (∀ method, ∃ σ2, search root method "" σ1 = Some ([], σ2))
    ∧ ∀ method path x m h,
        routes !! x = Some (m, "", h) →
        ∃ refs σ2, searchRefs root method path σ1 = Some (refs, σ2) ∧ x ∉ refs.
Proof.
  intros Hrun. destruct (built_stores _ _ Hrun) as (kp & HInv & HBuilt & Hg).
  destruct (serve_good _ _ _ reqs HInv σ Hg) as (σ1 & Hserve & Hg1).
  exists σ1. split; [done|]. split.
  - intros method.
    destruct (search_refs routes kp σ HInv HBuilt method "" σ1 Hg1)
      as (refs & res & σ2 & Hsearch & _ & _ & Hres & _ & Hiff).
    exists σ2. destruct refs as [|x refs].
    + by apply Forall2_nil_inv_l in Hres as ->.
    + destruct (proj1 (Hiff x)) as (r & _ & Hm); [by left|].
      unfold routeMatches in Hm. apply andb_true_iff in Hm as [_ Hm].
      by rewrite matchFrom_nil in Hm.
  - intros method path x m h Hx.
    destruct (search_refs routes kp σ HInv HBuilt method path σ1 Hg1)
      as (refs & res & σ2 & _ & _ & Hrefs & _ & _ & Hiff).
    exists refs, σ2. split; [done|]. intros (r & Hr & Hm)%Hiff.
    assert (Some r = Some (m, "", h)) as [= ->]
      by (etrans; [symmetry; exact Hr|exact Hx]).
    unfold routeMatches in Hm. apply andb_true_iff in Hm as [_ Hm].
    simpl in Hm. by destruct (splitPath path).
Qed.

Lemma empty_path_is_never_matched_witness :
  let σ : State nat :=
    mkState [mkNode [ {[ "GET" := 0 ]} ] ∅ [] 1 emptyParams]
            [mkHandlerSet 7 [] 1 None] [] in
  ∃ σ1 : State nat,
    serve (E := MiniRegExp.engine) [("GET", "/")] σ = Some σ1
    ∧ (∀ method, ∃ σ2, search (E := MiniRegExp.engine) root method "" σ1
                       = Some ([], σ2))
    ∧ ∀ method path x m h,
        [("GET", "", 7)] !! x = Some (m, "", h) →
        ∃ refs σ2, searchRefs (E := MiniRegExp.engine) root method path σ1
                   = Some (refs, σ2) ∧ x ∉ refs.
Proof.
  apply (empty_path_is_never_matched (E := MiniRegExp.engine) [("GET", "", 7)]).
  reflexivity.
Defined.

(** ** The names that a search binds *)

Section Params.
Context {T : Type} {E : RegExpEngine}.
Implicit Types σ : State T.

Lemma hoare_ret {A} (P : State T → Prop) (a : A) (Q : A → State T → Prop) :
  (∀ σ, P σ → Q a σ) → hoare P (mret a) Q.
Proof. intros HQ σ a' σ' HP [= <- <-]. auto. Qed.

Lemma hoare_bind {A B} (P : State T → Prop) (m : M A) (f : A → M B)
    (Q : A → State T → Prop) (R : B → State T → Prop) :
  hoare P m Q → (∀ a, hoare (Q a) (f a) R) → hoare P (m ≫= f) R.
Proof.
  intros Hm Hf σ b σ' HP Hrun. apply bind_inv in Hrun as (a & σ1 & H1 & H2).
  eapply Hf; [|done]. by eapply Hm.
Qed.

Lemma hoare_mono {A} (P P' : State T → Prop) (m : M A)
    (Q Q' : A → State T → Prop) :
  hoare P m Q → (∀ σ, P' σ → P σ) → (∀ a σ, Q a σ → Q' a σ) → hoare P' m Q'.
Proof. intros Hm HP HQ σ a σ' HP' Hrun. eapply HQ, Hm; eauto. Qed.

(** A computation that reads the store only. *)
Lemma hoare_read {A} (P : State T → Prop) (m : M A) :
  (∀ σ a σ', m σ = Some (a, σ') → σ' = σ) → hoare P m (λ _, P).
Proof. intros Hm σ a σ' HP Hrun. by rewrite (Hm _ _ _ Hrun). Qed.

Lemma getNode_read a σ n σ' : getNode (T:=T) a σ = Some (n, σ') → σ' = σ.
Proof. unfold getNode. destruct (nodes σ !! a); [|done]. by intros [= _ <-]. Qed.

Lemma getHS_read a σ h σ' : getHS (T:=T) a σ = Some (h, σ') → σ' = σ.
Proof. unfold getHS. destruct (hsets σ !! a); [|done]. by intros [= _ <-]. Qed.

Lemma getP_read a σ o σ' : getP (T:=T) a σ = Some (o, σ') → σ' = σ.
Proof. unfold getP. destruct (pobjs σ !! a); [|done]. by intros [= _ <-]. Qed.

Lemma defined_read {A} (o : option A) σ a σ' :
  defined (T:=T) o σ = Some (a, σ') → σ' = σ.
Proof. destruct o; [|done]. by intros [= _ <-]. Qed.

Lemma paramsOk_mono S S' fresh σ :
  (∀ a, a ∈ S' → a ∈ S) → paramsOk S fresh σ → paramsOk S' fresh σ.
Proof. intros Hsub (H1 & H2 & H3). split; [done|]. split; [|done]. auto. Qed.

Lemma paramsOk_done S p σ : paramsOk S (Some p) σ → paramsOk S None σ.
Proof.
  intros (H1 & H2 & H3). split; [|split; [done|done]].
  intros a h o Ha Ho. destruct (H1 a h o Ha Ho) as [_ ?]. done.
Qed.

(** Writing a field of a node. *)
Lemma paramsOk_nodes S fresh σ ns :
  paramsOk S fresh σ → paramsOk S fresh (mkState ns (hsets σ) (pobjs σ)).
Proof. done. Qed.

Lemma hoare_writeParams S fresh a r :
  hoare (paramsOk (T:=T) S fresh) (writeParams a r) (λ _, paramsOk S fresh).
Proof.
  intros σ [] σ' HP Hrun. unfold writeParams in Hrun.
  apply bind_inv in Hrun as (n & σ1 & Hget & Hset).
  apply getNode_read in Hget as ->. injection Hset as <-.
  by apply paramsOk_nodes.
Qed.

Lemma resolveKeys_names keys sc processed np ps acc k :
  is_Some (resolveKeys keys sc processed np ps acc !! k) →
  k ∈ toKey <$> keys ∨ is_Some (acc !! k).
Proof.
  revert processed acc. induction keys as [|key keys IH]; intros processed acc.
  { by right. }
  cbn [resolveKeys]. cbv zeta. intros [Hk|Hk]%IH.
  - left. rewrite fmap_cons. by right.
  - apply lookup_insert_is_Some in Hk as [<-|[_ Hk]]; [|by right].
    left. rewrite fmap_cons. by left.
Qed.

(** One record collected: its [params] property becomes a new object
    that binds names of the record only. *)
Lemma paramsOk_collect S fresh σ a h obj :
  paramsOk S fresh σ → hsets σ !! a = Some h →
  (∀ k, is_Some (obj !! k) → k ∈ keyNames h) →
  paramsOk (a :: S) fresh
    (mkState (nodes σ)
       (<[a := mkHandlerSet (handler h) (possibleKeys h) (score h)
                 (Some (length (pobjs σ)))]> (hsets σ))
       (pobjs σ ++ [obj])).
Proof.
  intros (H1 & H2 & H3) Ha Hobj.
  pose proof (lookup_lt_Some _ _ _ Ha) as Hlt.
  split; [|split].
  - intros b hb o Hb Ho. simpl in Hb.
    destruct (decide (a = b)) as [<-|Hne].
    + rewrite list_lookup_insert_eq in Hb by done. injection Hb as <-.
      simpl in Ho. injection Ho as <-. split.
      * intros <-. specialize (H3 _ eq_refl). lia.
      * exists obj. split; [simpl; by apply list_lookup_middle|done].
    + rewrite list_lookup_insert_ne in Hb by done.
      destruct (H1 b hb o Hb Ho) as (Hfr & obj' & Hobj' & Hk).
      split; [done|]. exists obj'. split; [by apply lookup_app_l_Some|done].
  - intros b [->|Hb]%elem_of_cons.
    + eexists _, _. split; [by apply list_lookup_insert_eq|done].
    + destruct (H2 b Hb) as (hb & o & Hhb & Ho). simpl.
      destruct (decide (a = b)) as [<-|Hne].
      * eexists _, _. split; [by apply list_lookup_insert_eq|done].
      * exists hb, o. by rewrite list_lookup_insert_ne.
  - intros p Hp. simpl. rewrite length_app. specialize (H3 p Hp). lia.
Qed.

Lemma hoare_getHandlerSetsLoop ms method np ps S fresh :
  hoare (paramsOk (T:=T) S fresh) (getHandlerSetsLoop ms method np ps)
    (λ hs, paramsOk (hs ++ S) fresh).
Proof.
  revert S. induction ms as [|m ms IH]; intros S; cbn [getHandlerSetsLoop].
  { by apply hoare_ret. }
  destruct (methodEntry m method) as [a|]; [|by apply IH].
  intros σ hs σ' HP Hrun.
  apply bind_inv in Hrun as (h & σ1 & Hget & Hrun).
  pose proof (getHS_read _ _ _ _ Hget) as ->.
  unfold getHS in Hget. destruct (hsets σ !! a) as [h'|] eqn:Ha; [|done].
  injection Hget as ->.
  apply bind_inv in Hrun as (o & σ1 & Halloc & Hrun). injection Halloc as <- <-.
  apply bind_inv in Hrun as ([] & σ2 & Hwrite & Hrun).
  unfold writeHsParams in Hwrite.
  apply bind_inv in Hwrite as (h1 & σ3 & Hget & Hset).
  pose proof (getHS_read _ _ _ _ Hget) as ->.
  unfold getHS in Hget. cbn [hsets] in Hget. rewrite Ha in Hget.
  injection Hget as <-. injection Hset as <-.
  apply bind_inv in Hrun as ([] & σ4 & Hset & Hrun).
  assert (∃ obj, σ4 = mkState (nodes σ)
                         (<[a := mkHandlerSet (handler h) (possibleKeys h) (score h)
                                   (Some (length (pobjs σ)))]> (hsets σ))
                         (pobjs σ ++ [obj])
                 ∧ ∀ k, is_Some (obj !! k) → k ∈ keyNames h) as (obj & -> & Hobj).
  { destruct (someParams np ps).
    - apply bind_inv in Hset as (o1 & σ5 & Hd1 & Hset).
      assert (σ5 = mkState (nodes σ)
                     (<[a := mkHandlerSet (handler h) (possibleKeys h) (score h)
                               (Some (length (pobjs σ)))]> (hsets σ))
                     (pobjs σ ++ [∅])) as ->.
      { destruct np as [|p]; [by injection Hd1 as _ <-|].
        by apply getP_read in Hd1. }
      apply bind_inv in Hset as (o2 & σ6 & Hd2 & Hset).
      assert (σ6 = mkState (nodes σ)
                     (<[a := mkHandlerSet (handler h) (possibleKeys h) (score h)
                               (Some (length (pobjs σ)))]> (hsets σ))
                     (pobjs σ ++ [∅])) as ->.
      { destruct ps as [[|p]|]; try by injection Hd2 as _ <-.
        apply bind_inv in Hd2 as (o3 & σ7 & Hd3 & Hret).
        apply getP_read in Hd3 as ->. by injection Hret as _ <-. }
      injection Hset as <-. eexists. split.
      + cbn [nodes hsets pobjs].
        rewrite insert_app_r_alt, Nat.sub_diag by done. done.
      + intros k Hk. apply resolveKeys_names in Hk as [Hk|Hk]; [done|].
        rewrite lookup_empty in Hk. by destruct Hk.
    - injection Hset as <-. exists ∅. split; [done|].
      intros k Hk. rewrite lookup_empty in Hk. by destruct Hk. }
  apply bind_inv in Hrun as (rest & σ5 & Hloop & Hret). injection Hret as <- <-.
  eapply paramsOk_mono; [|eapply (IH (a :: S)); [|exact Hloop]].
  - intros b [[->|Hb]%elem_of_cons|Hb]%elem_of_app; apply elem_of_app;
      [right; by left|by left|right; by right].
  - by apply paramsOk_collect.
Qed.

Lemma hoare_getHandlerSets node method np ps S fresh :
  hoare (paramsOk (T:=T) S fresh) (getHandlerSets node method np ps)
    (λ hs, paramsOk (hs ++ S) fresh).
Proof.
  unfold getHandlerSets.
  eapply hoare_bind; [apply hoare_read, getNode_read|]. intros n.
  apply hoare_getHandlerSetsLoop.
Qed.

Lemma hoare_copyParams S r :
  hoare (paramsOk (T:=T) S None) (copyParams r) (λ p, paramsOk S (Some p)).
Proof.
  assert (∀ σ o, paramsOk S None σ →
            paramsOk S (Some (length (pobjs σ)))
              (mkState (nodes σ) (hsets σ) (pobjs σ ++ [o]))) as Halloc.
  { intros σ o (H1 & H2 & _). split; [|split; [done|]].
    - intros a h x Ha Hx. destruct (H1 a h x Ha Hx) as (_ & obj & Hobj & Hk).
      split.
      + intros [= ->]. apply lookup_lt_Some in Hobj. lia.
      + exists obj. split; [by apply lookup_app_l_Some|done].
    - intros p [= <-]. simpl. rewrite length_app. simpl. lia. }
  intros σ p σ' HP Hrun. destruct r as [|a]; simpl in Hrun.
  - injection Hrun as <- <-. by apply Halloc.
  - apply bind_inv in Hrun as (o & σ1 & Hget & Hrun).
    apply getP_read in Hget as ->. injection Hrun as <- <-. by apply Halloc.
Qed.

Lemma hoare_writeProp S p k v :
  hoare (paramsOk (T:=T) S (Some p)) (writeProp p k v)
    (λ _, paramsOk S (Some p)).
Proof.
  intros σ [] σ' (H1 & H2 & H3) Hrun. unfold writeProp in Hrun.
  apply bind_inv in Hrun as (o & σ1 & Hget & Hset).
  apply getP_read in Hget as ->. injection Hset as <-.
  split; [|split; [done|]].
  - intros a h x Ha Hx. destruct (H1 a h x Ha Hx) as (Hne & obj & Hobj & Hk).
    split; [done|]. exists obj. split; [|done]. simpl.
    rewrite list_lookup_insert_ne; [done|]. congruence.
  - intros q Hq. simpl. rewrite length_insert. by apply H3.
Qed.

Lemma hoare_done {A} (P : State T → Prop) (m : M A) S p
    (out : A → list nat) :
  hoare P m (λ r, paramsOk (out r ++ S) (Some p)) →
  hoare P m (λ r, paramsOk (out r ++ S) None).
Proof.
  intros Hm. eapply hoare_mono; [exact Hm|done|].
  intros a σ. apply paramsOk_done.
Qed.

(** The end-of-path relaxation. *)
Lemma hoare_relaxation (c : option nat) node method np ps S fresh :
  hoare (paramsOk (T:=T) S fresh)
    (match c with
     | Some astNode => n ← getNode node; getHandlerSets astNode method (np n) (ps n)
     | None => mret []
     end)
    (λ hs, paramsOk (hs ++ S) fresh).
Proof.
  destruct c as [ast|]; [|by apply hoare_ret].
  eapply hoare_bind; [apply hoare_read, getNode_read|]. intros n.
  apply hoare_getHandlerSets.
Qed.

Lemma hoare_searchLiteral node method part isLast S :
  hoare (paramsOk (T:=T) S None) (searchLiteral node method part isLast)
    (λ r, paramsOk (r.1 ++ S) None).
Proof.
  unfold searchLiteral.
  eapply hoare_bind; [apply hoare_read, getNode_read|]. intros n.
  destruct (children n !! part) as [nextNode|]; [|by apply hoare_ret].
  eapply hoare_bind; [apply hoare_writeParams|]. intros [].
  destruct isLast; [|by apply hoare_ret].
  eapply hoare_bind; [apply hoare_read, getNode_read|]. intros nn.
  eapply hoare_bind.
  { apply (hoare_relaxation (children nn !! "*") node method
             (λ n, params n) (λ _, None)). }
  intros hs1.
  eapply hoare_bind; [apply hoare_read, getNode_read|]. intros n'.
  eapply hoare_bind; [apply hoare_getHandlerSets|]. intros hs2.
  apply hoare_ret. intros σ. apply paramsOk_mono. intros a. simpl.
  rewrite !elem_of_app. tauto.
Qed.

Lemma hoare_searchPattern node method part rest isLast pattern S :
  hoare (paramsOk (T:=T) S None)
    (searchPattern node method part rest isLast pattern)
    (λ r, paramsOk (r.1 ++ S) None).
Proof.
  unfold searchPattern.
  eapply hoare_bind; [apply hoare_read, getNode_read|]. intros n0.
  eapply hoare_bind; [apply hoare_copyParams|]. intros p.
  apply (hoare_done _ _ S p fst).
  destruct pattern as [|key name matcher].
  - eapply hoare_bind; [apply hoare_read, getNode_read|]. intros n.
    destruct (children n !! "*") as [ast|]; [|by apply hoare_ret].
    eapply hoare_bind; [apply hoare_getHandlerSets|]. intros hs.
    by apply hoare_ret.
  - destruct (String.eqb part ""); [by apply hoare_ret|].
    eapply hoare_bind; [apply hoare_read, getNode_read|]. intros n. cbv zeta.
    destruct (restMatch matcher rest).
    { eapply hoare_bind; [apply hoare_writeProp|]. intros [].
      eapply hoare_bind; [apply hoare_read, defined_read|]. intros child.
      eapply hoare_bind; [apply hoare_read, getNode_read|]. intros n'.
      eapply hoare_bind; [apply hoare_getHandlerSets|]. intros hs.
      by apply hoare_ret. }
    destruct (partMatch matcher part); [|by apply hoare_ret].
    eapply hoare_bind; [apply hoare_writeProp|]. intros [].
    destruct isLast.
    + eapply hoare_bind; [apply hoare_read, defined_read|]. intros child.
      eapply hoare_bind; [apply hoare_read, getNode_read|]. intros n'.
      eapply hoare_bind; [apply hoare_getHandlerSets|]. intros hs1.
      eapply hoare_bind; [apply hoare_read, getNode_read|]. intros c.
      eapply hoare_bind.
      { apply (hoare_relaxation (children c !! "*") node method
                 (λ _, pobj p) (λ n, Some (params n))). }
      intros hs2. apply hoare_ret. intros σ. apply paramsOk_mono. intros a.
      simpl. rewrite !elem_of_app. tauto.
    + eapply hoare_bind; [apply hoare_read, defined_read|]. intros child.
      eapply hoare_bind; [apply hoare_writeParams|]. intros [].
      by apply hoare_ret.
Qed.

Lemma hoare_pairs {A} (f : A → M (T:=T) (list nat * list nat)) (l : list A)
    (loop : list A → M (T:=T) (list nat * list nat)) :
  loop [] = mret ([], []) →
  (∀ a l', loop (a :: l')
           = '(hs1, t1) ← f a; '(hs2, t2) ← loop l'; mret (hs1 ++ hs2, t1 ++ t2)) →
  (∀ a S, hoare (paramsOk S None) (f a) (λ r, paramsOk (r.1 ++ S) None)) →
  ∀ S, hoare (paramsOk S None) (loop l) (λ r, paramsOk (r.1 ++ S) None).
Proof.
  intros Hnil Hcons Hf. induction l as [|a l IH]; intros S.
  { rewrite Hnil. by apply hoare_ret. }
  rewrite Hcons.
  eapply hoare_bind; [apply Hf|]. intros [hs1 t1].
  eapply hoare_bind; [apply IH|]. intros [hs2 t2].
  apply hoare_ret. intros σ. apply paramsOk_mono. intros a'. simpl.
  rewrite !elem_of_app. tauto.
Qed.

Lemma hoare_searchPatterns node method part rest isLast ps S :
  hoare (paramsOk (T:=T) S None)
    (searchPatterns node method part rest isLast ps)
    (λ r, paramsOk (r.1 ++ S) None).
Proof.
  revert S.
  apply (hoare_pairs (searchPattern node method part rest isLast) ps
           (searchPatterns node method part rest isLast)); [done|done|].
  intros; apply hoare_searchPattern.
Qed.

Lemma hoare_searchNode node method part rest isLast S :
  hoare (paramsOk (T:=T) S None) (searchNode node method part rest isLast)
    (λ r, paramsOk (r.1 ++ S) None).
Proof.
  unfold searchNode.
  eapply hoare_bind; [apply hoare_searchLiteral|]. intros [hs1 t1].
  eapply hoare_bind; [apply hoare_read, getNode_read|]. intros n.
  eapply hoare_bind; [apply hoare_searchPatterns|]. intros [hs2 t2].
  apply hoare_ret. intros σ. apply paramsOk_mono. intros a. simpl.
  rewrite !elem_of_app. tauto.
Qed.

Lemma hoare_searchNodes curNodes method part rest isLast S :
  hoare (paramsOk (T:=T) S None) (searchNodes curNodes method part rest isLast)
    (λ r, paramsOk (r.1 ++ S) None).
Proof.
  revert S.
  apply (hoare_pairs (λ node, searchNode node method part rest isLast) curNodes
           (λ l, searchNodes l method part rest isLast)); [done|done|].
  intros; apply hoare_searchNode.
Qed.

Lemma hoare_searchParts parts :
  ∀ curNodes method S,
    hoare (paramsOk (T:=T) S None) (searchParts parts curNodes method)
      (λ hs, paramsOk (hs ++ S) None).
Proof.
  induction parts as [|part parts IH]; intros curNodes method S;
    cbn [searchParts]; [by apply hoare_ret|]. cbv zeta.
  eapply hoare_bind; [apply hoare_searchNodes|]. intros [hs1 temp].
  eapply hoare_bind; [apply IH|]. intros hs2.
  apply hoare_ret. intros σ. apply paramsOk_mono. intros a. simpl.
  rewrite !elem_of_app. tauto.
Qed.

(** After a search every record that it returns has a parameter object,
    and every parameter object binds names of its record only. *)
Lemma hoare_searchRefs this method path :
  hoare (paramsOk (T:=T) [] None) (searchRefs this method path)
    (λ refs, paramsOk refs None).
Proof.
  unfold searchRefs.
  eapply hoare_bind; [apply hoare_writeParams|]. intros [].
  eapply hoare_bind; [apply hoare_searchParts|]. intros handlerSets.
  intros σ refs σ' HP Hrun.
  apply bind_inv in Hrun as (hs & σ1 & Hread & Hret). injection Hret as <- <-.
  destruct (readHandlerSets_fst _ _ _ _ Hread) as (-> & Hfst & _).
  eapply paramsOk_mono; [|exact HP]. intros a Ha. rewrite app_nil_r.
  destruct (1 <? length hs); [|done].
  rewrite sortByScore_perm in Ha. by rewrite Hfst in Ha.
Qed.

Lemma hoare_search this method path :
  hoare (paramsOk (T:=T) [] None) (search this method path)
    (λ _, paramsOk [] None).
Proof.
  unfold search.
  eapply hoare_bind; [apply hoare_searchRefs|]. intros refs.
  intros σ res σ' HP Hrun.
  apply bind_inv in Hrun as (hs & σ1 & Hread & Hret). injection Hret as _ <-.
  destruct (readHandlerSets_fst _ _ _ _ Hread) as (-> & _ & _).
  eapply paramsOk_mono; [|exact HP]. by intros a ?%elem_of_nil.
Qed.

Lemma serve_paramsOk reqs :
  ∀ σ σ', paramsOk [] None σ → serve reqs σ = Some σ' → paramsOk [] None σ'.
Proof.
  induction reqs as [|[method path] reqs IH]; intros σ σ' HP Hrun.
  { by injection Hrun as <-. }
  cbn [serve] in Hrun.
  destruct (search root method path σ) as [[res σ1]|] eqn:Hsearch; [|done].
  eapply IH; [|done]. by eapply hoare_search.
Qed.

Lemma firstOccurrences_elem v l : v ∈ firstOccurrences l → v ∈ l.
Proof.
  unfold firstOccurrences. intros ([i v'] & -> & Hin)%list_elem_of_fmap.
  apply list_elem_of_In, List.filter_In in Hin as [Hin _].
  apply list_elem_of_In, list_elem_of_lookup in Hin as [j Hj].
  apply list_lookup_imap_Some in Hj as (y & Hy & [= _ <-]).
  by eapply list_elem_of_lookup_2.
Qed.

Lemma Built_paramsOk (routes : list (Route T)) σ :
  Built routes σ → paramsOk [] None σ.
Proof.
  intros HB. split; [|split].
  - intros a h o Ha Ho. by rewrite (built_noparams _ _ HB _ _ Ha) in Ho.
  - by intros a ?%elem_of_nil.
  - done.
Qed.

End Params.

(** X7: the parameters of a result: on a trie built by registrations, after
    any earlier requests, every pair that a search returns carries a
    parameter object (the view of the result exists), and the names that
    the object binds are names that the patterns of the route of its
    handler declare (the name [undefined] for a wildcard). *)
Theorem search_binds_declared_names {T} {E : RegExpEngine}
    (routes : list (Route T)) (σ : State T) (reqs : list (string * string))
    (method path : string) :
  insertAll routes emptyTrie = Some σ →
  ∃ σ1 refs σ2 vw,
    serve reqs σ = Some σ1
    ∧ searchRefs root method path σ1 = Some (refs, σ2)
    ∧ searchView σ1 method path = Some vw
    ∧ Forall2 (bindsDeclared routes) refs vw.
Proof.
  intros Hrun. destruct (built_stores _ _ Hrun) as (kp & HInv & HBuilt & Hg).
  destruct (serve_good _ _ _ reqs HInv σ Hg) as (σ1 & Hserve & Hg1).
  destruct (search_refs routes kp σ HInv HBuilt method path σ1 Hg1)
    as (refs & res & σ2 & Hsearch & Hg2 & Hrefs & Hres & _ & _).
  pose proof (serve_paramsOk _ _ _ (Built_paramsOk _ _ HBuilt) Hserve) as HP1.
  pose proof (hoare_searchRefs _ _ _ _ _ _ HP1 Hrefs) as (Hobj & Hhas & _).
  assert (Forall2 (λ x (hr : T * option nat),
                     ∃ hs, hsets σ2 !! x = Some hs
                           ∧ hr = (handler hs, hs_params hs)) refs res) as Hpairs.
  { pose proof Hsearch as Hsearch'. unfold search in Hsearch'.
    rewrite (bind_run _ _ _ _ _ Hrefs) in Hsearch'.
    apply bind_inv in Hsearch' as (hs & σ3 & Hread & Hret).
    injection Hret as <- <-.
    destruct (readHandlerSets_fst _ _ _ _ Hread) as (_ & <- & Hall).
    apply Forall2_fmap, Forall_Forall2_diag.
    eapply Forall_impl; [exact Hall|]. intros [a h] Ha. by exists h. }
  assert (∃ vw, view σ2 res = Some vw ∧ Forall2 (bindsDeclared routes) refs vw)
    as (vw & Hview & Hall).
  { clear Hres Hsearch Hrefs.
    induction Hpairs as [|x hr refs res (hs & Hhs & ->) _ IH].
    { exists []. by split. }
    destruct IH as (vw & Hview & Hall).
    { intros y Hy. apply Hhas. by right. }
    destruct (Hhas x) as (hs' & o & Hhs' & Ho); [by left|].
    replace hs' with hs in * by congruence.
    destruct (Hobj x hs o Hhs Ho) as (_ & obj & Hobj' & Hnames).
    exists ((handler hs, obj) :: vw). split.
    { cbn [view]. rewrite Ho. simpl. rewrite Hobj'. simpl. by rewrite Hview. }
    constructor; [|done].
    destruct (good_handler routes kp σ HInv σ2 x hs Hg2 Hhs) as (m & p & Hr).
    exists m, p. split; [done|]. simpl. intros k Hk.
    apply Hnames in Hk. unfold keyNames in Hk.
    destruct Hg2 as [[_ Hsame] _].
    destruct (Forall2_lookup_r _ _ _ _ _ Hsame Hhs) as (h0 & Hh0 & _ & Hkeys & _).
    rewrite Hkeys, (built_keys _ _ HBuilt _ _ _ _ _ Hr Hh0) in Hk.
    apply list_elem_of_fmap in Hk as (v & -> & Hv).
    apply list_elem_of_fmap_2. by apply firstOccurrences_elem. }
  exists σ1, refs, σ2, vw. unfold searchView. by rewrite Hsearch.
Qed.

Lemma search_binds_declared_names_witness :
  ∃ (σ1 : State nat) refs σ2 vw,
    serve (E := MiniRegExp.engine) [("GET", "/a/b")]
      (Scenario.param {[ "GET" := 0 ]} 7) = Some σ1
    ∧ searchRefs (E := MiniRegExp.engine) root "GET" "/v/b" σ1 = Some (refs, σ2)
    ∧ searchView (E := MiniRegExp.engine) σ1 "GET" "/v/b" = Some vw
    ∧ Forall2 (bindsDeclared [("GET", "/:x/b", 7)]) refs vw.
Proof.
  apply (search_binds_declared_names (E := MiniRegExp.engine)
           [("GET", "/:x/b", 7)]).
  reflexivity.
Defined.

(** ** C1: what a search writes *)

Section Created.
Context {T : Type} {E : RegExpEngine}.
Implicit Types σ : State T.
Variable L : nat.

Lemma quiet_ret {A} (a : A) : quiet (T:=T) (mret a).
Proof. by intros σ a' σ' [= _ <-]. Qed.

Lemma quiet_bind {A B} (m : M A) (f : A → M B) :
  quiet (T:=T) m → (∀ a, quiet (f a)) → quiet (m ≫= f).
Proof.
  intros Hm Hf σ b σ' Hrun. apply bind_inv in Hrun as (a & σ1 & H1 & H2).
  destruct (Hm _ _ _ H1) as [Hh1 Hp1]. destruct (Hf _ _ _ _ H2) as [Hh2 Hp2].
  split; [congruence|]. by etrans.
Qed.

Lemma quiet_read {A} (m : M A) :
  (∀ σ a σ', m σ = Some (a, σ') → σ' = σ) → quiet (T:=T) m.
Proof. intros Hm σ a σ' Hrun. by rewrite (Hm _ _ _ Hrun). Qed.

Lemma quiet_writeParams a r : quiet (T:=T) (writeParams a r).
Proof.
  apply quiet_bind; [apply quiet_read, getNode_read|].
  by intros n σ [] σ' [= <-].
Qed.

Lemma quiet_copyParams r : quiet (T:=T) (copyParams r).
Proof.
  assert (∀ o, quiet (T:=T) (allocP o)) as Halloc.
  { intros o σ a σ' [= _ <-]. split; [done|]. simpl. rewrite length_app. lia. }
  destruct r as [|a]; [apply Halloc|].
  apply quiet_bind; [apply quiet_read, getP_read|]. intros o. apply Halloc.
Qed.

Lemma quiet_writeProp p k v : quiet (T:=T) (writeProp p k v).
Proof.
  apply quiet_bind; [apply quiet_read, getP_read|].
  intros o σ [] σ' [= <-]. split; [done|]. simpl. by rewrite length_insert.
Qed.

Lemma hoare_quiet {A} (m : M A) S :
  quiet m → hoare (created (T:=T) L S) m (λ _, created L S).
Proof.
  intros Hm σ a σ' [HL HS] Hrun. destruct (Hm _ _ _ Hrun) as [Hh Hp].
  split; [lia|]. intros x Hx. destruct (HS x Hx) as (h & o & Hx' & Ho & Hlo).
  exists h, o. rewrite Hh. split; [done|]. split; [done|]. lia.
Qed.

Lemma created_mono S S' σ :
  (∀ a, a ∈ S' → a ∈ S) → created L S σ → created L S' σ.
Proof. intros Hsub [HL HS]. split; [done|]. auto. Qed.

(** One record collected: its [params] property becomes the object
    created for it. *)
Lemma created_collect S σ a h obj :
  created L S σ → hsets σ !! a = Some h →
  created L (a :: S)
    (mkState (nodes σ)
       (<[a := mkHandlerSet (handler h) (possibleKeys h) (score h)
                 (Some (length (pobjs σ)))]> (hsets σ))
       (pobjs σ ++ [obj])).
Proof.
  intros [HL HS] Ha. pose proof (lookup_lt_Some _ _ _ Ha) as Hlt.
  split; [simpl; rewrite length_app; lia|].
  intros b Hb. simpl. rewrite length_app. simpl.
  destruct (decide (a = b)) as [<-|Hne].
  - eexists _, _. split; [by apply list_lookup_insert_eq|].
    split; [done|]. lia.
  - apply elem_of_cons in Hb as [->|Hb]; [done|].
    destruct (HS b Hb) as (hb & o & Hhb & Ho & Hlo).
    exists hb, o. rewrite list_lookup_insert_ne by done.
    split; [done|]. split; [done|]. lia.
Qed.

Lemma created_getHandlerSetsLoop ms method np ps S :
  hoare (created (T:=T) L S) (getHandlerSetsLoop ms method np ps)
    (λ hs, created L (hs ++ S)).
Proof.
  revert S. induction ms as [|m ms IH]; intros S; cbn [getHandlerSetsLoop].
  { by apply hoare_ret. }
  destruct (methodEntry m method) as [a|]; [|by apply IH].
  intros σ hs σ' HP Hrun.
  apply bind_inv in Hrun as (h & σ1 & Hget & Hrun).
  pose proof (getHS_read _ _ _ _ Hget) as ->.
  unfold getHS in Hget. destruct (hsets σ !! a) as [h'|] eqn:Ha; [|done].
  injection Hget as ->.
  apply bind_inv in Hrun as (o & σ1 & Halloc & Hrun). injection Halloc as <- <-.
  apply bind_inv in Hrun as ([] & σ2 & Hwrite & Hrun).
  unfold writeHsParams in Hwrite.
  apply bind_inv in Hwrite as (h1 & σ3 & Hget & Hset).
  pose proof (getHS_read _ _ _ _ Hget) as ->.
  unfold getHS in Hget. cbn [hsets] in Hget. rewrite Ha in Hget.
  injection Hget as <-. injection Hset as <-.
  apply bind_inv in Hrun as ([] & σ4 & Hset & Hrun).
  assert (∃ obj, σ4 = mkState (nodes σ)
                         (<[a := mkHandlerSet (handler h) (possibleKeys h) (score h)
                                   (Some (length (pobjs σ)))]> (hsets σ))
                         (pobjs σ ++ [obj])) as (obj & ->).
  { destruct (someParams np ps).
    - apply bind_inv in Hset as (o1 & σ5 & Hd1 & Hset).
      assert (σ5 = mkState (nodes σ)
                     (<[a := mkHandlerSet (handler h) (possibleKeys h) (score h)
                               (Some (length (pobjs σ)))]> (hsets σ))
                     (pobjs σ ++ [∅])) as ->.
      { destruct np as [|p]; [by injection Hd1 as _ <-|].
        by apply getP_read in Hd1. }
      apply bind_inv in Hset as (o2 & σ6 & Hd2 & Hset).
      assert (σ6 = mkState (nodes σ)
                     (<[a := mkHandlerSet (handler h) (possibleKeys h) (score h)
                               (Some (length (pobjs σ)))]> (hsets σ))
                     (pobjs σ ++ [∅])) as ->.
      { destruct ps as [[|p]|]; try by injection Hd2 as _ <-.
        apply bind_inv in Hd2 as (o3 & σ7 & Hd3 & Hret).
        apply getP_read in Hd3 as ->. by injection Hret as _ <-. }
      injection Hset as <-. eexists.
      cbn [nodes hsets pobjs].
      rewrite insert_app_r_alt, Nat.sub_diag by done. done.
    - injection Hset as <-. by exists ∅. }
  apply bind_inv in Hrun as (rest & σ5 & Hloop & Hret). injection Hret as <- <-.
  eapply created_mono; [|eapply (IH (a :: S)); [|exact Hloop]].
  - intros b [[->|Hb]%elem_of_cons|Hb]%elem_of_app; apply elem_of_app;
      [right; by left|by left|right; by right].
  - by apply created_collect.
Qed.

Lemma created_getHandlerSets node method np ps S :
  hoare (created (T:=T) L S) (getHandlerSets node method np ps)
    (λ hs, created L (hs ++ S)).
Proof.
  unfold getHandlerSets.
  eapply hoare_bind; [apply hoare_quiet, quiet_read, getNode_read|]. intros n.
  apply created_getHandlerSetsLoop.
Qed.

Lemma created_relaxation (c : option nat) node method np ps S :
  hoare (created (T:=T) L S)
    (match c with
     | Some astNode => n ← getNode node; getHandlerSets astNode method (np n) (ps n)
     | None => mret []
     end)
    (λ hs, created L (hs ++ S)).
Proof.
  destruct c as [ast|]; [|by apply hoare_ret].
  eapply hoare_bind; [apply hoare_quiet, quiet_read, getNode_read|]. intros n.
  apply created_getHandlerSets.
Qed.

Lemma created_searchLiteral node method part isLast S :
  hoare (created (T:=T) L S) (searchLiteral node method part isLast)
    (λ r, created L (r.1 ++ S)).
Proof.
  unfold searchLiteral.
  eapply hoare_bind; [apply hoare_quiet, quiet_read, getNode_read|]. intros n.
  destruct (children n !! part) as [nextNode|]; [|by apply hoare_ret].
  eapply hoare_bind; [apply hoare_quiet, quiet_writeParams|]. intros [].
  destruct isLast; [|by apply hoare_ret].
  eapply hoare_bind; [apply hoare_quiet, quiet_read, getNode_read|]. intros nn.
  eapply hoare_bind.
  { apply (created_relaxation (children nn !! "*") node method
             (λ n, params n) (λ _, None)). }
  intros hs1.
  eapply hoare_bind; [apply hoare_quiet, quiet_read, getNode_read|]. intros n'.
  eapply hoare_bind; [apply created_getHandlerSets|]. intros hs2.
  apply hoare_ret. intros σ. apply created_mono. intros a. simpl.
  rewrite !elem_of_app. tauto.
Qed.

Lemma created_searchPattern node method part rest isLast pattern S :
  hoare (created (T:=T) L S)
    (searchPattern node method part rest isLast pattern)
    (λ r, created L (r.1 ++ S)).
Proof.
  unfold searchPattern.
  eapply hoare_bind; [apply hoare_quiet, quiet_read, getNode_read|]. intros n0.
  eapply hoare_bind; [apply hoare_quiet, quiet_copyParams|]. intros p.
  destruct pattern as [|key name matcher].
  - eapply hoare_bind; [apply hoare_quiet, quiet_read, getNode_read|]. intros n.
    destruct (children n !! "*") as [ast|]; [|by apply hoare_ret].
    eapply hoare_bind; [apply created_getHandlerSets|]. intros hs.
    by apply hoare_ret.
  - destruct (String.eqb part ""); [by apply hoare_ret|].
    eapply hoare_bind; [apply hoare_quiet, quiet_read, getNode_read|].
    intros n. cbv zeta.
    destruct (restMatch matcher rest).
    { eapply hoare_bind; [apply hoare_quiet, quiet_writeProp|]. intros [].
      eapply hoare_bind; [apply hoare_quiet, quiet_read, defined_read|].
      intros child.
      eapply hoare_bind; [apply hoare_quiet, quiet_read, getNode_read|]. intros n'.
      eapply hoare_bind; [apply created_getHandlerSets|]. intros hs.
      by apply hoare_ret. }
    destruct (partMatch matcher part); [|by apply hoare_ret].
    eapply hoare_bind; [apply hoare_quiet, quiet_writeProp|]. intros [].
    destruct isLast.
    + eapply hoare_bind; [apply hoare_quiet, quiet_read, defined_read|].
      intros child.
      eapply hoare_bind; [apply hoare_quiet, quiet_read, getNode_read|]. intros n'.
      eapply hoare_bind; [apply created_getHandlerSets|]. intros hs1.
      eapply hoare_bind; [apply hoare_quiet, quiet_read, getNode_read|]. intros c.
      eapply hoare_bind.
      { apply (created_relaxation (children c !! "*") node method
                 (λ _, pobj p) (λ n, Some (params n))). }
      intros hs2. apply hoare_ret. intros σ. apply created_mono. intros a.
      simpl. rewrite !elem_of_app. tauto.
    + eapply hoare_bind; [apply hoare_quiet, quiet_read, defined_read|].
      intros child.
      eapply hoare_bind; [apply hoare_quiet, quiet_writeParams|]. intros [].
      by apply hoare_ret.
Qed.

Lemma created_pairs {A} (f : A → M (T:=T) (list nat * list nat)) (l : list A)
    (loop : list A → M (T:=T) (list nat * list nat)) :
  loop [] = mret ([], []) →
  (∀ a l', loop (a :: l')
           = '(hs1, t1) ← f a; '(hs2, t2) ← loop l'; mret (hs1 ++ hs2, t1 ++ t2)) →
  (∀ a S, hoare (created L S) (f a) (λ r, created L (r.1 ++ S))) →
  ∀ S, hoare (created L S) (loop l) (λ r, created L (r.1 ++ S)).
Proof.
  intros Hnil Hcons Hf. induction l as [|a l IH]; intros S.
  { rewrite Hnil. by apply hoare_ret. }
  rewrite Hcons.
  eapply hoare_bind; [apply Hf|]. intros [hs1 t1].
  eapply hoare_bind; [apply IH|]. intros [hs2 t2].
  apply hoare_ret. intros σ. apply created_mono. intros a'. simpl.
  rewrite !elem_of_app. tauto.
Qed.

Lemma created_searchNode node method part rest isLast S :
  hoare (created (T:=T) L S) (searchNode node method part rest isLast)
    (λ r, created L (r.1 ++ S)).
Proof.
  unfold searchNode.
  eapply hoare_bind; [apply created_searchLiteral|]. intros [hs1 t1].
  eapply hoare_bind; [apply hoare_quiet, quiet_read, getNode_read|]. intros n.
  eapply hoare_bind.
  { apply (created_pairs (searchPattern node method part rest isLast) (patterns n)
             (searchPatterns node method part rest isLast)); [done|done|].
    intros; apply created_searchPattern. }
  intros [hs2 t2].
  apply hoare_ret. intros σ. apply created_mono. intros a. simpl.
  rewrite !elem_of_app. tauto.
Qed.

Lemma created_searchParts parts :
  ∀ curNodes method S,
    hoare (created (T:=T) L S) (searchParts parts curNodes method)
      (λ hs, created L (hs ++ S)).
Proof.
  induction parts as [|part parts IH]; intros curNodes method S;
    cbn [searchParts]; [by apply hoare_ret|]. cbv zeta.
  eapply hoare_bind.
  { apply (created_pairs
             (λ node, searchNode node method part (join (part :: parts))
                        (bool_decide (parts = []))) curNodes
             (λ l, searchNodes l method part (join (part :: parts))
                     (bool_decide (parts = [])))); [done|done|].
    intros; apply created_searchNode. }
  intros [hs1 temp].
  eapply hoare_bind; [apply IH|]. intros hs2.
  apply hoare_ret. intros σ. apply created_mono. intros a. simpl.
  rewrite !elem_of_app. tauto.
Qed.

(** After a search, every record that it returns refers to a parameter
    object created since the store had [L] of them. *)
Lemma created_searchRefs this method path :
  hoare (created (T:=T) L []) (searchRefs this method path)
    (λ refs, created L refs).
Proof.
  unfold searchRefs.
  eapply hoare_bind; [apply hoare_quiet, quiet_writeParams|]. intros [].
  eapply hoare_bind; [apply created_searchParts|]. intros handlerSets.
  intros σ refs σ' HP Hrun.
  apply bind_inv in Hrun as (hs & σ1 & Hread & Hret). injection Hret as <- <-.
  destruct (readHandlerSets_fst _ _ _ _ Hread) as (-> & Hfst & _).
  eapply created_mono; [|exact HP]. intros a Ha. rewrite app_nil_r.
  destruct (1 <? length hs); [|done].
  rewrite sortByScore_perm in Ha. by rewrite Hfst in Ha.
Qed.

End Created.

(** C1 (as stated) fails: with [/:x/b] registered, the search of [/v/b]
    stores the inherited parameter object in the [#params] field of two
    nodes and gives the stored handler set a [params] property. *)
Lemma search_writes_nodes_and_handler_sets :
  let σ := Scenario.param {[ "GET" := 0 ]} 7 in
  let σ' := Scenario.param' {[ "GET" := 0 ]} 7 in
  insertAll (E := MiniRegExp.engine) [("GET", "/:x/b", 7)] emptyTrie = Some σ ∧
  search (E := MiniRegExp.engine) root "GET" "/v/b" σ = Some ([(7, Some 1)], σ') ∧
  nodes σ' ≠ nodes σ ∧ hsets σ' ≠ hsets σ ∧
  params <$> nodes σ = [emptyParams; emptyParams; emptyParams] ∧
  params <$> nodes σ' = [emptyParams; pobj 0; pobj 0] ∧
  hs_params <$> hsets σ = [None] ∧
  hs_params <$> hsets σ' = [Some 1].
Proof.
  cbv zeta. split; [reflexivity|]. split; [vm_compute; reflexivity|].
  split; [by intros [=]|]. split; [by intros [=]|]. by repeat split.
Qed.

(** C1 (as amended): a search creates and removes no node and no handler
    set; it changes no children map, pattern list, method-map list or
    order counter of any node and no handler, key list or score of any
    handler set, and it writes to no parameter object that existed
    before the call.  The only fields that it can change are the
    [#params] field of nodes and the [params] property of handler sets;
    every handler set of the result has its [params] property set to a
    parameter object created during the call. *)
Theorem search_frame {T} {E : RegExpEngine} (σ σ' : State T)
    (this : nat) (method path : string) (res : list (T * option nat)) :
  search this method path σ = Some (res, σ') →
  Forall2 sameNode (nodes σ) (nodes σ') ∧
  Forall2 sameHS (hsets σ) (hsets σ') ∧
  pobjs σ `prefix_of` pobjs σ' ∧
  Forall (λ hr : T * option nat,
            ∃ a, hr.2 = Some a ∧ length (pobjs σ) ≤ a < length (pobjs σ')) res.
Proof.
  intros Hrun.
  destruct (keeps_search (length (pobjs σ)) this method path σ res σ')
    as (_ & [Hn Hh] & Htake); [done..|].
  split; [done|]. split; [done|]. split.
  { rewrite firstn_all in Htake. rewrite <-Htake. apply prefix_take. }
  unfold search in Hrun.
  apply bind_inv in Hrun as (refs & σ1 & Hrefs & Hrun).
  apply bind_inv in Hrun as (hs & σ2 & Hread & Hret). injection Hret as <- <-.
  destruct (readHandlerSets_fst _ _ _ _ Hread) as (-> & Hfst & Hall).
  destruct (created_searchRefs (length (pobjs σ)) this method path σ refs σ1)
    as [_ Hcreated]; [|done|].
  { split; [done|]. by intros a ?%elem_of_nil. }
  apply Forall_fmap, Forall_forall. intros [a h] Hin.
  rewrite Forall_forall in Hall. pose proof (Hall _ Hin) as Ha. simpl in *.
  destruct (Hcreated a) as (h' & o & Hh' & Ho & Hlo).
  { rewrite <-Hfst. apply list_elem_of_fmap. by exists (a, h). }
  exists o. replace h with h' by congruence. done.
Qed.

Lemma search_frame_witness :
  let σ := Scenario.param {[ "GET" := 0 ]} 7 in
  let σ' := Scenario.param' {[ "GET" := 0 ]} 7 in
  Forall2 sameNode (nodes σ) (nodes σ') ∧
  Forall2 sameHS (hsets σ) (hsets σ') ∧
  pobjs σ `prefix_of` pobjs σ' ∧
  Forall (λ hr : nat * option nat,
            ∃ a, hr.2 = Some a ∧ length (pobjs σ) ≤ a < length (pobjs σ'))
         [(7, Some 1)].
Proof.
  cbv zeta.
  apply (search_frame (E := MiniRegExp.engine) _ _ root "GET" "/v/b" [(7, Some 1)]).
  vm_compute. reflexivity.
Defined.


(** ** The handlers of a result and the requests before *)

Section Fixed.
Context {T : Type} {E : RegExpEngine}.
Variable σ0 : State T.
Variable method : string.
Implicit Types σ : State T.

Lemma always_ret {A} (a : A) : always σ0 (mret a) a.
Proof. by apply yields_ret. Qed.

Lemma always_bind {A B} (m : M A) (f : A → M B) (P : A → Prop) (v : B) :
  yields σ0 m P → (∀ a, P a → always σ0 (f a) v) → always σ0 (m ≫= f) v.
Proof. apply yields_bind. Qed.

Lemma always_none {A} (m : M A) (P : A → Prop) (v : A) :
  yields σ0 m P → (∀ a, ¬ P a) → always σ0 m v.
Proof. intros Hm HP. eapply yields_mono; [exact Hm|]. intros a Ha. by destruct (HP a). Qed.

Lemma nodeAt_None a n : nodes σ0 !! a = None → ¬ nodeAt σ0 a n.
Proof. intros Hn (n0 & Hn0 & _). congruence. Qed.

Lemma nodeAt_Some a n0 n : nodes σ0 !! a = Some n0 → nodeAt σ0 a n → sameNode n0 n.
Proof. intros Hn (n1 & Hn1 & Hs). congruence. Qed.

Lemma always_getHandlerSetsLoop ms :
  ∃ v, ∀ np ps, always σ0 (getHandlerSetsLoop ms method np ps) v.
Proof.
  induction ms as [|m ms [v IH]]; cbn [getHandlerSetsLoop].
  { exists []. intros. apply always_ret. }
  destruct (methodEntry m method) as [a|]; [|by exists v].
  exists (a :: v). intros np ps.
  eapply always_bind; [apply keeps_yields, keeps_getHS|]. intros h _.
  eapply always_bind; [apply keeps_yields, keeps_allocP|]. intros o _.
  eapply always_bind; [apply keeps_yields, keeps_writeHsParams|]. intros [] _.
  eapply (always_bind _ _ any).
  { apply keeps_yields. destruct (someParams np ps); [|by apply keeps_ret].
    eapply keeps_bind; [apply keeps_deref|]. intros o1 _.
    eapply keeps_bind; [apply keeps_derefOpt|]. intros o2 _.
    by apply keeps_setP, Nat.le_0_l. }
  intros [] _.
  eapply always_bind; [apply IH|]. intros rest ->. apply always_ret.
Qed.

Lemma always_getHandlerSets node :
  ∃ v, ∀ np ps, always σ0 (getHandlerSets node method np ps) v.
Proof.
  unfold getHandlerSets. destruct (nodes σ0 !! node) as [n0|] eqn:Hn0.
  - destruct (always_getHandlerSetsLoop (methods n0)) as [v Hv]. exists v.
    intros np ps. eapply always_bind; [apply yields_getNode|]. intros n Hn.
    destruct (nodeAt_Some _ _ _ Hn0 Hn) as (-> & _). apply Hv.
  - exists []. intros np ps.
    eapply always_bind; [apply yields_getNode|]. intros n Hn.
    by destruct (nodeAt_None _ _ Hn0 Hn).
Qed.

Lemma always_relaxation (c : option nat) node (np : Node → pref)
    (ps : Node → option pref) :
  ∃ v, always σ0
         (match c with
          | Some astNode =>
              n ← getNode node; getHandlerSets astNode method (np n) (ps n)
          | None => mret []
          end) v.
Proof.
  destruct c as [ast|]; [|exists []; apply always_ret].
  destruct (always_getHandlerSets ast) as [v Hv]. exists v.
  eapply always_bind; [apply yields_getNode|]. intros n _. apply Hv.
Qed.

Lemma always_searchLiteral node part isLast :
  ∃ v, always σ0 (searchLiteral node method part isLast) v.
Proof.
  unfold searchLiteral. destruct (nodes σ0 !! node) as [n0|] eqn:Hn0; cycle 1.
  { exists ([], []). eapply always_bind; [apply yields_getNode|]. intros n Hn.
    by destruct (nodeAt_None _ _ Hn0 Hn). }
  destruct (children n0 !! part) as [nextNode|] eqn:Hnext; cycle 1.
  { exists ([], []). eapply always_bind; [apply yields_getNode|]. intros n Hn.
    destruct (nodeAt_Some _ _ _ Hn0 Hn) as (_ & -> & _). rewrite Hnext.
    apply always_ret. }
  destruct isLast; cycle 1.
  { exists ([], [nextNode]).
    eapply always_bind; [apply yields_getNode|]. intros n Hn.
    destruct (nodeAt_Some _ _ _ Hn0 Hn) as (_ & -> & _). rewrite Hnext.
    eapply always_bind; [apply yields_any, keeps_writeParams|]. intros [] _.
    apply always_ret. }
  destruct (always_getHandlerSets nextNode) as [v2 Hv2].
  destruct (nodes σ0 !! nextNode) as [nn0|] eqn:Hnn0; cycle 1.
  { exists ([], []). eapply always_bind; [apply yields_getNode|]. intros n Hn.
    destruct (nodeAt_Some _ _ _ Hn0 Hn) as (_ & -> & _). rewrite Hnext.
    eapply always_bind; [apply yields_any, keeps_writeParams|]. intros [] _.
    eapply always_bind; [apply yields_getNode|]. intros nn Hnn.
    by destruct (nodeAt_None _ _ Hnn0 Hnn). }
  destruct (always_relaxation (children nn0 !! "*") node (λ n, params n)
              (λ _, None)) as [v1 Hv1].
  exists (v1 ++ v2, []).
  eapply always_bind; [apply yields_getNode|]. intros n Hn.
  destruct (nodeAt_Some _ _ _ Hn0 Hn) as (_ & -> & _). rewrite Hnext.
  eapply always_bind; [apply yields_any, keeps_writeParams|]. intros [] _.
  eapply always_bind; [apply yields_getNode|]. intros nn Hnn.
  destruct (nodeAt_Some _ _ _ Hnn0 Hnn) as (_ & -> & _).
  eapply always_bind; [apply Hv1|]. intros hs1 ->.
  eapply always_bind; [apply yields_getNode|]. intros n' _.
  eapply always_bind; [apply Hv2|]. intros hs2 ->. apply always_ret.
Qed.

Lemma always_defined {A B} (o : option A) (f : A → M B) (v : B) :
  (∀ a, o = Some a → always σ0 (f a) v) → always σ0 (defined o ≫= f) v.
Proof. intros Hf. eapply always_bind; [apply yields_defined|]. done. Qed.

Lemma always_searchPattern node part rest isLast pattern :
  ∃ v, always σ0 (searchPattern node method part rest isLast pattern) v.
Proof.
  unfold searchPattern.
  assert (∀ {A} (f : Node → nat → M A) (v : A),
            (∀ n p, nodeAt σ0 node n → always σ0 (f n p) v) →
            always σ0 (n ← getNode node; p ← copyParams (params n); f n p) v)
    as Hprefix.
  { intros A f v Hf. eapply always_bind; [apply yields_getNode|]. intros n Hn.
    eapply always_bind; [apply keeps_yields, (keeps_copyParams 0)|].
    intros p _. by apply Hf. }
  destruct (nodes σ0 !! node) as [n0|] eqn:Hn0; cycle 1.
  { exists ([], []). eapply always_bind; [apply yields_getNode|]. intros n Hn.
    by destruct (nodeAt_None _ _ Hn0 Hn). }
  destruct pattern as [|key name matcher].
  { destruct (children n0 !! "*") as [ast|] eqn:Hast.
    - destruct (always_getHandlerSets ast) as [v Hv]. exists (v, [ast]).
      apply Hprefix. intros n p _.
      eapply always_bind; [apply yields_getNode|]. intros n' Hn'.
      destruct (nodeAt_Some _ _ _ Hn0 Hn') as (_ & -> & _). rewrite Hast.
      eapply always_bind; [apply Hv|]. intros hs ->. apply always_ret.
    - exists ([], []). apply Hprefix. intros n p _.
      eapply always_bind; [apply yields_getNode|]. intros n' Hn'.
      destruct (nodeAt_Some _ _ _ Hn0 Hn') as (_ & -> & _). rewrite Hast.
      apply always_ret. }
  destruct (String.eqb part "").
  { exists ([], []). apply Hprefix. intros. apply always_ret. }
  destruct (children n0 !! key) as [child|] eqn:Hchild; cycle 1.
  { exists ([], []). apply Hprefix. intros n p _.
    eapply always_bind; [apply yields_getNode|]. intros n' Hn'.
    destruct (nodeAt_Some _ _ _ Hn0 Hn') as (_ & -> & _). rewrite Hchild. cbv zeta.
    destruct (restMatch matcher rest).
    { eapply always_bind; [apply yields_any, keeps_writeProp, Nat.le_0_l|].
      intros [] _. by apply always_defined. }
    destruct (partMatch matcher part); [|apply always_ret].
    eapply always_bind; [apply yields_any, keeps_writeProp, Nat.le_0_l|].
    intros [] _. destruct isLast; by apply always_defined. }
  destruct (always_getHandlerSets child) as [v1 Hv1].
  destruct (restMatch matcher rest) eqn:Hrest.
  { exists (v1, []). apply Hprefix. intros n p _.
    eapply always_bind; [apply yields_getNode|]. intros n' Hn'.
    destruct (nodeAt_Some _ _ _ Hn0 Hn') as (_ & -> & _). rewrite Hchild. cbv zeta.
    eapply always_bind; [apply yields_any, keeps_writeProp, Nat.le_0_l|].
    intros [] _. apply always_defined. intros c [= <-].
    eapply always_bind; [apply yields_getNode|]. intros n'' _.
    eapply always_bind; [apply Hv1|]. intros hs ->. apply always_ret. }
  destruct (partMatch matcher part) eqn:Hpart; cycle 1.
  { exists ([], []). apply Hprefix. intros n p _.
    eapply always_bind; [apply yields_getNode|]. intros n' Hn'. cbv zeta.
    apply always_ret. }
  destruct isLast; cycle 1.
  { exists ([], [child]). apply Hprefix. intros n p _.
    eapply always_bind; [apply yields_getNode|]. intros n' Hn'.
    destruct (nodeAt_Some _ _ _ Hn0 Hn') as (_ & -> & _). rewrite Hchild. cbv zeta.
    eapply always_bind; [apply yields_any, keeps_writeProp, Nat.le_0_l|].
    intros [] _. apply always_defined. intros c [= <-].
    eapply always_bind; [apply yields_any, keeps_writeParams|]. intros [] _.
    apply always_ret. }
  destruct (nodes σ0 !! child) as [c0|] eqn:Hc0; cycle 1.
  { exists ([], []). apply Hprefix. intros n p _.
    eapply always_bind; [apply yields_getNode|]. intros n' Hn'.
    destruct (nodeAt_Some _ _ _ Hn0 Hn') as (_ & -> & _). rewrite Hchild. cbv zeta.
    eapply always_bind; [apply yields_any, keeps_writeProp, Nat.le_0_l|].
    intros [] _. apply always_defined. intros c [= <-].
    eapply always_bind; [apply yields_getNode|]. intros n'' _.
    eapply always_bind; [apply Hv1|]. intros hs ->.
    eapply always_bind; [apply yields_getNode|]. intros nc Hnc.
    by destruct (nodeAt_None _ _ Hc0 Hnc). }
  assert (∃ v2, ∀ p, always σ0
            (match children c0 !! "*" with
             | Some astNode =>
                 n ← getNode node;
                 getHandlerSets astNode method (pobj p) (Some (params n))
             | None => mret []
             end) v2) as [v2 Hv2].
  { destruct (children c0 !! "*") as [ast|]; [|exists []; intros; apply always_ret].
    destruct (always_getHandlerSets ast) as [v Hv]. exists v. intros p.
    eapply always_bind; [apply yields_getNode|]. intros n _. apply Hv. }
  exists (v1 ++ v2, []). apply Hprefix. intros n p _.
  eapply always_bind; [apply yields_getNode|]. intros n' Hn'.
  destruct (nodeAt_Some _ _ _ Hn0 Hn') as (_ & -> & _). rewrite Hchild. cbv zeta.
  eapply always_bind; [apply yields_any, keeps_writeProp, Nat.le_0_l|].
  intros [] _. apply always_defined. intros c [= <-].
  eapply always_bind; [apply yields_getNode|]. intros n'' _.
  eapply always_bind; [apply Hv1|]. intros hs1 ->.
  eapply always_bind; [apply yields_getNode|]. intros nc Hnc.
  destruct (nodeAt_Some _ _ _ Hc0 Hnc) as (_ & -> & _).
  eapply always_bind; [apply Hv2|]. intros hs2 ->. apply always_ret.
Qed.

Lemma always_searchPatterns node part rest isLast ps :
  ∃ v, always σ0 (searchPatterns node method part rest isLast ps) v.
Proof.
  induction ps as [|p ps [v2 IH]]; cbn [searchPatterns].
  { exists ([], []). apply always_ret. }
  destruct (always_searchPattern node part rest isLast p) as [[a1 b1] Hv1].
  destruct v2 as [a2 b2]. exists (a1 ++ a2, b1 ++ b2).
  eapply always_bind; [apply Hv1|]. intros [hs1 t1] [= -> ->].
  eapply always_bind; [apply IH|]. intros [hs2 t2] [= -> ->]. apply always_ret.
Qed.

Lemma always_searchNode node part rest isLast :
  ∃ v, always σ0 (searchNode node method part rest isLast) v.
Proof.
  unfold searchNode.
  destruct (always_searchLiteral node part isLast) as [v1 Hv1].
  destruct (nodes σ0 !! node) as [n0|] eqn:Hn0; cycle 1.
  { exists ([], []). eapply always_bind; [apply Hv1|]. intros [hs1 t1] _.
    eapply always_bind; [apply yields_getNode|]. intros n Hn.
    by destruct (nodeAt_None _ _ Hn0 Hn). }
  destruct (always_searchPatterns node part rest isLast (patterns n0)) as [[a2 b2] Hv2].
  destruct v1 as [a1 b1]. exists (a1 ++ a2, b1 ++ b2).
  eapply always_bind; [apply Hv1|]. intros [hs1 t1] [= -> ->].
  eapply always_bind; [apply yields_getNode|]. intros n Hn.
  destruct (nodeAt_Some _ _ _ Hn0 Hn) as (_ & _ & -> & _).
  eapply always_bind; [apply Hv2|]. intros [hs2 t2] [= -> ->]. apply always_ret.
Qed.

Lemma always_searchNodes curNodes part rest isLast :
  ∃ v, always σ0 (searchNodes curNodes method part rest isLast) v.
Proof.
  induction curNodes as [|a l [v2 IH]]; cbn [searchNodes].
  { exists ([], []). apply always_ret. }
  destruct (always_searchNode a part rest isLast) as [[a1 b1] Hv1].
  destruct v2 as [a2 b2]. exists (a1 ++ a2, b1 ++ b2).
  eapply always_bind; [apply Hv1|]. intros [hs1 t1] [= -> ->].
  eapply always_bind; [apply IH|]. intros [hs2 t2] [= -> ->]. apply always_ret.
Qed.

Lemma always_searchParts parts :
  ∀ curNodes, ∃ v, always σ0 (searchParts parts curNodes method) v.
Proof.
  induction parts as [|part parts IH]; intros curNodes; cbn [searchParts].
  { exists []. apply always_ret. }
  cbv zeta.
  destruct (always_searchNodes curNodes part (join (part :: parts))
              (bool_decide (parts = []))) as [[hs1 temp] Hv1].
  destruct (IH temp) as [v2 Hv2]. exists (hs1 ++ v2).
  eapply always_bind; [apply Hv1|]. intros [hs1' temp'] [= -> ->].
  eapply always_bind; [apply Hv2|]. intros hs2 ->. apply always_ret.
Qed.

Lemma insertByScore_scores (x y : nat * HandlerSet T) l l' :
  x.1 = y.1 → score x.2 = score y.2 →
  Forall2 (λ a b : nat * HandlerSet T, a.1 = b.1 ∧ score a.2 = score b.2) l l' →
  Forall2 (λ a b : nat * HandlerSet T, a.1 = b.1 ∧ score a.2 = score b.2)
    (insertByScore x l) (insertByScore y l').
Proof.
  intros Hx Hs Hall. induction Hall as [|a b l l' [Ha Hb] Hall IH]; cbn [insertByScore].
  { by repeat constructor. }
  rewrite Hs, Hb. destruct (score y.2 <=? score b.2); by repeat constructor.
Qed.

Lemma sortByScore_scores (l l' : list (nat * HandlerSet T)) :
  Forall2 (λ a b : nat * HandlerSet T, a.1 = b.1 ∧ score a.2 = score b.2) l l' →
  (sortByScore l).*1 = (sortByScore l').*1.
Proof.
  intros Hall.
  assert (Forall2 (λ a b : nat * HandlerSet T, a.1 = b.1 ∧ score a.2 = score b.2)
            (sortByScore l) (sortByScore l')) as Hsort.
  { unfold sortByScore. induction Hall as [|x y l l' [Hx Hs] Hall IH]; [constructor|].
    cbn [foldr]. by apply insertByScore_scores. }
  induction Hsort as [|a b k k' [Ha _] _ IH]; [done|].
  by rewrite !fmap_cons, Ha, IH.
Qed.

Lemma readHandlerSets_scores σ σ' τ τ' refs hs hs' :
  sameStruct σ0 σ → sameStruct σ0 σ' →
  readHandlerSets refs σ = Some (hs, τ) →
  readHandlerSets refs σ' = Some (hs', τ') →
  Forall2 (λ a b : nat * HandlerSet T, a.1 = b.1 ∧ score a.2 = score b.2) hs hs'.
Proof.
  intros [_ Hs] [_ Hs'] [_ Hr]%readHandlerSets_run [_ Hr']%readHandlerSets_run.
  revert hs' Hr'. induction Hr as [|a [a1 h] refs hs [Ha Hh] _ IH]; intros hs' Hr'.
  { inversion Hr'. constructor. }
  inversion Hr' as [|? [a2 h'] ? hs2 [Ha' Hh'] Hrest]; subst. simpl in *.
  constructor; [|by apply IH]. split; [done|]. simpl.
  destruct (Forall2_lookup_r _ _ _ _ _ Hs Hh) as (h0 & Hh0 & _ & _ & ->).
  destruct (Forall2_lookup_r _ _ _ _ _ Hs' Hh') as (h1 & Hh1 & _ & _ & ->).
  congruence.
Qed.

(** Two searches from stores with the nodes and handler sets of [σ0]
    return the same references. *)
Lemma searchRefs_same path σ σ' τ τ' refs refs' :
  sameStruct σ0 σ → sameStruct σ0 σ' →
  searchRefs root method path σ = Some (refs, τ) →
  searchRefs root method path σ' = Some (refs', τ') →
  refs' = refs.
Proof.
  intros Hs Hs' Hrun Hrun'. unfold searchRefs in Hrun, Hrun'.
  destruct (always_searchParts (splitPath path) [root]) as [v Hv].
  apply bind_inv in Hrun as ([] & σa & Hw & Hrun).
  apply bind_inv in Hrun' as ([] & σa' & Hw' & Hrun').
  pose proof (proj2 (yields_any σ0 _ (keeps_writeParams _ _ _) _ _ _ Hs Hw)) as Hsa.
  pose proof (proj2 (yields_any σ0 _ (keeps_writeParams _ _ _) _ _ _ Hs' Hw')) as Hsa'.
  apply bind_inv in Hrun as (hss & σb & Hp & Hrun).
  apply bind_inv in Hrun' as (hss' & σb' & Hp' & Hrun').
  destruct (Hv _ _ _ Hsa Hp) as [-> Hsb].
  destruct (Hv _ _ _ Hsa' Hp') as [-> Hsb'].
  apply bind_inv in Hrun as (hs & σc & Hr & Hrun).
  apply bind_inv in Hrun' as (hs' & σc' & Hr' & Hrun').
  injection Hrun as <- _. injection Hrun' as <- _.
  pose proof (readHandlerSets_scores _ _ _ _ _ _ _ Hsb Hsb' Hr Hr') as Hall.
  rewrite <-(Forall2_length _ _ _ Hall).
  destruct (1 <? length hs); [|done].
  symmetry. by apply sortByScore_scores.
Qed.

End Fixed.

(** X16: the handlers of a result do not depend on the requests served
    before: on a trie built by registrations, a search after any earlier
    requests returns the same handlers, in the same order and as often,
    as the search of the trie as it was built. *)
Theorem search_handlers_ignore_history {T} {E : RegExpEngine}
    (routes : list (Route T)) (σ : State T) (reqs : list (string * string))
    (method path : string) :
  insertAll routes emptyTrie = Some σ →
  ∃ σ1 res res' σ2 σ2',
    serve reqs σ = Some σ1
    ∧ search root method path σ = Some (res, σ2)
    ∧ search root method path σ1 = Some (res', σ2')
    ∧ res'.*1 = res.*1.
Proof.
  intros Hrun. destruct (built_stores _ _ Hrun) as (kp & HInv & HBuilt & Hg).
  destruct (serve_good _ _ _ reqs HInv σ Hg) as (σ1 & Hserve & Hg1).
  destruct (search_refs routes kp σ HInv HBuilt method path σ Hg)
    as (refs & res & σ2 & Hsearch & _ & Hrefs & Hres & _).
  destruct (search_refs routes kp σ HInv HBuilt method path σ1 Hg1)
    as (refs' & res' & σ2' & Hsearch' & _ & Hrefs' & Hres' & _).
  exists σ1, res, res', σ2, σ2'. do 3 (split; [done|]).
  assert (refs' = refs) as ->.
  { by eapply (searchRefs_same σ method path σ σ1); [apply Hg|apply Hg1|..]. }
  clear -Hres Hres'. revert res' Hres'.
  induction Hres as [|x [h r] refs res (m & p & Hx) _ IH]; intros res' Hres'.
  { by inversion Hres'. }
  inversion Hres' as [|? [h' r'] ? res2 (m' & p' & Hx') Hrest]; subst.
  rewrite !fmap_cons, (IH _ Hrest). simpl in *.
  assert (Some (m, p, h) = Some (m', p', h')) as [= _ _ ->]
    by (etrans; [symmetry; exact Hx|exact Hx']).
  done.
Qed.

Lemma search_handlers_ignore_history_witness :
  ∃ (σ1 : State nat) res res' σ2 σ2',
    serve (E := MiniRegExp.engine) [("GET", "/1/*/zzz")]
      (Scenario.param {[ "GET" := 0 ]} 7) = Some σ1
    ∧ search (E := MiniRegExp.engine) root "GET" "/v/b"
        (Scenario.param {[ "GET" := 0 ]} 7) = Some (res, σ2)
    ∧ search (E := MiniRegExp.engine) root "GET" "/v/b" σ1 = Some (res', σ2')
    ∧ res'.*1 = res.*1.
Proof.
  apply (search_handlers_ignore_history (E := MiniRegExp.engine)
           [("GET", "/:x/b", 7)]).
  reflexivity.
Defined.

(** ** The adapter: content types, results and streams *)

Module RegexFacts.
Import Regex.

Lemma append_nil_l (s : string) : "" +:+ s = s.
Proof. done. Qed.

Lemma append_cons c (s t : string) : String c s +:+ t = String c (s +:+ t).
Proof. done. Qed.

Lemma append_nil_r (s : string) : s +:+ "" = s.
Proof.
  induction s as [|c s IH]; [done|].
  change (String c (s +:+ "") = String c s). by rewrite IH.
Qed.

Lemma append_assoc (s t u : string) : (s +:+ t) +:+ u = s +:+ (t +:+ u).
Proof.
  induction s as [|c s IH]; [done|].
  change (String c ((s +:+ t) +:+ u) = String c (s +:+ (t +:+ u))).
  by rewrite IH.
Qed.

Lemma nullable_lang r : nullable r = true ↔ lang r "".
Proof.
  split.
  - induction r as [| | | |r IHr s IHs|r IHr s IHs|r IHr]; simpl; try done.
    + intros _. constructor.
    + intros [Hr Hs]%andb_true_iff.
      change (lang (Cat r s) ("" +:+ "")). constructor; auto.
    + intros [Hr|Hs]%orb_true_iff; [apply lang_alt_l|apply lang_alt_r]; auto.
    + intros _. constructor.
  - remember EmptyString as w eqn:Hw. intros H. revert Hw.
    induction H as [| | |r s u v Hu IHu Hv IHv|r s u Hu IHu|r s u Hu IHu| |];
      simpl; intros Hw; try done.
    + destruct u; [|done]. rewrite append_nil_l in Hw. by rewrite IHu, IHv.
    + by rewrite IHu.
    + rewrite IHu by done. apply orb_true_r.
Qed.

Lemma deriv_lang c r s : lang (deriv c r) s ↔ lang r (String c s).
Proof.
  split.
  - revert s. induction r as [| |d| |r IHr t IHt|r IHr t IHt|r IHr];
      simpl; intros s H.
    + inversion H.
    + inversion H.
    + destruct (Ascii.eqb c d) eqn:Hcd; [|inversion H].
      apply Ascii.eqb_eq in Hcd as ->. inversion H; subst. constructor.
    + destruct (isLineTerminator c) eqn:Hc; [inversion H|].
      inversion H; subst. by constructor.
    + destruct (nullable r) eqn:Hn.
      * inversion H as [| | | |? ? ? H1|? ? ? H1| |]; subst.
        -- inversion H1; subst.
           change (lang (Cat r t) (String c u +:+ v)). constructor; auto.
        -- change (lang (Cat r t) ("" +:+ String c s)).
           constructor; [by apply nullable_lang|auto].
      * inversion H; subst.
        change (lang (Cat r t) (String c u +:+ v)). constructor; auto.
    + inversion H; subst; [apply lang_alt_l|apply lang_alt_r]; auto.
    + inversion H; subst.
      change (lang (Star r) (String c u +:+ v)). constructor; auto.
  - remember (String c s) as w eqn:Hw. intros H. revert s Hw.
    induction H as [| | |r t u v Hu IHu Hv IHv|r t u Hu IHu|r t u Hu IHu|
                    |r u v Hu IHu Hv IHv]; simpl; intros s Hw; try done.
    + injection Hw as -> <-. rewrite Ascii.eqb_refl. constructor.
    + injection Hw as -> <-. rewrite H. constructor.
    + destruct u as [|d u].
      * rewrite append_nil_l in Hw. subst v.
        rewrite (proj2 (nullable_lang r) Hu). apply lang_alt_r. by apply IHv.
      * rewrite append_cons in Hw. injection Hw as -> <-.
        destruct (nullable r); [apply lang_alt_l|]; constructor; auto.
    + apply lang_alt_l. auto.
    + apply lang_alt_r. auto.
    + destruct u as [|d u].
      * rewrite append_nil_l in Hw. auto.
      * rewrite append_cons in Hw. injection Hw as -> <-. constructor; auto.
Qed.

Lemma testWhole_lang r s : testWhole r s = true ↔ lang r s.
Proof.
  revert r. induction s as [|c s IH]; intros r; simpl.
  - apply nullable_lang.
  - rewrite IH. apply deriv_lang.
Qed.

Lemma testPrefix_lang r s :
  testPrefix r s = true ↔ ∃ u v, s = u +:+ v ∧ lang r u.
Proof.
  revert r. induction s as [|c s IH]; intros r; simpl.
  - rewrite orb_false_r, nullable_lang. split.
    + intros H. by exists "", "".
    + intros (u & v & Huv & H). destruct u; [done|done].
  - rewrite orb_true_iff, nullable_lang, IH. split.
    + intros [H|(u & v & -> & H)].
      * by exists "", (String c s).
      * exists (String c u), v. split; [done|]. by apply deriv_lang.
    + intros (u & v & Huv & H). destruct u as [|d u].
      * by left.
      * right. rewrite append_cons in Huv. injection Huv as <- ->. exists u, v.
        split; [done|]. by apply deriv_lang.
Qed.

Lemma lang_lit w s : lang (lit w) s ↔ s = w.
Proof.
  revert s. induction w as [|c w IH]; intros s; simpl.
  - split; [by inversion 1|intros ->; constructor].
  - split.
    + inversion 1 as [| | |? ? u v Hu Hv| | | |]; subst.
      inversion Hu; subst. apply IH in Hv as ->. done.
    + intros ->. change (lang (Cat (Chr c) (lit w)) (String c "" +:+ w)).
      constructor; [constructor|by apply IH].
Qed.

Lemma lang_cat_iff r t s :
  lang (Cat r t) s ↔ ∃ u v, s = u +:+ v ∧ lang r u ∧ lang t v.
Proof.
  split.
  - inversion 1; subst. eauto.
  - intros (u & v & -> & Hu & Hv). by constructor.
Qed.

Lemma lang_alt_iff r t s : lang (Alt r t) s ↔ lang r s ∨ lang t s.
Proof.
  split.
  - inversion 1; subst; auto.
  - intros [H|H]; [by apply lang_alt_l|by apply lang_alt_r].
Qed.

Lemma oneLine_app u v : oneLine (u +:+ v) = oneLine u && oneLine v.
Proof.
  induction u as [|c u IH]; [done|]. simpl. rewrite IH. by rewrite andb_assoc.
Qed.

Lemma lang_any s : lang (Star Dot) s ↔ oneLine s = true.
Proof.
  split.
  - remember (Star Dot) as r eqn:Hr. intros H. revert Hr.
    induction H as [| | | | | | |r u v Hu IHu Hv IHv]; intros Hr; try done.
    injection Hr as ->. rewrite oneLine_app, IHv by done.
    inversion Hu as [| |c Hc| | | | |]; subst. simpl. by rewrite Hc.
  - induction s as [|c s IH]; simpl; [constructor|].
    intros [Hc Hs]%andb_true_iff. apply negb_true_iff in Hc.
    change (lang (Star Dot) (String c "" +:+ s)).
    constructor; [by constructor|auto].
Qed.

Lemma lang_alts l s : lang (alts l) s ↔ ∃ r, r ∈ l ∧ lang r s.
Proof.
  induction l as [|r l IH]; simpl.
  - split; [inversion 1|by intros (r & ?%elem_of_nil & _)].
  - destruct l as [|r' l].
    + split; [intros H; exists r; split; [by left|done]|].
      by intros (r0 & ->%list_elem_of_singleton & H).
    + rewrite lang_alt_iff, IH. split.
      * intros [H|(r0 & Hin & H)]; [exists r; split; [by left|done]|].
        exists r0. split; [by right|done].
      * intros (r0 & [->|Hin]%elem_of_cons & H); [by left|].
        right. by exists r0.
Qed.

Lemma lang_words ws s : lang (alts (lit <$> ws)) s ↔ s ∈ ws.
Proof.
  rewrite lang_alts. split.
  - intros (r & (w & -> & Hw)%list_elem_of_fmap & H). by apply lang_lit in H as ->.
  - intros Hs. exists (lit s). split; [by apply list_elem_of_fmap_2|].
    by apply lang_lit.
Qed.

End RegexFacts.

Module ProcessorFacts.
Import Lambda Regex RegexFacts Processor ProxyResult.

(** X8: [isContentTypeBinary]: the content types that are not binary are
    [text/] followed by one of five subtypes, [application/] with [json]
    or [xml] somewhere after it, and [image/svg+xml], each followed by
    anything on the same line; everything else is binary. *)
Theorem isContentTypeBinary_text (contentType : string) :
  isContentTypeBinary contentType = false ↔
    (∃ w rest, w ∈ ["plain"; "html"; "css"; "javascript"; "csv"]
               ∧ contentType = "text/" +:+ w +:+ rest ∧ oneLine rest = true)
    ∨ (∃ a w b, w ∈ ["json"; "xml"]
                ∧ contentType = "application/" +:+ a +:+ w +:+ b
                ∧ oneLine a = true ∧ oneLine b = true)
    ∨ (∃ rest, contentType = "image/svg+xml" +:+ rest ∧ oneLine rest = true).
Proof.
  unfold isContentTypeBinary. rewrite negb_false_iff, testWhole_lang.
  unfold textContentType. cbn [alts]. rewrite !lang_alt_iff.
  split.
  - intros [H|[H|H]].
    + left. apply lang_cat_iff in H as (u & v & -> & ->%lang_lit & H).
      apply lang_cat_iff in H as (w & rest & -> & Hw%lang_words & Hrest%lang_any).
      by exists w, rest.
    + right; left. apply lang_cat_iff in H as (u & v & -> & ->%lang_lit & H).
      apply lang_cat_iff in H as (aw & b & -> & Haw & Hb%lang_any).
      cbn [alts] in Haw. apply lang_alt_iff in Haw as [Haw|Haw];
        apply lang_cat_iff in Haw as (a & w & -> & Ha%lang_any & ->%lang_lit).
      * exists a, "json", b. rewrite append_assoc.
        split; [set_solver|done].
      * exists a, "xml", b. rewrite append_assoc.
        split; [set_solver|done].
    + right; right. apply lang_cat_iff in H as (u & rest & -> & ->%lang_lit & H).
      apply lang_any in H. by exists rest.
  - intros [(w & rest & Hw & -> & Hrest)|[(a & w & b & Hw & -> & Ha & Hb)
                                          |(rest & -> & Hrest)]].
    + left. constructor; [by apply lang_lit|].
      constructor; [by apply lang_words|by apply lang_any].
    + right; left. constructor; [by apply lang_lit|].
      rewrite <-append_assoc. constructor; [|by apply lang_any].
      cbn [alts]. apply lang_alt_iff.
      apply elem_of_cons in Hw as [->|Hw]; [left|right].
      * constructor; [by apply lang_any|by apply lang_lit].
      * apply list_elem_of_singleton in Hw as ->.
        constructor; [by apply lang_any|by apply lang_lit].
    + right; right. constructor; [by apply lang_lit|by apply lang_any].
Qed.

(** X9: [isContentEncodingBinary]: an encoding is binary exactly when it
    starts with [gzip], [deflate], [compress] or [br]; a missing header
    is not. *)
Theorem isContentEncodingBinary_prefix (contentEncoding : option string) :
  isContentEncodingBinary contentEncoding = true ↔
    ∃ w rest, w ∈ ["gzip"; "deflate"; "compress"; "br"]
              ∧ contentEncoding = Some (w +:+ rest).
Proof.
  destruct contentEncoding as [s|]; simpl.
  - rewrite testPrefix_lang. unfold compressedEncoding. split.
    + intros (u & v & -> & Hu%lang_words). by exists u, v.
    + intros (w & rest & Hw & [= ->]). exists w, rest. split; [done|].
      by apply lang_words.
  - split; [done|]. by intros (w & rest & _ & ?).
Qed.

Lemma consHead_nonempty c l : consHead c l ≠ [].
Proof. by destruct l. Qed.

Lemma splitCommaSpace_step c s :
  splitCommaSpace (String c s)
  = match s with
    | String d rest' =>
        if Ascii.eqb c "," && Ascii.eqb d " " then "" :: splitCommaSpace rest'
        else consHead c (splitCommaSpace s)
    | EmptyString => consHead c (splitCommaSpace s)
    end.
Proof. done. Qed.

Lemma splitCommaSpace_nonempty s : splitCommaSpace s ≠ [].
Proof.
  destruct s as [|c s]; [done|]. rewrite splitCommaSpace_step.
  destruct s as [|d rest]; [apply consHead_nonempty|].
  destruct (Ascii.eqb c "," && Ascii.eqb d " "); [done|apply consHead_nonempty].
Qed.

Lemma concat_consHead c l :
  l ≠ [] → String.concat ", " (consHead c l) = String c (String.concat ", " l).
Proof. destruct l as [|hd [|hd' tl]]; done. Qed.

Lemma length_consHead c l : l ≠ [] → length (consHead c l) = length l.
Proof. by destruct l. Qed.

(** The pieces of a text, joined again, are the text. *)
Lemma concat_splitCommaSpace s : String.concat ", " (splitCommaSpace s) = s.
Proof.
  remember (String.length s) as n eqn:Hn. revert s Hn.
  induction n as [n IH] using lt_wf_ind. intros s Hn.
  destruct s as [|c s]; [done|]. rewrite splitCommaSpace_step.
  destruct s as [|d rest].
  - done.
  - destruct (Ascii.eqb c "," && Ascii.eqb d " ") eqn:Hsep.
    + apply andb_true_iff in Hsep as [->%Ascii.eqb_eq ->%Ascii.eqb_eq].
      pose proof (splitCommaSpace_nonempty rest) as Hne.
      pose proof (IH (String.length rest) ltac:(simpl in Hn; lia) rest eq_refl)
        as Hrest.
      destruct (splitCommaSpace rest) as [|p ps]; [done|].
      change (String.concat ", " ("" :: p :: ps))
        with (", " +:+ String.concat ", " (p :: ps)).
      by rewrite Hrest.
    + rewrite concat_consHead by apply splitCommaSpace_nonempty.
      by rewrite (IH (String.length (String d rest)) ltac:(simpl in Hn; simpl; lia)
                    (String d rest) eq_refl).
Qed.

(** A separator that was put between two texts is found again. *)
Lemma splitCommaSpace_join u t :
  S (length (splitCommaSpace t)) ≤ length (splitCommaSpace (u +:+ ", " +:+ t)).
Proof.
  remember (String.length u) as n eqn:Hn. revert u Hn.
  induction n as [n IH] using lt_wf_ind. intros u Hn.
  destruct u as [|c [|d u]].
  - change ("" +:+ ", " +:+ t) with (String "," (String " " t)).
    rewrite splitCommaSpace_step. simpl. lia.
  - change (String c "" +:+ ", " +:+ t) with (String c (String "," (String " " t))).
    rewrite splitCommaSpace_step.
    replace (Ascii.eqb "," " ") with false by done. rewrite andb_false_r.
    rewrite length_consHead by apply splitCommaSpace_nonempty.
    rewrite splitCommaSpace_step. simpl. lia.
  - change (String c (String d u) +:+ ", " +:+ t)
      with (String c (String d (u +:+ ", " +:+ t))).
    rewrite splitCommaSpace_step.
    destruct (Ascii.eqb c "," && Ascii.eqb d " ").
    + pose proof (IH (String.length u) ltac:(simpl in Hn; lia) u eq_refl).
      simpl. lia.
    + rewrite length_consHead by apply splitCommaSpace_nonempty.
      apply (IH (String.length (String d u)) ltac:(simpl in Hn; simpl; lia)
               (String d u) eq_refl).
Qed.

Lemma splitCommaSpace_values vs :
  vs ≠ [] → length vs ≤ length (splitCommaSpace (String.concat ", " vs)).
Proof.
  induction vs as [|v vs IH]; [done|]. intros _.
  destruct vs as [|v' vs].
  - simpl. pose proof (splitCommaSpace_nonempty v).
    destruct (splitCommaSpace v); [done|]. simpl. lia.
  - change (String.concat ", " (v :: v' :: vs))
      with (v +:+ ", " +:+ String.concat ", " (v' :: vs)).
    pose proof (splitCommaSpace_join v (String.concat ", " (v' :: vs))).
    specialize (IH ltac:(done)).
    change (length (v :: v' :: vs)) with (S (length (v' :: vs))). lia.
Qed.

Lemma headersHas_get hs name :
  headersHas hs name = true ↔ is_Some (headersGet hs name).
Proof.
  unfold headersHas, headersGet. induction hs as [|kv hs IH]; simpl.
  - split; [done|by intros [? ?]].
  - destruct (sameName name kv); simpl; [by split; eauto|done].
Qed.

Lemma headersGet_values hs name :
  headersGet hs name
  = match (List.filter (sameName name) hs).*2 with
    | [] => None
    | vs => Some (String.concat ", " vs)
    end.
Proof. unfold headersGet. by destruct (List.filter _ hs). Qed.

Section Results.
Import ProxyResult.

Lemma foldl_setHeader r hs :
  statusCode (foldl setHeader r hs) = statusCode r
  ∧ body (foldl setHeader r hs) = body r
  ∧ cookies (foldl setHeader r hs) = cookies r
  ∧ multiValueHeaders (foldl setHeader r hs) = multiValueHeaders r
  ∧ isBase64Encoded (foldl setHeader r hs) = isBase64Encoded r.
Proof.
  revert r. induction hs as [|kv hs IH]; intros r; [done|]. simpl.
  destruct (IH (setHeader r kv)) as (-> & -> & -> & -> & ->). done.
Qed.

(** After the copying of the headers, a name holds the value of its last
    pair. *)
Lemma foldl_setHeader_lookup r hs k :
  headers (foldl setHeader r hs) !! k
  = match last (List.filter (sameName k) hs).*2 with
    | Some v => Some v
    | None => headers r !! k
    end.
Proof.
  revert r. induction hs as [|[k' v] hs IH]; intros r; [done|]. simpl.
  rewrite IH. unfold sameName at 2. simpl.
  destruct (String.eqb k' k) eqn:Hk.
  - apply String.eqb_eq in Hk as ->. rewrite fmap_cons. simpl.
    destruct (List.filter (sameName k) hs).*2 as [|v' vs] eqn:Hvs.
    + simpl. by rewrite lookup_insert_eq.
    + rewrite last_cons_cons. destruct (last (v' :: vs)) eqn:Hl; [done|].
      by apply last_None in Hl.
  - apply String.eqb_neq in Hk.
    destruct (last _); [done|]. simpl. by rewrite lookup_insert_ne.
Qed.

Lemma filter_withoutName hs name k :
  List.filter (sameName k) (withoutName hs name)
  = if String.eqb k name then [] else List.filter (sameName k) hs.
Proof.
  unfold withoutName. induction hs as [|[k' v] hs IH].
  { by destruct (String.eqb k name). }
  cbn [List.filter]. change (sameName name (k', v)) with (String.eqb k' name).
  destruct (String.eqb k' name) eqn:Hn; cbn [negb List.filter];
    change (sameName k (k', v)) with (String.eqb k' k); rewrite IH.
  - destruct (String.eqb k name) eqn:Hk; [done|].
    apply String.eqb_eq in Hn as ->. rewrite String.eqb_sym. by rewrite Hk.
  - destruct (String.eqb k name) eqn:Hk; [|done].
    apply String.eqb_eq in Hk as ->. by rewrite Hn.
Qed.

(** In the object made from the entries, a name holds the value of its
    last entry. *)
Lemma fromEntries_lookup hs k :
  fromEntries hs !! k = last (List.filter (sameName k) hs).*2.
Proof.
  unfold fromEntries.
  assert (∀ o : gmap string string,
            foldl (λ o kv, <[kv.1 := kv.2]> o) o hs !! k
            = match last (List.filter (sameName k) hs).*2 with
              | Some v => Some v
              | None => o !! k
              end) as Hgen.
  { induction hs as [|[k' v] hs IH]; intros o; [done|]. simpl.
    rewrite IH. unfold sameName at 2. simpl.
    destruct (String.eqb k' k) eqn:Hk.
    - apply String.eqb_eq in Hk as ->. rewrite fmap_cons. simpl.
      destruct (List.filter (sameName k) hs).*2 as [|v' vs] eqn:Hvs.
      + simpl. by rewrite lookup_insert_eq.
      + rewrite last_cons_cons. destruct (last (v' :: vs)) eqn:Hl; [done|].
        by apply last_None in Hl.
    - apply String.eqb_neq in Hk.
      destruct (last _); [done|]. simpl. by rewrite lookup_insert_ne. }
  rewrite Hgen, lookup_empty. by destruct (last _).
Qed.

End Results.

Section Handle.
Context {Exn LambdaEvent LambdaContext RequestContext Request : Type}.
Variables encodeBase64 decodeText : string → string.
Variable typeError : Exn.
Variable isProxyEventV2 : LambdaEvent → bool.
Variable getRequestContext : LambdaEvent → RequestContext.
Variables createRequestV1 createRequestV2 : LambdaEvent → result Exn Request.
Import ProxyResult.

Local Abbreviation V1 :=
  (v1Processor encodeBase64 decodeText typeError createRequestV1).
Local Abbreviation V2 :=
  (v2Processor encodeBase64 decodeText typeError createRequestV2).
Local Abbreviation run := (handle isProxyEventV2 getRequestContext V1 V2).
Local Abbreviation App :=
  (Hono (Exn := Exn) (LambdaEvent := LambdaEvent) (LambdaContext := LambdaContext)
        (RequestContext := RequestContext) (Request := Request)).

Local Abbreviation answered' :=
  (answered isProxyEventV2 getRequestContext createRequestV1 createRequestV2).
Local Abbreviation setCookiesToResult' := (setCookiesToResultOf isProxyEventV2).

Lemma handle_inv (app : App) event lambdaContext r :
  run app event lambdaContext = Ok r →
  ∃ res, answered' app event lambdaContext res
         ∧ createResult encodeBase64 decodeText typeError
             (setCookiesToResult' event) event res = Ok r.
Proof.
  unfold handle, getProcessor, setCookiesToResultOf, answered. intros Hrun.
  destruct (isProxyEventV2 event); simpl in Hrun.
  - destruct (createRequestV2 event) as [req|e]; [|done].
    destruct (app req _) as [res|e] eqn:Happ; [|done]. eauto.
  - destruct (createRequestV1 event) as [req|e]; [|done].
    destruct (app req _) as [res|e] eqn:Happ; [|done]. eauto.
Qed.

Lemma handle_answered (app : App) event lambdaContext res :
  answered' app event lambdaContext res →
  run app event lambdaContext
  = createResult encodeBase64 decodeText typeError (setCookiesToResult' event)
      event res.
Proof.
  unfold handle, getProcessor, setCookiesToResultOf, answered.
  intros (req & Hreq & Happ).
  destruct (isProxyEventV2 event); simpl; by rewrite Hreq, Happ.
Qed.

Lemma binaryHeaders_flag hs :
  let isBase64Encoded :=
    match headersGet hs "content-type" with
    | Some contentType =>
        negb (String.eqb contentType "") && isContentTypeBinary contentType
    | None => false
    end in
  (if negb isBase64Encoded
   then isContentEncodingBinary (headersGet hs "content-encoding")
   else isBase64Encoded) = true ↔ binaryHeaders hs.
Proof.
  cbv zeta. unfold binaryHeaders.
  destruct (headersGet hs "content-type") as [ct|]; simpl.
  - destruct (String.eqb ct "") eqn:Hct; simpl.
    + apply String.eqb_eq in Hct as ->. split; [by right|].
      by intros [(ct & [= <-] & Hne & _)|?].
    + apply String.eqb_neq in Hct.
      destruct (isContentTypeBinary ct) eqn:Hb; simpl.
      * split; [|done]. intros _. left. by exists ct.
      * split; [by right|]. intros [(ct' & [= <-] & _ & Hb')|?]; [|done].
        congruence.
  - split; [by right|]. by intros [(ct & ? & _)|?].
Qed.

Lemma createResult_inv setCookiesToResult (event : LambdaEvent)
    (res : Response (Exn := Exn)) r :
  createResult encodeBase64 decodeText typeError setCookiesToResult event res
  = Ok r →
  ∃ bytes flag hs r1,
    arrayBuffer res = Ok bytes
    ∧ (flag = true ↔ binaryHeaders (Lambda.headers res))
    ∧ setCookies typeError setCookiesToResult res
        (mkResult (status res)
           (if flag then encodeBase64 bytes else decodeText bytes)
           ∅ None None flag) = Ok (hs, r1)
    ∧ r = foldl setHeader r1 hs.
Proof.
  unfold createResult. cbv zeta.
  pose proof (binaryHeaders_flag (Lambda.headers res)) as Hflag. cbv zeta in Hflag.
  destruct (if negb _ then _ else _) eqn:Hf at 1.
  all: rewrite Hf; rewrite Hf in Hflag.
  - destruct (arrayBuffer res) as [bytes|e] eqn:Hbytes; [|done].
    destruct (setCookies _ _ _ _) as [[hs r1]|e] eqn:Hset; [|done]. intros [= <-].
    by exists bytes, true, hs, r1.
  - unfold text. destruct (arrayBuffer res) as [bytes|e] eqn:Hbytes; [|done].
    destruct (setCookies _ _ _ _) as [[hs r1]|e] eqn:Hset; [|done]. intros [= <-].
    by exists bytes, false, hs, r1.
Qed.

(** The deletion of [set-cookie] is the one step of [setCookies] that
    can throw. *)
Lemma setCookies_guard setCookiesToResult (res : Response (Exn := Exn)) r0 :
  match setCookies typeError setCookiesToResult res r0 with
  | Ok _ => headersHas (Lambda.headers res) "set-cookie" = true → immutable res = false
  | Throw e =>
      e = typeError ∧ headersHas (Lambda.headers res) "set-cookie" = true
      ∧ immutable res = true
  end.
Proof.
  unfold setCookies, headersDelete.
  pose proof (headersHas_get (Lambda.headers res) "set-cookie") as Hhas.
  destruct (headersHas (Lambda.headers res) "set-cookie"); [|done].
  destruct (proj1 Hhas eq_refl) as [value ->].
  by destruct (immutable res).
Qed.

Lemma setCookies_spec (event : LambdaEvent) (res : Response (Exn := Exn)) r0 hs r1 :
  setCookies typeError (setCookiesToResult' event) res r0 = Ok (hs, r1) →
  hs = match cookieValues (Lambda.headers res) with
       | [] => Lambda.headers res
       | _ => withoutName (Lambda.headers res) "set-cookie"
       end
  ∧ statusCode r1 = statusCode r0 ∧ body r1 = body r0
  ∧ headers r1 = headers r0 ∧ isBase64Encoded r1 = isBase64Encoded r0
  ∧ (if isProxyEventV2 event
     then cookies r1
          = match cookieValues (Lambda.headers res) with
            | [] => cookies r0
            | vs => Some (splitCommaSpace (String.concat ", " vs))
            end
          ∧ multiValueHeaders r1 = multiValueHeaders r0
     else cookies r1 = cookies r0
          ∧ multiValueHeaders r1
            = match cookieValues (Lambda.headers res) with
              | [] => multiValueHeaders r0
              | vs => Some {[ "set-cookie" :=
                                splitCommaSpace (String.concat ", " vs) ]}
              end).
Proof.
  unfold setCookies, headersDelete, cookieValues, setCookiesToResultOf.
  pose proof (headersHas_get (Lambda.headers res) "set-cookie") as Hhas.
  rewrite headersGet_values in Hhas |- *.
  destruct (headersHas (Lambda.headers res) "set-cookie").
  - destruct (List.filter (sameName "set-cookie") (Lambda.headers res)).*2
      as [|v vs] eqn:Hvs.
    + destruct (proj1 Hhas eq_refl) as [? ?]. done.
    + destruct (immutable res); [done|]. intros [= <- <-].
      by destruct (isProxyEventV2 event).
  - destruct (List.filter (sameName "set-cookie") (Lambda.headers res)).*2
      as [|v vs] eqn:Hvs.
    + intros [= <- <-]. by destruct (isProxyEventV2 event).
    + assert (false = true) by (apply Hhas; eauto). done.
Qed.

Lemma createResult_ok setCookiesToResult (event : LambdaEvent)
    (res : Response (Exn := Exn)) bytes :
  arrayBuffer res = Ok bytes →
  (headersHas (Lambda.headers res) "set-cookie" = true → immutable res = false) →
  ∃ r, createResult encodeBase64 decodeText typeError setCookiesToResult event res
       = Ok r.
Proof.
  intros Hbytes Hguard. unfold createResult, text. cbv zeta. rewrite Hbytes.
  destruct (if negb _ then _ else _).
  all: match goal with
       | |- context [setCookies ?t ?f ?res ?r0] =>
           pose proof (setCookies_guard f res r0) as Hg;
           destruct (setCookies t f res r0) as [[hs r1]|e]; [eauto|]
       end.
  all: destruct Hg as (_ & Hhas & Him); rewrite (Hguard Hhas) in Him; done.
Qed.

Lemma createResult_immutable setCookiesToResult (event : LambdaEvent)
    (res : Response (Exn := Exn)) bytes :
  arrayBuffer res = Ok bytes →
  headersHas (Lambda.headers res) "set-cookie" = true → immutable res = true →
  createResult encodeBase64 decodeText typeError setCookiesToResult event res
  = Throw typeError.
Proof.
  intros Hbytes Hhas Him. unfold createResult, text. cbv zeta. rewrite Hbytes.
  destruct (if negb _ then _ else _).
  all: match goal with
       | |- context [setCookies ?t ?f ?res ?r0] =>
           pose proof (setCookies_guard f res r0) as Hg;
           destruct (setCookies t f res r0) as [[hs r1]|e]
       end.
  all: try (rewrite (Hg Hhas) in Him; done).
  all: by destruct Hg as (-> & _).
Qed.

End Handle.

(** X10: [handle] fulfils exactly when the request could be built, the
    application answered, the body of its response could be read to the
    end and, should the response have a [set-cookie] header, its headers
    are not immutable: [createResult] deletes that header from the
    response, which throws on immutable headers, so that [handle]
    rejects a response with cookies that [fetch] returned although its
    body was read. *)
Theorem handle_fulfils_iff
    {Exn LambdaEvent LambdaContext RequestContext Request : Type}
    (encodeBase64 decodeText : string → string) (typeError : Exn)
    (isProxyEventV2 : LambdaEvent → bool)
    (getRequestContext : LambdaEvent → RequestContext)
    (createRequestV1 createRequestV2 : LambdaEvent → result Exn Request)
    (app : Hono (LambdaContext := LambdaContext)) (event : LambdaEvent)
    (lambdaContext : option LambdaContext) :
  ((∃ r, handleEvent encodeBase64 decodeText typeError isProxyEventV2
           getRequestContext createRequestV1 createRequestV2 app event
           lambdaContext = Ok r) ↔
   ∃ res bytes,
     answered isProxyEventV2 getRequestContext createRequestV1 createRequestV2
       app event lambdaContext res
     ∧ arrayBuffer res = Ok bytes
     ∧ (headersHas (Lambda.headers res) "set-cookie" = true
        → immutable res = false)) ∧
  ∀ res bytes,
    answered isProxyEventV2 getRequestContext createRequestV1 createRequestV2
      app event lambdaContext res →
    arrayBuffer res = Ok bytes →
    headersHas (Lambda.headers res) "set-cookie" = true →
    immutable res = true →
    handleEvent encodeBase64 decodeText typeError isProxyEventV2
      getRequestContext createRequestV1 createRequestV2 app event lambdaContext
    = Throw typeError.
Proof.
  split; [split|].
  - intros (r & Hrun). apply handle_inv in Hrun as (res & Hres & Hr).
    apply createResult_inv in Hr as (bytes & flag & hs & r1 & Hbytes & _ & Hset & _).
    exists res, bytes. split; [done|]. split; [done|].
    match type of Hset with
    | setCookies ?t ?f ?res ?r0 = _ =>
        pose proof (setCookies_guard t f res r0) as Hg; by rewrite Hset in Hg
    end.
  - intros (res & bytes & Hres & Hbytes & Hguard). unfold handleEvent.
    erewrite handle_answered by exact Hres. by eapply createResult_ok.
  - intros res bytes Hres Hbytes Hhas Him. unfold handleEvent.
    erewrite handle_answered by exact Hres. by eapply createResult_immutable.
Qed.

(** X11: the body of a result: the status is that of the response; the body
    is the base64 text of the bytes of the response when its headers
    ask for it (a content type that is not empty and is binary, or else
    a binary content encoding), and the decoded text otherwise; a
    response without a content type is text unless its encoding is
    binary. *)
Theorem handle_body_encoding
    {Exn LambdaEvent LambdaContext RequestContext Request : Type}
    (encodeBase64 decodeText : string → string) (typeError : Exn)
    (isProxyEventV2 : LambdaEvent → bool)
    (getRequestContext : LambdaEvent → RequestContext)
    (createRequestV1 createRequestV2 : LambdaEvent → result Exn Request)
    (app : Hono (LambdaContext := LambdaContext)) (event : LambdaEvent)
    (lambdaContext : option LambdaContext) (r : ProxyResult.APIGatewayProxyResult) :
  handleEvent encodeBase64 decodeText typeError isProxyEventV2 getRequestContext
     createRequestV1 createRequestV2 app event lambdaContext = Ok r →
  ∃ res bytes,
    answered isProxyEventV2 getRequestContext createRequestV1 createRequestV2
      app event lambdaContext res ∧ arrayBuffer res = Ok bytes
    ∧ statusCode r = status res
    ∧ (binaryHeaders (Lambda.headers res) →
       isBase64Encoded r = true ∧ body r = encodeBase64 bytes)
    ∧ (¬ binaryHeaders (Lambda.headers res) →
       isBase64Encoded r = false ∧ body r = decodeText bytes).
Proof.
  intros Hrun. apply handle_inv in Hrun as (res & Hres & Hr).
  apply createResult_inv in Hr
    as (bytes & flag & hs & r1 & Hbytes & Hflag & Hset & ->).
  exists res, bytes. split; [done|]. split; [done|].
  destruct (setCookies_spec _ isProxyEventV2 event res _ hs r1 Hset)
    as (_ & Hst & Hbody & _ & Hb64 & _).
  destruct (foldl_setHeader r1 hs) as (-> & -> & _ & _ & ->).
  rewrite Hst, Hbody, Hb64. simpl. split; [done|]. split.
  - intros Hbin. apply Hflag in Hbin as ->. done.
  - intros Hbin. destruct flag; [|done]. exfalso. by apply Hbin, Hflag.
Qed.

(** X12: the cookies of a result: [set-cookie] is never among the headers of
    a result.  The values of the [set-cookie] headers of the response,
    joined and cut again at every comma followed by a space, are the
    [cookies] of the result for an event of version 2 and its
    [multiValueHeaders] otherwise; joined again they are the header
    values, but a value that holds a comma and a space (such as a date)
    comes in several pieces. *)
Theorem handle_set_cookie
    {Exn LambdaEvent LambdaContext RequestContext Request : Type}
    (encodeBase64 decodeText : string → string) (typeError : Exn)
    (isProxyEventV2 : LambdaEvent → bool)
    (getRequestContext : LambdaEvent → RequestContext)
    (createRequestV1 createRequestV2 : LambdaEvent → result Exn Request)
    (app : Hono (LambdaContext := LambdaContext)) (event : LambdaEvent)
    (lambdaContext : option LambdaContext) (r : ProxyResult.APIGatewayProxyResult) :
  handleEvent encodeBase64 decodeText typeError isProxyEventV2 getRequestContext
     createRequestV1 createRequestV2 app event lambdaContext = Ok r →
  ∃ res,
    answered isProxyEventV2 getRequestContext createRequestV1 createRequestV2
      app event lambdaContext res
    ∧ headers r !! "set-cookie" = None
    ∧ let vs := cookieValues (Lambda.headers res) in
      let cs := match vs with
                | [] => None
                | _ => Some (splitCommaSpace (String.concat ", " vs))
                end in
      (if isProxyEventV2 event
       then cookies r = cs ∧ multiValueHeaders r = None
       else cookies r = None
            ∧ multiValueHeaders r = (λ c, {[ "set-cookie" := c ]}) <$> cs)
      ∧ ∀ c, cs = Some c →
             String.concat ", " c = String.concat ", " vs ∧ length vs ≤ length c.
Proof.
  intros Hrun. apply handle_inv in Hrun as (res & Hres & Hr).
  apply createResult_inv in Hr
    as (bytes & flag & hs & r1 & Hbytes & Hflag & Hset & ->).
  exists res. split; [done|]. cbv zeta.
  destruct (setCookies_spec _ isProxyEventV2 event res _ hs r1 Hset)
    as (Hhs & _ & _ & Hh & _ & Hck).
  destruct (foldl_setHeader r1 hs) as (_ & _ & -> & -> & _).
  rewrite (foldl_setHeader_lookup r1 hs "set-cookie").
  rewrite Hhs, Hh. simpl.
  split; [|split].
  - unfold cookieValues.
    destruct (List.filter (sameName "set-cookie") (Lambda.headers res)).*2
      as [|v vs] eqn:Hvs.
    + by rewrite Hvs.
    + by rewrite filter_withoutName.
  - destruct (isProxyEventV2 event); destruct Hck as [-> ->];
      by destruct (cookieValues (Lambda.headers res)).
  - intros c Hc. destruct (cookieValues (Lambda.headers res)) as [|v vs] eqn:Hvs;
      [done|]. injection Hc as <-. split; [apply concat_splitCommaSpace|].
    by apply splitCommaSpace_values.
Qed.


(** X14: the streaming adapter, once the application has answered: the
    stream carries the status of the response and the object made from
    the entries of its headers as its metadata, in which a name holds
    the value of its last entry (of several [set-cookie] headers only
    the last is attached), and the stream is ended; it holds the chunks
    of the body in their order (one empty chunk when there is no body),
    and when the body fails on the way the text of the generic error
    follows the chunks that were written, under the status of the
    response. *)
Theorem streamHandle_writes_body
    {Exn LambdaEvent LambdaContext RequestContext Request Result : Type}
    (isProxyEventV2 : LambdaEvent → bool)
    (getRequestContext : LambdaEvent → RequestContext)
    (v1Processor v2Processor :
       EventProcessor (Exn := Exn) (LambdaEvent := LambdaEvent)
         (Request := Request) (APIGatewayProxyResult := Result))
    (app : Hono) (event : LambdaEvent) (responseStream : Writable)
    (context : LambdaContext) (req : Request) (res : Response) :
  createRequest (getProcessor isProxyEventV2 v1Processor v2Processor event) event
  = Ok req →
  app req (mkBindings event (getRequestContext event) (Some context)) = Ok res →
  (streamHandle isProxyEventV2 getRequestContext v1Processor v2Processor
     app event responseStream context).2
  = mkWritable (Some (status res, fromEntries (Lambda.headers res)))
      (written responseStream
       ++ match Lambda.body res with
          | None => [""]
          | Some reader =>
              chunks reader
              ++ match failure reader with
                 | Some _ => ["Internal Server Error"]
                 | None => []
                 end
          end)
      true
  ∧ ∀ k, fromEntries (Lambda.headers res) !! k
         = last (List.filter (sameName k) (Lambda.headers res)).*2.
Proof.
  intros Hreq Happ. split; [|intros k; apply fromEntries_lookup].
  unfold streamHandle, streamHandleTry.
  rewrite Hreq, Happ. cbv zeta.
  destruct (Lambda.body res) as [reader|]; [|done].
  assert (∀ w : Writable,
            (let '(outcome, s) := streamToNodeStream reader w in
             (Ok tt : result Exn unit,
              end_ match outcome with
                   | Ok _ => s
                   | Throw _ => write s "Internal Server Error"
                   end)).2
            = mkWritable (metadata w)
                (written w ++ chunks reader
                 ++ match failure reader with
                    | Some _ => ["Internal Server Error"]
                    | None => []
                    end) true) as Hloop.
  { induction reader as [|value rest IH|e]; intros w; simpl.
    - by rewrite app_nil_r.
    - rewrite IH. simpl. by rewrite <-(assoc_L (++)).
    - done. }
  by rewrite Hloop.
Qed.

(** X15: the streaming adapter, when the request cannot be built or the
    application fails: the text of the generic error is written and the
    stream is ended, and no metadata is attached: the failure is given
    no status of its own. *)
Theorem streamHandle_failure_has_no_status
    {Exn LambdaEvent LambdaContext RequestContext Request Result : Type}
    (isProxyEventV2 : LambdaEvent → bool)
    (getRequestContext : LambdaEvent → RequestContext)
    (v1Processor v2Processor :
       EventProcessor (Exn := Exn) (LambdaEvent := LambdaEvent)
         (Request := Request) (APIGatewayProxyResult := Result))
    (app : Hono) (event : LambdaEvent) (responseStream : Writable)
    (context : LambdaContext) :
  (∀ req,
     createRequest (getProcessor isProxyEventV2 v1Processor v2Processor event)
       event = Ok req →
     ∃ e, app req (mkBindings event (getRequestContext event) (Some context))
          = Throw e) →
  (streamHandle isProxyEventV2 getRequestContext v1Processor v2Processor
     app event responseStream context).2
  = mkWritable (metadata responseStream)
      (written responseStream ++ ["Internal Server Error"]) true.
Proof.
  intros Hfail. unfold streamHandle, streamHandleTry.
  destruct (createRequest _ event) as [req|e]; [|done].
  destruct (Hfail req eq_refl) as [e ->]. done.
Qed.

Lemma isContentTypeBinary_text_witness :
  isContentTypeBinary "application/vnd.api+json; charset=utf-8" = false.
Proof.
  apply isContentTypeBinary_text. right; left.
  exists "vnd.api+", "json", "; charset=utf-8".
  split; [set_solver|]. by split.
Defined.

Lemma isContentEncodingBinary_prefix_witness :
  ∃ w rest, w ∈ ["gzip"; "deflate"; "compress"; "br"]
            ∧ Some "brotli" = Some (w +:+ rest).
Proof. by apply (isContentEncodingBinary_prefix (Some "brotli")). Defined.

Lemma handle_fulfils_iff_witness :
  handleEvent Demo.base64 id "TypeError" id (λ _, tt) Demo.createRequest
    Demo.createRequest (Demo.app Demo.fetched) true None
  = Throw "TypeError".
Proof.
  apply (proj2 (handle_fulfils_iff Demo.base64 id "TypeError" id (λ _, tt)
                  Demo.createRequest Demo.createRequest (Demo.app Demo.fetched)
                  true None) Demo.fetched "PNG").
  - by exists tt.
  - reflexivity.
  - reflexivity.
  - reflexivity.
Defined.

Lemma handle_body_encoding_witness :
  ∃ res bytes,
    answered id (λ _, tt) Demo.createRequest Demo.createRequest
      (Demo.app Demo.response) true None res
    ∧ arrayBuffer res = Ok bytes
    ∧ ProxyResult.statusCode (Demo.expected true) = status res
    ∧ (binaryHeaders (Lambda.headers res) →
       ProxyResult.isBase64Encoded (Demo.expected true) = true
       ∧ ProxyResult.body (Demo.expected true) = Demo.base64 bytes)
    ∧ (¬ binaryHeaders (Lambda.headers res) →
       ProxyResult.isBase64Encoded (Demo.expected true) = false
       ∧ ProxyResult.body (Demo.expected true) = id bytes).
Proof.
  apply (handle_body_encoding Demo.base64 id "TypeError" id (λ _, tt)
           Demo.createRequest Demo.createRequest (Demo.app Demo.response) true None).
  by vm_compute.
Defined.

Lemma handle_set_cookie_witness :
  ∃ res,
    answered id (λ _, tt) Demo.createRequest Demo.createRequest
      (Demo.app Demo.response) false None res
    ∧ ProxyResult.headers (Demo.expected false) !! "set-cookie" = None
    ∧ let vs := cookieValues (Lambda.headers res) in
      let cs := match vs with
                | [] => None
                | _ => Some (splitCommaSpace (String.concat ", " vs))
                end in
      (if id false
       then ProxyResult.cookies (Demo.expected false) = cs
            ∧ ProxyResult.multiValueHeaders (Demo.expected false) = None
       else ProxyResult.cookies (Demo.expected false) = None
            ∧ ProxyResult.multiValueHeaders (Demo.expected false)
              = (λ c, {[ "set-cookie" := c ]}) <$> cs)
      ∧ ∀ c, cs = Some c →
             String.concat ", " c = String.concat ", " vs ∧ length vs ≤ length c.
Proof.
  apply (handle_set_cookie Demo.base64 id "TypeError" id (λ _, tt)
           Demo.createRequest Demo.createRequest (Demo.app Demo.response) false None).
  by vm_compute.
Defined.


Lemma streamHandle_writes_body_witness :
  (streamHandle id (λ _, tt) Demo.processor Demo.processor
     (Demo.app Demo.response) true Demo.stream tt).2
  = mkWritable
      (Some (200, {[ "content-type" := "image/png"; "set-cookie" := "b=2";
                     "x-powered-by" := "hono" ]}))
      ["PN"; "G"] true.
Proof.
  destruct (streamHandle_writes_body id (λ _, tt) Demo.processor Demo.processor
              (Demo.app Demo.response) true Demo.stream tt tt Demo.response
              eq_refl eq_refl) as [-> _].
  by vm_compute.
Defined.

Lemma streamHandle_failure_has_no_status_witness :
  (streamHandle id (λ _, tt) Demo.processor Demo.processor
     (λ _ _, Throw "down") true Demo.stream tt).2
  = mkWritable None ["Internal Server Error"] true.
Proof.
  apply (streamHandle_failure_has_no_status id (λ _, tt) Demo.processor
           Demo.processor (λ _ _, Throw "down") true Demo.stream tt).
  intros req _. by exists "down".
Defined.

End ProcessorFacts.
